(** * iCloud shared album sync: selection, fetch, retention and mirroring

    A shallow embedding of [sync.py].  Python values coming out of the JSON
    catalog are kept dynamically typed ([pyval]); functions that can raise
    return [res]; functions that touch the destination directory, the
    network or the log run in the state-and-exception monad [M] over
    [world].

    Conventions of the embedding:
    - text is 7-bit ASCII: [lower] folds A-Z only and [is_space] is the
      ASCII part of Python's white space;
    - Python integers are [Z]; the interpreter's cap on the number of digits
      accepted by [int] on a string is not modelled;
    - a file's bytes are represented by what the program observes of them:
      the byte count of a media file, or the JSON document a text file
      holds;
    - the destination path is a directory or absent; the directory is flat:
      a list of named entries in the order [os.listdir] reports them, a new
      entry coming last; an entry has the read and write permission bits
      that [open] checks;
    - the network and the clock are given from outside ([env]); the clock
      is read once per run;
    - the requests to the album service run in a monad of their own
      ([Net]) over the list of requests sent; the regular expressions of
      the album-list normalizer are written out as scanners. *)

From Stdlib Require Import ZArith List String Ascii Bool Lia Permutation Sorted.
Import ListNotations.
Local Open Scope string_scope.
Local Open Scope Z_scope.

(** ** Strings, as Python's [str] methods use them *)

Module PyStr.

Definition code (c : ascii) : Z := Z.of_N (N_of_ascii c).

Definition in_range (lo hi : Z) (c : ascii) : bool :=
  (lo <=? code c) && (code c <=? hi).

Definition is_upper : ascii -> bool := in_range 65 90.
Definition is_digit : ascii -> bool := in_range 48 57.

(** [str.isspace] on ASCII: TAB..CR, FS..US and SPACE. *)
Definition is_space (c : ascii) : bool :=
  in_range 9 13 c || in_range 28 32 c.

Definition lower_char (c : ascii) : ascii :=
  if is_upper c then ascii_of_N (N_of_ascii c + 32) else c.

(** [s.lower()] *)
Fixpoint lower (s : string) : string :=
  match s with
  | EmptyString => EmptyString
  | String c r => String (lower_char c) (lower r)
  end.

(** [s.startswith(p)] *)
Fixpoint startswith (s p : string) : bool :=
  match p, s with
  | EmptyString, _ => true
  | String a p', String b s' => Ascii.eqb a b && startswith s' p'
  | String _ _, EmptyString => false
  end.

(** [sub in s] *)
Fixpoint contains (s sub : string) : bool :=
  startswith s sub ||
  match s with
  | EmptyString => false
  | String _ r => contains r sub
  end.

(** [s.endswith(suf)]: some tail of [s] is [suf]. *)
Fixpoint endswith (s suf : string) : bool :=
  String.eqb s suf ||
  match s with
  | EmptyString => false
  | String _ r => endswith r suf
  end.

Fixpoint has_char (c : ascii) (s : string) : bool :=
  match s with
  | EmptyString => false
  | String a r => Ascii.eqb a c || has_char c r
  end.

(** [s.split(c)[0]] *)
Fixpoint before_char (c : ascii) (s : string) : string :=
  match s with
  | EmptyString => EmptyString
  | String a r => if Ascii.eqb a c then EmptyString else String a (before_char c r)
  end.

(** [os.path.basename(s)]: what follows the last slash. *)
Fixpoint basename (s : string) : string :=
  match s with
  | EmptyString => EmptyString
  | String _ r => if has_char "/" s then basename r else s
  end.

Fixpoint drop (n : nat) (s : string) : string :=
  match n, s with
  | O, _ => s
  | S n', String _ r => drop n' r
  | S _, EmptyString => EmptyString
  end.

Fixpoint lstrip_by (p : ascii -> bool) (s : string) : string :=
  match s with
  | EmptyString => EmptyString
  | String a r => if p a then lstrip_by p r else s
  end.

Fixpoint rstrip_by (p : ascii -> bool) (s : string) : string :=
  match s with
  | EmptyString => EmptyString
  | String a r =>
      match rstrip_by p r with
      | EmptyString => if p a then EmptyString else String a EmptyString
      | r' => String a r'
      end
  end.

Definition strip_by (p : ascii -> bool) (s : string) : string :=
  rstrip_by p (lstrip_by p s).

(** [s.strip()] *)
Definition strip : string -> string := strip_by is_space.

(** The maximal run of digits at the head of [s], and what follows it. *)
Fixpoint span_digits (s : string) : string * string :=
  match s with
  | EmptyString => (EmptyString, EmptyString)
  | String a r =>
      if is_digit a
      then let '(d, rest) := span_digits r in (String a d, rest)
      else (EmptyString, s)
  end.

Definition digit_val (c : ascii) : Z := code c - 48.

(** Digits of a decimal literal, single underscores allowed between digits.
    [seen] tells whether the previous character was a digit. *)
Fixpoint parse_digits (s : string) (acc : Z) (seen : bool) : option Z :=
  match s with
  | EmptyString => if seen then Some acc else None
  | String c r =>
      if is_digit c then parse_digits r (10 * acc + digit_val c) true
      else if Ascii.eqb c "_" then (if seen then parse_digits r acc false else None)
      else None
  end.

(** [int(s)] on a string: [None] stands for [ValueError]. *)
Definition int_of_string (s : string) : option Z :=
  match strip s with
  | String "-" r => option_map Z.opp (parse_digits r 0 false)
  | String "+" r => parse_digits r 0 false
  | t => parse_digits t 0 false
  end.

End PyStr.

(** ** Python values and exceptions *)

Inductive pyfloat : Type :=
| FFinite (num : Z) (den : positive)
| FInf
| FNaN.

#[local] Set Warnings "-register-all".
Inductive pyval : Type :=
| VNone
| VBool (b : bool)
| VInt (z : Z)
| VFloat (f : pyfloat)
| VStr (s : string)
| VList (l : list pyval)
| VDict (d : list (string * pyval)).

Inductive exn : Type :=
| AttributeError
| RequestException
| FileNotFoundError
| IsADirectoryError
| PermissionError
| JSONDecodeError.

Inductive res (A : Type) : Type :=
| Ok (a : A)
| Raise (e : exn).
Arguments Ok {A} a.
Arguments Raise {A} e.

Definition rbind {A B} (r : res A) (f : A -> res B) : res B :=
  match r with
  | Ok a => f a
  | Raise e => Raise e
  end.

Declare Scope res_scope.
Delimit Scope res_scope with res.
Notation "x <- c ;; k" := (rbind c (fun x => k))
  (at level 61, c at next level, right associativity) : res_scope.

(** Truth value of a Python object. *)
Definition truthy (v : pyval) : bool :=
  match v with
  | VNone => false
  | VBool b => b
  | VInt z => negb (z =? 0)
  | VFloat (FFinite n _) => negb (n =? 0)
  | VFloat _ => true
  | VStr s => negb (String.eqb s "")
  | VList l => match l with [] => false | _ => true end
  | VDict d => match d with [] => false | _ => true end
  end.

(** [a or b] *)
Definition py_or (a b : pyval) : pyval := if truthy a then a else b.

(** [d.get(k)] on a dict in insertion order. *)
Fixpoint dict_get (d : list (string * pyval)) (k : string) : pyval :=
  match d with
  | [] => VNone
  | (k', v) :: r => if String.eqb k' k then v else dict_get r k
  end.

(** ** Full-resolution URL selection *)

Definition MIN_LONG_EDGE : Z := 2000.
Definition MIN_FILESIZE_BYTES : Z := 300 * 1024.

Definition THUMB_HINTS : list string :=
  ["thumb"; "thumbnail"; "square"; "poster"; "preview"; "small"; "mini";
   "tile"; "low"; "tiny"].

Definition VIDEO_EXTS : list string := [".mp4"; ".mov"; ".m4v"; ".hevc"].

Definition PREFERRED_ORIGINAL_KEYS : list string :=
  ["resoriginal"; "original"; "resjpegfull"; "fullres"; "master"; "resfull";
   "publicsharegenericlarge"].

(** The candidate dict [{"url", "w", "h", "key", "size"}]. *)
Record candidate : Type := mkCandidate {
  c_url : string;
  c_w : Z;
  c_h : Z;
  c_key : string;
  c_size : Z
}.

(** [any(h in low for h in THUMB_HINTS)] on a string. *)
Definition thumbish (s : string) : bool :=
  existsb (PyStr.contains (PyStr.lower s)) THUMB_HINTS.

(** [_is_thumbish_name]: [(name or "").lower()] raises on a truthy value
    that is not a string. *)
Definition _is_thumbish_name (name : pyval) : res bool :=
  match py_or name (VStr "") with
  | VStr s => Ok (thumbish s)
  | _ => Raise AttributeError
  end.

(** [int(v)] with every exception mapped to [default]. *)
Definition _get_int (v : pyval) : Z :=
  match v with
  | VInt z => z
  | VBool b => if b then 1 else 0
  | VFloat (FFinite n d) => Z.quot n (Zpos d)
  | VStr s => match PyStr.int_of_string s with Some z => z | None => 0 end
  | _ => 0
  end.

(** [DIM_IN_KEY] tried at the head of [s]: digits, [x] or [X], digits. *)
Definition dim_match_here (s : string) : option (string * string) :=
  match PyStr.span_digits s with
  | (String a d1, String x rest) =>
      if Ascii.eqb x "x" || Ascii.eqb x "X" then
        match PyStr.span_digits rest with
        | (String b d2, _) => Some (String a d1, String b d2)
        | _ => None
        end
      else None
  | _ => None
  end.

(** [DIM_IN_KEY.search(s)]: the leftmost position where it matches. *)
Fixpoint dim_search (s : string) : option (string * string) :=
  match dim_match_here s with
  | Some m => Some m
  | None => match s with
            | EmptyString => None
            | String _ r => dim_search r
            end
  end.

Definition _dimensions_from_key (key : string) : Z * Z :=
  match dim_search key with
  | Some (g1, g2) => (_get_int (VStr g1), _get_int (VStr g2))
  | None => (0, 0)
  end.

Definition is_video (url : string) : bool :=
  existsb (PyStr.endswith (PyStr.lower url)) VIDEO_EXTS.

Definition _meets_fullsize_floor (c : candidate) : bool :=
  let long_edge := Z.max (c_w c) (c_h c) in
  let size := c_size c in
  if is_video (c_url c) then (size =? 0) || (MIN_FILESIZE_BYTES <=? size)
  else if long_edge <? MIN_LONG_EDGE then false
  else if negb (size =? 0) && (size <? MIN_FILESIZE_BYTES) then false
  else true.

(** The sort key of step 2 and Python's order on pairs. *)
Definition rank (c : candidate) : Z * Z := (c_w c * c_h c, c_size c).

Definition rank_ltb (a b : Z * Z) : bool :=
  (fst a <? fst b) || ((fst a =? fst b) && (snd a <? snd b)).

(** The same order as a proposition, reflexive. *)
Definition rank_le (a b : Z * Z) : Prop :=
  fst a < fst b \/ (fst a = fst b /\ snd a <= snd b).

(** [max(l, key=rank)] continued from a current best: a later element
    replaces it only when strictly greater. *)
Fixpoint max_from (best : candidate) (l : list candidate) : candidate :=
  match l with
  | [] => best
  | c :: r => max_from (if rank_ltb (rank best) (rank c) then c else best) r
  end.

Definition pref_match (pref : string) (c : candidate) : bool :=
  negb (String.eqb (c_key c) "") &&
  String.eqb (PyStr.lower (c_key c)) pref &&
  _meets_fullsize_floor c.

(** Step 1: the outer loop over preference names, the inner one over the
    candidates in catalog order. *)
Fixpoint first_preferred (prefs : list string) (cands : list candidate)
  : option candidate :=
  match prefs with
  | [] => None
  | p :: ps =>
      match find (pref_match p) cands with
      | Some c => Some c
      | None => first_preferred ps cands
      end
  end.

Section Selector.

(** [str(v)] as used by the f-string of [_full_url] on a location that is
    not a string. *)
Variable str_of : pyval -> string.

Definition format_value (v : pyval) : string :=
  match v with
  | VStr s => s
  | _ => str_of v
  end.

Definition _full_url (location : pyval) (path : pyval) : res string :=
  match path with
  | VStr p =>
      if PyStr.startswith p "http://" || PyStr.startswith p "https://" then Ok p
      else if truthy location then
        let p' := if negb (PyStr.startswith p "/") then "/" ++ p else p in
        Ok ("https://" ++ format_value location ++ p')
      else Ok p
  | _ => Raise AttributeError
  end.

(** The four thumbnail tests of [_candidate_from_derivative], joined by
    Python's short-circuit [or]. *)
Definition thumb_signals (k : string) (fname dtype : pyval) (url_full : string)
  : res bool :=
  (t1 <- _is_thumbish_name (VStr k) ;;
   if t1 then Ok true else
   t2 <- _is_thumbish_name fname ;;
   if t2 then Ok true else
   t3 <- _is_thumbish_name dtype ;;
   if t3 then Ok true else
   _is_thumbish_name (VStr url_full))%res.

(** The fields [_candidate_from_derivative] reads, each under its two
    spellings. *)
Definition derivative_url (v : list (string * pyval)) : pyval :=
  py_or (dict_get v "url") (dict_get v "URL").

Definition derivative_fname (v : list (string * pyval)) : pyval :=
  py_or (py_or (dict_get v "fileName") (dict_get v "filename")) (VStr "").

Definition derivative_dtype (v : list (string * pyval)) : pyval :=
  py_or (py_or (dict_get v "derivativeType") (dict_get v "type")) (VStr "").

Definition _candidate_from_derivative
    (k : string) (v : list (string * pyval)) (location : pyval)
  : res (option candidate) :=
  let url := derivative_url v in
  if negb (truthy url) then Ok None else
  (url_full <- _full_url location url ;;
   let fname := derivative_fname v in
   let dtype := derivative_dtype v in
   hit <- thumb_signals k fname dtype url_full ;;
   if hit then Ok None else
   let w := _get_int (py_or (dict_get v "width") (dict_get v "W")) in
   let h := _get_int (py_or (dict_get v "height") (dict_get v "H")) in
   let '(w, h) :=
     if negb (negb (w =? 0) && negb (h =? 0)) then
       let '(k_w, k_h) := _dimensions_from_key k in
       if negb (k_w =? 0) && negb (k_h =? 0) then (k_w, k_h) else (w, h)
     else (w, h) in
   let size := _get_int (py_or (dict_get v "fileSize") (dict_get v "size")) in
   Ok (Some (mkCandidate url_full w h k size)))%res.

(** The loop over [derivatives.items()]; values that are not dicts are
    skipped. *)
Fixpoint collect_candidates (location : pyval) (d : list (string * pyval))
  : res (list candidate) :=
  match d with
  | [] => Ok []
  | (k, VDict v) :: r =>
      (cand <- _candidate_from_derivative k v location ;;
       rest <- collect_candidates location r ;;
       Ok (match cand with Some c => c :: rest | None => rest end))%res
  | _ :: r => collect_candidates location r
  end.

(** [asset.get("derivatives") or {}], when it is a dict. *)
Definition asset_derivatives (a : list (string * pyval)) : list (string * pyval) :=
  match py_or (dict_get a "derivatives") (VDict []) with
  | VDict d => d
  | _ => []
  end.

(** The candidate list built at the top of
    [pick_best_download_url_from_asset]. *)
Definition asset_candidates (a : list (string * pyval)) : res (list candidate) :=
  collect_candidates (dict_get a "url_location") (asset_derivatives a).

(** A derivative carries a thumbnail hint: in its key, its file name, its
    declared type or its resolved URL. *)
Definition hinted (location : pyval) (k : string) (v : list (string * pyval))
  : Prop :=
  thumbish k = true \/
  (exists s, derivative_fname v = VStr s /\ thumbish s = true) \/
  (exists s, derivative_dtype v = VStr s /\ thumbish s = true) \/
  (exists u, _full_url location (derivative_url v) = Ok u /\ thumbish u = true).

(** Step 3, the asset's own path. *)
Definition fallback_url (a : list (string * pyval)) : res (option string) :=
  let location := dict_get a "url_location" in
  let path := dict_get a "url_path" in
  if truthy path then
    (t <- _is_thumbish_name path ;;
     if negb t then (u <- _full_url location path ;; Ok (Some u))
     else Ok None)%res
  else Ok None.

(** Where a URL returned for an asset can come from: a candidate that meets
    the floor, built from a derivative free of hints; or step 3, when no
    candidate meets the floor. *)
Inductive origin (a : list (string * pyval)) (u : string) : Prop :=
| FromDerivative (k : string) (v : list (string * pyval)) (c : candidate)
    (Hin : In (k, VDict v) (asset_derivatives a))
    (Hclean : ~ hinted (dict_get a "url_location") k v)
    (Hcand : _candidate_from_derivative k v (dict_get a "url_location")
             = Ok (Some c))
    (Hfloor : _meets_fullsize_floor c = true)
    (Hurl : u = c_url c)
| FromFallback
    (Hnone : forall cands c, asset_candidates a = Ok cands ->
                             In c cands -> _meets_fullsize_floor c = false)
    (Hpath : fallback_url a = Ok (Some u)).

Definition pick_best_download_url_from_asset (asset : pyval) : res (option string) :=
  match asset with
  | VDict a =>
      (candidates <- asset_candidates a ;;
       match first_preferred PREFERRED_ORIGINAL_KEYS candidates with
       | Some c => Ok (Some (c_url c))
       | None =>
           match filter _meets_fullsize_floor candidates with
           | c0 :: rest => Ok (Some (c_url (max_from c0 rest)))
           | [] => fallback_url a
           end
       end)%res
  | _ => Raise AttributeError
  end.

End Selector.

(** ** The destination directory, the network and the log *)

(** What an entry of the destination directory is: a regular file, a
    sub-directory, or a symbolic link to a directory (not a file for
    [os.path.isfile], yet removable by [os.remove]). *)
Inductive kind : Type := Regular | Directory | DirLink.

Inductive content : Type :=
| Binary (nbytes : Z)
| JsonText (doc : pyval).

Record entry : Type := mkEntry {
  e_kind : kind;
  e_mtime : Z;
  e_readable : bool;
  e_writable : bool;
  e_content : content
}.

Definition listing : Type := list (string * entry).

Inductive level : Type := DEBUG | INFO | WARNING | ERROR.

Inductive logarg : Type :=
| AInt (z : Z)
| AStr (s : string)
| AExn (e : exn).

Inductive event : Type :=
| Head (url : string)
| Get (url : string)
| Log (lvl : level) (fmt : string) (args : list logarg).

(** [dest] is the destination directory ([None] while it does not exist);
    [trace] records, oldest first, the requests issued and the log lines. *)
Record world : Type := mkWorld {
  dest : option listing;
  trace : list event
}.

(** A response, as far as the program reads it: status, the two headers,
    and the body as the lengths of the chunks [iter_content] yields;
    [r_intact = false] when the stream breaks after the last chunk. *)
Record response : Type := mkResponse {
  r_ok : bool;
  r_content_length : option string;
  r_content_disposition : option string;
  r_chunks : list N;
  r_intact : bool
}.

(** The outside of one run: what a HEAD and a GET on a URL come back with
    ([None]: the call raises [RequestException]), the clock in seconds and
    [datetime.utcnow().isoformat()]. *)
Record env : Type := mkEnv {
  head_of : string -> option response;
  get_of : string -> option response;
  now : Z;
  utcnow_iso : string
}.

(** *** State and exceptions *)

Definition M (A : Type) : Type := world -> res A * world.

Definition ret {A} (a : A) : M A := fun w => (Ok a, w).

Definition raise {A} (e : exn) : M A := fun w => (Raise e, w).

Definition bind {A B} (m : M A) (f : A -> M B) : M B :=
  fun w => match m w with
           | (Ok a, w') => f a w'
           | (Raise e, w') => (Raise e, w')
           end.

(** [try: m  except <class>: h]; [catches] is the class. *)
Definition try_except {A} (m : M A) (catches : exn -> bool) (h : exn -> M A) : M A :=
  fun w => match m w with
           | (Ok a, w') => (Ok a, w')
           | (Raise e, w') => if catches e then h e w' else (Raise e, w')
           end.

Definition lift {A} (r : res A) : M A := fun w => (r, w).

Declare Scope M_scope.
Delimit Scope M_scope with M.
Notation "x <- c ;; k" := (bind c (fun x => k))
  (at level 61, c at next level, right associativity) : M_scope.
Notation "c ;;; k" := (bind c (fun _ => k))
  (at level 61, right associativity) : M_scope.

Definition is_FileNotFoundError (e : exn) : bool :=
  match e with FileNotFoundError => true | _ => false end.
Definition is_RequestException (e : exn) : bool :=
  match e with RequestException => true | _ => false end.
Definition is_Exception (_ : exn) : bool := true.

Definition emit (ev : event) : M unit :=
  fun w => (Ok tt, mkWorld (dest w) (trace w ++ [ev])%list).

Definition logging (lvl : level) (fmt : string) (args : list logarg) : M unit :=
  emit (Log lvl fmt args).

(** *** File-system calls on the destination directory *)

Fixpoint lookup (name : string) (d : listing) : option entry :=
  match d with
  | [] => None
  | (n, e) :: r => if String.eqb n name then Some e else lookup name r
  end.

Definition delete (name : string) (d : listing) : listing :=
  filter (fun ne => negb (String.eqb (fst ne) name)) d.

(** Joined to the directory, these names denote the directory itself or its
    parent. *)
Definition names_directory (name : string) : bool :=
  String.eqb name "" || String.eqb name "." || String.eqb name "..".

Definition with_dest {A} (f : listing -> M A) : M A :=
  fun w => match dest w with
           | Some d => f d w
           | None => (Raise FileNotFoundError, w)
           end.

Definition set_dest (d : listing) : M unit :=
  fun w => (Ok tt, mkWorld (Some d) (trace w)).

(** [os.makedirs(dest_dir, exist_ok=True)] *)
Definition os_makedirs : M unit :=
  fun w => match dest w with
           | Some _ => (Ok tt, w)
           | None => (Ok tt, mkWorld (Some []) (trace w))
           end.

(** [os.listdir(dest_dir)] *)
Definition os_listdir : M (list string) :=
  with_dest (fun d => ret (map fst d)).

(** [os.path.getmtime] *)
Definition os_path_getmtime (name : string) : M Z :=
  with_dest (fun d =>
    if names_directory name then ret 0
    else match lookup name d with
         | Some e => ret (e_mtime e)
         | None => raise FileNotFoundError
         end).

(** [os.path.exists] and [os.path.isfile] never raise. *)
Definition os_path_exists (name : string) : M bool :=
  fun w => match dest w with
           | Some d => (Ok (names_directory name ||
                            match lookup name d with Some _ => true | None => false end), w)
           | None => (Ok false, w)
           end.

Definition is_regular (e : entry) : bool :=
  match e_kind e with Regular => true | _ => false end.

Definition is_directory (e : entry) : bool :=
  match e_kind e with Directory => true | _ => false end.

Definition os_path_isfile (name : string) : M bool :=
  fun w => match dest w with
           | Some d => (Ok (negb (names_directory name) &&
                            match lookup name d with
                            | Some e => is_regular e
                            | None => false
                            end), w)
           | None => (Ok false, w)
           end.

(** [os.remove]: unlinks anything but a directory. *)
Definition os_remove (name : string) : M unit :=
  with_dest (fun d =>
    if names_directory name then raise IsADirectoryError
    else match lookup name d with
         | None => raise FileNotFoundError
         | Some e => if is_directory e then raise IsADirectoryError
                     else set_dest (delete name d)
         end).

(** [open(path, 'w')], the writes and the close, as one step: the file is
    created, or truncated if it is a writable regular file. *)
Definition write_file (name : string) (c : content) (t : Z) : M unit :=
  with_dest (fun d =>
    if names_directory name then raise IsADirectoryError
    else match lookup name d with
         | None => set_dest (d ++ [(name, mkEntry Regular t true true c)])%list
         | Some e =>
             match e_kind e with
             | Regular =>
                 if e_writable e
                 then set_dest (map (fun ne =>
                        if String.eqb (fst ne) name
                        then (name, mkEntry Regular t (e_readable e) true c)
                        else ne) d)
                 else raise PermissionError
             | _ => raise IsADirectoryError
             end
         end).

(** [open(path, 'r')] and reading it all. *)
Definition read_file (name : string) : M content :=
  with_dest (fun d =>
    if names_directory name then raise IsADirectoryError
    else match lookup name d with
         | None => raise FileNotFoundError
         | Some e =>
             match e_kind e with
             | Regular => if e_readable e then ret (e_content e)
                          else raise PermissionError
             | _ => raise IsADirectoryError
             end
         end).

(** [os.replace(src, dst)] for a source that is not a directory: the
    source entry takes the destination's name, over anything there but a
    directory. *)
Definition os_replace (src dst : string) : M unit :=
  with_dest (fun d =>
    match lookup src d with
    | None => raise FileNotFoundError
    | Some e =>
        if names_directory dst then raise IsADirectoryError
        else match lookup dst d with
             | Some (mkEntry Directory _ _ _ _) => raise IsADirectoryError
             | _ => set_dest (delete src (delete dst d) ++ [(dst, e)])%list
             end
    end).

(** ** Download *)

(** [re.search(r'filename\*?=([^;]+)', cd)] tried at the head of [s]:
    group 1 when it matches there. *)
Definition cd_match_here (s : string) : option string :=
  if PyStr.startswith s "filename" then
    let r := PyStr.drop 8 s in
    let value :=
      if PyStr.startswith r "*=" then Some (PyStr.drop 2 r)
      else if PyStr.startswith r "=" then Some (PyStr.drop 1 r)
      else None in
    match value with
    | Some t => match PyStr.before_char ";" t with
                | EmptyString => None
                | g => Some g
                end
    | None => None
    end
  else None.

Fixpoint cd_search (s : string) : option string :=
  match cd_match_here s with
  | Some g => Some g
  | None => match s with
            | EmptyString => None
            | String _ r => cd_search r
            end
  end.

Definition is_dquote (c : ascii) : bool := Ascii.eqb c "034"%char.

(** The name the URL gives: [os.path.basename(url.split('?')[0])]. *)
Definition url_basename (url : string) : string :=
  PyStr.basename (PyStr.before_char "?" url).

(** The name [download_file] saves under. *)
Definition target_filename (cd url : string) : string :=
  match cd_search cd with
  | Some g => PyStr.basename (PyStr.strip_by is_dquote (PyStr.strip g))
  | None => url_basename url
  end.

Definition header (h : option string) (default : string) : string :=
  match h with Some s => s | None => default end.

Definition _content_length (resp : response) : Z :=
  match PyStr.int_of_string (header (r_content_length resp) "0") with
  | Some z => z
  | None => 0
  end.

(** [f.write(chunk)] on the open temporary file. *)
Definition append_bytes (name : string) (n : Z) : M unit :=
  with_dest (fun d =>
    set_dest (map (fun ne =>
      if String.eqb (fst ne) name then
        match e_content (snd ne) with
        | Binary k => (fst ne, mkEntry (e_kind (snd ne)) (e_mtime (snd ne))
                                 (e_readable (snd ne)) (e_writable (snd ne))
                                 (Binary (k + n)))
        | JsonText _ => ne
        end
      else ne) d)).

(** The loop over [resp.iter_content(8192)]. *)
Fixpoint stream_chunks (tmp_path : string) (chunks : list N) (total_bytes : Z) : M Z :=
  match chunks with
  | [] => ret total_bytes
  | chunk :: r =>
      if (0 <? chunk)%N then
        (append_bytes tmp_path (Z.of_N chunk) ;;;
         stream_chunks tmp_path r (total_bytes + Z.of_N chunk))%M
      else stream_chunks tmp_path r total_bytes
  end.

Definition json_load (c : content) : M pyval :=
  match c with
  | JsonText v => ret v
  | Binary _ => raise JSONDecodeError
  end.

Definition ledger_entry (filename stamp url : string) : pyval :=
  VDict [("filename", VStr filename);
         ("downloaded_at", VStr (stamp ++ "Z"));
         ("url", VStr url)].

(** The body of the [try] that updates the index file. *)
Definition update_index (E : env) (index_filename filename url : string) : M unit :=
  (present <- os_path_exists index_filename ;;
   idx <- (if present
           then c <- read_file index_filename ;; json_load c
           else ret (VList [])) ;;
   idx' <- match idx with
           | VList l => ret (VList (ledger_entry filename (utcnow_iso E) url :: l))
           | _ => raise AttributeError
           end ;;
   write_file index_filename (JsonText idx') (now E) ;;;
   logging DEBUG "Updated %s with %s" [AStr index_filename; AStr filename])%M.

(** The HEAD probe; [false] is the early [return False]. *)
Definition preflight (E : env) (url : string) : M bool :=
  try_except
    (emit (Head url) ;;;
     match head_of E url with
     | None => raise RequestException
     | Some head =>
         if r_ok head then
           let cl := _content_length head in
           if negb (cl =? 0) && (cl <? MIN_FILESIZE_BYTES) then
             logging WARNING "Rejecting likely thumbnail (too small: %d bytes): %s"
                     [AInt cl; AStr url] ;;;
             ret false
           else ret true
         else ret true
     end)%M
    is_RequestException (fun _ => ret true).

Definition is_truthy_name (n : option string) : option string :=
  match n with
  | Some EmptyString => None
  | other => other
  end.

(** The [with open(tmp_path, 'wb')] block: the chunks go to the temporary
    file; a stream that breaks raises once they are written. *)
Definition fetch_body (E : env) (tmp_path : string) (resp : response) : M Z :=
  (write_file tmp_path (Binary 0) (now E) ;;;
   total_bytes <- stream_chunks tmp_path (r_chunks resp) 0 ;;
   (if r_intact resp then ret tt else raise RequestException) ;;;
   ret total_bytes)%M.

(** The [if index_filename:] block: the update and its [except Exception]. *)
Definition record_download (E : env) (index_filename : option string)
    (filename url : string) : M unit :=
  match is_truthy_name index_filename with
  | Some index =>
      try_except (update_index E index filename url) is_Exception
        (fun e => logging WARNING "Failed to update %s: %s" [AStr index; AExn e])
  | None => ret tt
  end.

(** The name a response is saved under. *)
Definition saved_name (resp : response) (url : string) : string :=
  target_filename (header (r_content_disposition resp) "") url.

(** From [requests.get] to the end of the [try] block. *)
Definition transfer (E : env) (url : string) (index_filename : option string)
  : M bool :=
  (emit (Get url) ;;;
   match get_of E url with
   | None => raise RequestException
   | Some resp =>
       if negb (r_ok resp) then raise RequestException else
       let filename := saved_name resp url in
       let tmp_path := filename ++ ".part" in
       total_bytes <- fetch_body E tmp_path resp ;;
       if total_bytes <? MIN_FILESIZE_BYTES then
         try_except (os_remove tmp_path) is_FileNotFoundError (fun _ => ret tt) ;;;
         logging WARNING "Rejecting likely thumbnail after download (size=%d): %s"
                 [AInt total_bytes; AStr url] ;;;
         ret false
       else
         os_replace tmp_path filename ;;;
         logging INFO "Downloaded: %s (%d bytes)" [AStr filename; AInt total_bytes] ;;;
         record_download E index_filename filename url ;;;
         ret true
   end)%M.

(** The [try] block of [download_file]. *)
Definition download_attempt (E : env) (url : string) (index_filename : option string)
  : M bool :=
  (os_makedirs ;;;
   go <- preflight E url ;;
   if negb go then ret false else transfer E url index_filename)%M.

Definition download_file (E : env) (url : string) (index_filename : option string)
  : M bool :=
  try_except (download_attempt E url index_filename)
    is_RequestException
    (fun e => logging ERROR "Failed to download %s: %s" [AStr url; AExn e] ;;;
              ret false)%M.

(** ** Retention and mirroring *)

Fixpoint mapM {A B} (f : A -> M B) (l : list A) : M (list B) :=
  match l with
  | [] => ret []
  | a :: r => (b <- f a ;; bs <- mapM f r ;; ret (b :: bs))%M
  end.

Fixpoint forM_ {A} (l : list A) (f : A -> M unit) : M unit :=
  match l with
  | [] => ret tt
  | a :: r => (f a ;;; forM_ r f)%M
  end.

(** [[(f, getmtime(f)) for f in os.listdir(dest_dir)]] *)
Definition stat_all : M (list (string * Z)) :=
  (names <- os_listdir ;;
   mapM (fun f => t <- os_path_getmtime f ;; ret (f, t)) names)%M.

(** [files.sort(key=lambda x: x[1], reverse=True)]: stable, newest first. *)
Fixpoint insert_desc (x : string * Z) (l : list (string * Z)) : list (string * Z) :=
  match l with
  | [] => [x]
  | y :: r => if snd x <? snd y then y :: insert_desc x r else x :: l
  end.

Fixpoint sort_desc (l : list (string * Z)) : list (string * Z) :=
  match l with
  | [] => []
  | x :: r => insert_desc x (sort_desc r)
  end.

Definition SECONDS_PER_DAY : Z := 86400.

Definition prune_files (E : env) (keep_days max_files : Z) : M unit :=
  (listed <- try_except (fs <- stat_all ;; ret (Some fs))
                        is_FileNotFoundError (fun _ => ret None) ;;
   match listed with
   | None => ret tt
   | Some files =>
       let files := sort_desc files in
       (if 0 <? keep_days then
          let cutoff := now E - keep_days * SECONDS_PER_DAY in
          forM_ files (fun fm =>
            if snd fm <? cutoff then
              os_remove (fst fm) ;;;
              logging INFO "Pruned by age: %s" [AStr (fst fm)]
            else ret tt)
        else ret tt) ;;;
       relisted <- try_except (fs <- stat_all ;; ret (Some fs))
                              is_FileNotFoundError (fun _ => ret None) ;;
       match relisted with
       | None => ret tt
       | Some files =>
           let files := sort_desc files in
           if (0 <? max_files) && (max_files <? Z.of_nat (List.length files)) then
             forM_ (skipn (Z.to_nat max_files) files) (fun fm =>
               os_remove (fst fm) ;;;
               logging INFO "Pruned by count: %s" [AStr (fst fm)])
           else ret tt
       end
   end)%M.

Definition mem (f : string) (names : list string) : bool :=
  existsb (String.eqb f) names.

(** [existing - set(current_filenames)], walked in listing order. *)
Definition mirror_missing_files (current_filenames : list string) : M unit :=
  (listed <- try_except (names <- os_listdir ;; ret (Some names))
                        is_FileNotFoundError (fun _ => ret None) ;;
   match listed with
   | None => ret tt
   | Some existing =>
       let to_delete := filter (fun f => negb (mem f current_filenames)) existing in
       forM_ to_delete (fun f =>
         try_except
           (os_remove f ;;; logging INFO "Mirrored deletion: %s" [AStr f])
           is_Exception
           (fun e => logging WARNING "Failed to delete %s: %s" [AStr f; AExn e]))
   end)%M.

(** ** One album *)

(** What the album service answers to [fetch_album_media]: a request that
    raises, a stream without photos, or the [items] of the asset listing. *)
Inductive catalog : Type :=
| CatalogRaises
| CatalogNoPhotos
| CatalogItems (items : list (string * pyval)).

(** The album entry and the run parameters, defaults already applied. *)
Record config : Type := mkConfig {
  shared_url : option string;
  dest_mode : string;
  media_subfolder : option string;
  album_subfolder : option string;
  index_filename : option string;
  keep_days : Z;
  max_files : Z;
  mirror_missing : bool
}.

(** [os.path.join(a, b)] *)
Definition path_join (a b : string) : string :=
  if PyStr.startswith b "/" then b
  else if String.eqb a "" || PyStr.endswith a "/" then a ++ b
  else a ++ "/" ++ b.

Definition resolve_dest_dir (dest_mode : string)
    (media_subfolder album_subfolder : option string) : string :=
  let base :=
    if String.eqb dest_mode "media" then "/media"
    else if String.eqb dest_mode "share" then "/share"
    else if String.eqb dest_mode "config_www" then "/config/www"
    else "/media" in
  let parts := [base] in
  let parts := match is_truthy_name media_subfolder with
               | Some m => (parts ++ [m])%list
               | None => parts
               end in
  let parts := match is_truthy_name album_subfolder with
               | Some a => (parts ++ [a])%list
               | None => parts
               end in
  match parts with
  | [] => ""
  | p :: ps => fold_left path_join ps p
  end.

Section Album.

Variable str_of : pyval -> string.

(** The loop over [items.items()]. *)
Fixpoint select_media (items : list (string * pyval)) : M (list string) :=
  match items with
  | [] => ret []
  | (guid, asset) :: r =>
      (url <- lift (pick_best_download_url_from_asset str_of asset) ;;
       match url with
       | Some (String a u) =>
           logging DEBUG "Selected media for %s: %s" [AStr guid; AStr (String a u)] ;;;
           rest <- select_media r ;;
           ret (String a u :: rest)
       | _ =>
           logging WARNING "Skipping asset %s: no full-size candidate met the floor."
                   [AStr guid] ;;;
           select_media r
       end)%M
  end.

Definition fetch_album_media (shared_url : string) (C : catalog) : M (list string) :=
  try_except
    (if negb (PyStr.has_char "#" shared_url) then
       logging ERROR "Shared URL missing album ID fragment (#...)." [] ;;;
       ret []
     else
       match C with
       | CatalogRaises => raise RequestException
       | CatalogNoPhotos =>
           logging INFO "No photos listed in stream." [] ;;;
           ret []
       | CatalogItems items =>
           media_urls <- select_media items ;;
           match media_urls with
           | [] => logging WARNING
                     "No valid media URLs found (all failed full-size checks)." []
           | _ => ret tt
           end ;;;
           ret media_urls
       end)%M
    is_RequestException
    (fun e => logging ERROR "Error fetching album media: %s" [AExn e] ;;; ret [])%M.

(** The download loop of [sync_album]: the names it collects. *)
Fixpoint download_all (E : env) (index : option string) (media_urls : list string)
  : M (list string) :=
  match media_urls with
  | [] => ret []
  | url :: r =>
      (ok <- download_file E url index ;;
       rest <- download_all E index r ;;
       ret (if ok then url_basename url :: rest else rest))%M
  end.

(** [[f for f in os.listdir(dest_dir) if os.path.isfile(f)]] *)
Fixpoint keep_files (names : list string) : M (list string) :=
  match names with
  | [] => ret []
  | f :: r =>
      (b <- os_path_isfile f ;;
       rest <- keep_files r ;;
       ret (if b then f :: rest else rest))%M
  end.

Definition current_on_disk : M (list string) :=
  try_except (names <- os_listdir ;; keep_files names)%M
             is_FileNotFoundError (fun _ => ret []).

(** [sync_album] from the download loop on, once the media list is known
    not to be empty. *)
Definition sync_media (E : env) (cfg : config) (media_urls : list string) : M unit :=
  (downloaded_filenames <- download_all E (index_filename cfg) media_urls ;;
   prune_files E (keep_days cfg) (max_files cfg) ;;;
   if mirror_missing cfg then
     on_disk <- current_on_disk ;;
     mirror_missing_files
       (match downloaded_filenames with
        | [] => on_disk
        | _ => downloaded_filenames
        end)
   else ret tt)%M.

Definition sync_album (E : env) (cfg : config) (C : catalog) : M unit :=
  match is_truthy_name (shared_url cfg), is_truthy_name (album_subfolder cfg) with
  | Some url, Some sub =>
      (let dest_dir := resolve_dest_dir (dest_mode cfg) (media_subfolder cfg) (Some sub) in
       os_makedirs ;;;
       logging INFO "Syncing to %s" [AStr dest_dir] ;;;
       media_urls <- fetch_album_media url C ;;
       match media_urls with
       | [] => logging WARNING "No media found to download." []
       | _ => sync_media E cfg media_urls
       end)%M
  | _, _ =>
      logging ERROR "Album missing required keys: shared_url or album_subfolder" []
  end.

End Album.


(** ** Vocabulary for the statements *)

(** A listing as [os.listdir] can report it: names are distinct and none
    of them is the empty name or a dot name. *)
Definition wf_listing (d : listing) : Prop :=
  NoDup (map fst d) /\ forall n e, In (n, e) d -> names_directory n = false.

(** The pairs [(name, mtime)] of a listing. *)
Definition stamps (d : listing) : list (string * Z) :=
  map (fun ne => (fst ne, e_mtime (snd ne))) d.

(** The order [sort_desc] establishes: newest first. *)
Definition newer_first (a b : string * Z) : Prop := snd b <= snd a.

(** The entry found under a name in a world. *)
Definition entry_at (w : world) (name : string) : option entry :=
  match dest w with
  | Some d => lookup name d
  | None => None
  end.

(** The destination directory of a world, if there, is a proper listing. *)
Definition world_wf (w : world) : Prop :=
  match dest w with
  | Some d => wf_listing d
  | None => True
  end.

(** [m] relates every world it starts from to the one it ends in. *)
Definition respects {A} (R : world -> world -> Prop) (m : M A) : Prop :=
  forall w, R w (snd (m w)).

(** Three such relations: the entry under [n] is left as found, the trace
    only grows, the listing stays proper. *)
Definition stays (n : string) (w w' : world) : Prop :=
  entry_at w' n = entry_at w n.

Definition extends (w w' : world) : Prop :=
  exists evs, trace w' = (trace w ++ evs)%list.

Definition keeps_wf (w w' : world) : Prop := world_wf w -> world_wf w'.

(** A temporary name is free for [open(tmp_path, 'wb')]: nothing is there,
    or a writable regular file. *)
Definition usable_slot (w : world) (name : string) : Prop :=
  match entry_at w name with
  | None => True
  | Some e => e_kind e = Regular /\ e_writable e = true
  end.

(** The HEAD probe makes [download_file] return early. *)
Definition probe_rejects (E : env) (url : string) : bool :=
  match head_of E url with
  | Some head =>
      r_ok head && negb (_content_length head =? 0) &&
      (_content_length head <? MIN_FILESIZE_BYTES)
  | None => false
  end.

(** The events of the probe. *)
Definition probe_events (E : env) (url : string) : list event :=
  Head url ::
  (if probe_rejects E url then
     [Log WARNING "Rejecting likely thumbnail (too small: %d bytes): %s"
          [AInt (match head_of E url with
                 | Some head => _content_length head
                 | None => 0
                 end); AStr url]]
   else []).

(** A regular file of [n] bytes sits under the name. *)
Definition holds_bytes (w : world) (name : string) (n : Z) : Prop :=
  exists e, entry_at w name = Some e /\ e_kind e = Regular /\
            e_writable e = true /\ e_content e = Binary n.

(** [os.replace] onto the name can succeed: it is a proper name and no
    directory sits there. *)
Definition promotable (w : world) (name : string) : Prop :=
  names_directory name = false /\
  match entry_at w name with
  | Some e => is_directory e = false
  | None => True
  end.

(** How the index file presents itself to [update_index]: absent; a
    readable and writable regular file holding a JSON array; or anything
    else, on which the update raises. *)
Inductive ledger_view : Type :=
| NoLedger
| Ledger (l : list pyval)
| Broken.

Definition view_ledger (w : world) (index : string) : ledger_view :=
  if names_directory index then Broken else
  match entry_at w index with
  | None => NoLedger
  | Some e =>
      match e_kind e, e_content e with
      | Regular, JsonText (VList l) =>
          if e_readable e && e_writable e then Ledger l else Broken
      | _, _ => Broken
      end
  end.

(** The index file is a regular file holding the JSON array [l]. *)
Definition ledger_holds (w : world) (index : string) (l : list pyval) : Prop :=
  exists e, entry_at w index = Some e /\ e_kind e = Regular /\
            e_content e = JsonText (VList l).

(** The names [os.path.isfile] accepts, in listing order. *)
Definition regular_names (w : world) : list string :=
  match dest w with
  | Some d => map fst (filter (fun ne => is_regular (snd ne)) d)
  | None => []
  end.

(** The URLs of a media list whose download returns [True], replaying the
    loop of [sync_album] from a world. *)
Fixpoint downloaded_urls (E : env) (index : option string)
    (media_urls : list string) (w : world) : list string :=
  match media_urls with
  | [] => []
  | url :: r =>
      match download_file E url index w with
      | (Ok true, w1) => url :: downloaded_urls E index r w1
      | (Ok false, w1) => downloaded_urls E index r w1
      | (Raise _, _) => []
      end
  end.

(** The world [sync_album] hands to [fetch_album_media]. *)
Definition started (cfg : config) (w : world) : world :=
  mkWorld (dest (snd (os_makedirs w)))
    (trace w ++
     [Log INFO "Syncing to %s"
          [AStr (resolve_dest_dir (dest_mode cfg) (media_subfolder cfg)
                                  (is_truthy_name (album_subfolder cfg)))]])%list.

(** Bytes in a response body. *)
Definition body_bytes (resp : response) : Z :=
  fold_right (fun n acc => Z.of_N n + acc) 0 (r_chunks resp).

(** ** Sample catalogs *)

(** A stand-in for [str] on values that are not strings; the samples only
    use string locations. *)
Definition no_str (_ : pyval) : string := "".

(** A thumbnail next to an original. *)
Definition asset_thumb_and_original : list (string * pyval) :=
  [("derivatives",
    VDict [("thumb_300x300",
            VDict [("url", VStr "a"); ("width", VInt 300); ("height", VInt 300)]);
           ("resoriginal",
            VDict [("url", VStr "b"); ("width", VInt 4032); ("height", VInt 3024);
                   ("size", VInt 2000000)])])].

(** An asset whose own path is also the URL of its thumbnail derivative. *)
Definition asset_thumb_shares_path : list (string * pyval) :=
  [("url_location", VStr "media.example.com");
   ("url_path", VStr "/B/photo.jpg");
   ("derivatives",
    VDict [("thumb_300x300",
            VDict [("url", VStr "/B/photo.jpg"); ("width", VInt 300);
                   ("height", VInt 300)])])].

(** An undersized [resoriginal], a full-size [Original] and a much larger
    rendition under a key outside the preference list. *)
Definition asset_preferred_and_larger : list (string * pyval) :=
  [("url_location", VStr "media.example.com");
   ("derivatives",
    VDict [("R8000x6000", VDict [("url", VStr "/B/huge.jpg"); ("size", VInt 9000000)]);
           ("resoriginal",
            VDict [("url", VStr "/B/res.jpg"); ("width", VInt 1024); ("height", VInt 768)]);
           ("Original",
            VDict [("url", VStr "/B/orig.jpg"); ("width", VStr "2048");
                   ("height", VStr "1536"); ("fileSize", VStr "400000")])])].

Definition candidates_preferred_and_larger : list candidate :=
  [mkCandidate "https://media.example.com/B/huge.jpg" 8000 6000 "R8000x6000" 9000000;
   mkCandidate "https://media.example.com/B/res.jpg" 1024 768 "resoriginal" 0;
   mkCandidate "https://media.example.com/B/orig.jpg" 2048 1536 "Original" 400000].

(** Two renditions outside the preference list: 4000x3000 of 1 MB and
    4032x3024 of 500 KB. *)
Definition asset_two_large : list (string * pyval) :=
  [("url_location", VStr "media.example.com");
   ("derivatives",
    VDict [("R4000x3000",
            VDict [("url", VStr "/B/a.jpg"); ("width", VInt 4000); ("height", VInt 3000);
                   ("size", VInt 1048576)]);
           ("R4032x3024",
            VDict [("url", VStr "/B/b.jpg"); ("width", VInt 4032); ("height", VInt 3024);
                   ("size", VInt 512000)])])].

Definition candidates_two_large : list candidate :=
  [mkCandidate "https://media.example.com/B/a.jpg" 4000 3000 "R4000x3000" 1048576;
   mkCandidate "https://media.example.com/B/b.jpg" 4032 3024 "R4032x3024" 512000].

(** ** Sample directories, responses and albums *)

Definition media_file (mtime nbytes : Z) : entry :=
  mkEntry Regular mtime true true (Binary nbytes).

(** Ten files, modified at ten different times. *)
Definition ten_files : listing :=
  [("p01.jpg", media_file 30 400000); ("p02.jpg", media_file 100 400000);
   ("p03.jpg", media_file 20 400000); ("p04.jpg", media_file 90 400000);
   ("p05.jpg", media_file 10 400000); ("p06.jpg", media_file 80 400000);
   ("p07.jpg", media_file 50 400000); ("p08.jpg", media_file 70 400000);
   ("p09.jpg", media_file 40 400000); ("p10.jpg", media_file 60 400000)].

(** A destination with an older photo, an empty index, a sub-directory and
    a symbolic link to a directory. *)
Definition sample_dir : listing :=
  [("old.jpg", media_file 100 500000);
   ("index.json", mkEntry Regular 150 true true (JsonText (VList [])));
   ("sub", mkEntry Directory 50 true true (Binary 0));
   ("latest", mkEntry DirLink 60 true true (Binary 0))].

Definition sample_world : world := mkWorld (Some sample_dir) [].

Definition photo_url : string := "https://media.example.com/B/abc123.jpg?sig=1".
Definition tiny_url : string := "https://media.example.com/B/stub.jpg".
Definition small_url : string := "https://media.example.com/B/icon.jpg".

(** 38 chunks of 8192 bytes, sent with a file name of its own. *)
Definition full_body : response :=
  mkResponse true None (Some "attachment; filename=IMG_0001.JPG")
             (repeat 8192%N 38) true.

Definition tiny_body : response :=
  mkResponse true None None [1000%N; 24%N] true.

Definition head_zero : response := mkResponse true (Some "0") None [] true.
Definition head_small : response := mkResponse true (Some "1024") None [] true.

Definition sample_env : env :=
  mkEnv (fun u => if String.eqb u small_url then Some head_small else Some head_zero)
        (fun u => if String.eqb u photo_url then Some full_body
                  else if String.eqb u tiny_url then Some tiny_body
                  else None)
        1000 "2024-01-01T00:00:00".

Definition sample_cfg : config :=
  mkConfig (Some "https://www.icloud.com/sharedalbum/#B0abcdef") "media"
           (Some "iCloud") (Some "family") (Some "index.json") 0 500 true.

(** A catalog of one photo, and one whose only rendition is undersized on
    the wire. *)
Definition catalog_photo : catalog :=
  CatalogItems
    [("guid-1",
      VDict [("url_location", VStr "media.example.com");
             ("derivatives",
              VDict [("original",
                      VDict [("url", VStr "/B/abc123.jpg?sig=1");
                             ("width", VInt 4032); ("height", VInt 3024)])])])].

Definition catalog_tiny : catalog :=
  CatalogItems
    [("guid-2",
      VDict [("url_location", VStr "media.example.com");
             ("derivatives",
              VDict [("original",
                      VDict [("url", VStr "/B/stub.jpg");
                             ("width", VInt 4032); ("height", VInt 3024)])])])].

(** The same destination with a directory where the index file should be. *)
Definition sample_world_no_index : world :=
  mkWorld (Some [("old.jpg", media_file 100 500000);
                 ("index.json", mkEntry Directory 150 true true (Binary 0))]) [].

(** ** The album list on the command line *)

(** The character classes of [KEY_PATTERN] on ASCII text: [\w], [[A-Za-z_]]
    and [[\w-]]; [\s] is [PyStr.is_space]. *)
Definition is_lower : ascii -> bool := PyStr.in_range 97 122.

Definition is_word (c : ascii) : bool :=
  PyStr.is_upper c || is_lower c || PyStr.is_digit c || Ascii.eqb c "_".

Definition is_key_start (c : ascii) : bool :=
  PyStr.is_upper c || is_lower c || Ascii.eqb c "_".

Definition is_key_char (c : ascii) : bool := is_word c || Ascii.eqb c "-".

(** The longest prefix of [s] whose characters satisfy [p], and the rest. *)
Fixpoint span (p : ascii -> bool) (s : string) : string * string :=
  match s with
  | EmptyString => (EmptyString, EmptyString)
  | String a r =>
      if p a
      then let '(x, rest) := span p r in (String a x, rest)
      else (EmptyString, s)
  end.

(** The look-behind [(?<![\w-])], given the character before the position
    ([None] at the start of the text). *)
Definition boundary (prev : option ascii) : bool :=
  match prev with
  | Some p => negb (is_key_char p)
  | None => true
  end.

(** [KEY_PATTERN] tried at the head of [s]: group 1 and the length of the
    match, colon included. *)
Definition key_match_here (prev : option ascii) (s : string) : option (string * nat) :=
  if boundary prev then
    match s with
    | String c r =>
        if is_key_start c then
          let '(k, after) := span is_key_char r in
          let '(ws, rest) := span PyStr.is_space after in
          match rest with
          | String colon _ =>
              if Ascii.eqb colon ":"
              then Some (String c k, (S (String.length k) + String.length ws + 1)%nat)
              else None
          | EmptyString => None
          end
        else None
    | EmptyString => None
    end
  else None.

(** [KEY_PATTERN.finditer]: the text is walked from position [pos]; after
    a match the walk resumes behind it ([skip] counts the characters of the
    match still to pass). *)
Fixpoint key_spans_from (skip : nat) (prev : option ascii) (pos : nat) (s : string)
  : list (string * nat * nat) :=
  match s with
  | EmptyString => []
  | String c r =>
      match skip with
      | S k => key_spans_from k (Some c) (S pos) r
      | O =>
          match key_match_here prev s with
          | Some (key, len) =>
              (key, pos, (pos + len)%nat)
                :: key_spans_from (len - 1) (Some c) (S pos) r
          | None => key_spans_from 0 (Some c) (S pos) r
          end
      end
  end.

(** The triples [(key, match.start(1), match.end())]. *)
Definition _find_key_spans (s : string) : list (string * nat * nat) :=
  key_spans_from 0 None 0 s.

Definition newline : ascii := "010"%char.

(** [re.search(r'^\s*-\s+', s, re.M)]: the pattern tried at the head of
    [s], and at the start of the text and behind every newline. *)
Definition dash_item_here (s : string) : bool :=
  match PyStr.lstrip_by PyStr.is_space s with
  | String dash (String c _) => Ascii.eqb dash "-" && PyStr.is_space c
  | _ => false
  end.

Fixpoint dash_item_search (line_start : bool) (s : string) : bool :=
  (line_start && dash_item_here s) ||
  match s with
  | EmptyString => false
  | String c r => dash_item_search (Ascii.eqb c newline) r
  end.

Fixpoint take (n : nat) (s : string) : string :=
  match n, s with
  | S n', String a r => String a (take n' r)
  | _, _ => EmptyString
  end.

(** [s[a:b]] for positions counted from the left. *)
Definition slice (a b : nat) (s : string) : string :=
  take (b - a) (PyStr.drop a s).

(** One line of the block form: [- key: value] for the first key,
    [  key: value] for the others, the value left out when empty. *)
Definition item_line (first : bool) (key raw_val : string) : string :=
  (if first then "- " else "  ") ++ key ++
  (if String.eqb raw_val "" then ":" else ": " ++ raw_val).

(** The loop over [enumerate(spans)]. *)
Fixpoint span_lines (body : string) (first : bool) (spans : list (string * nat * nat))
  : list string :=
  match spans with
  | [] => []
  | (key, _, colon_pos) :: rest =>
      let next_start := match rest with
                        | [] => String.length body
                        | (_, start, _) :: _ => start
                        end in
      let raw_val := PyStr.strip (slice colon_pos next_start body) in
      item_line first key raw_val :: span_lines body false rest
  end.

(** [if not s.startswith('- '): s = '- ' + s] *)
Definition as_item (s : string) : string :=
  if negb (PyStr.startswith s "- ") then "- " ++ s else s.

Definition normalize_single_line_yaml (albums_str : string) : string :=
  let s := PyStr.strip albums_str in
  if PyStr.has_char newline s && dash_item_search true s then s
  else
    let s := as_item s in
    let body := PyStr.drop 2 s in
    match _find_key_spans body with
    | [] => s
    | spans => String.concat (String newline "") (span_lines body true spans)
    end.

(** What [main] hands to [yaml.safe_load]. *)
Definition main_albums_str (albums : string) : M string :=
  let albums_str := PyStr.strip albums in
  if negb (PyStr.has_char newline albums_str) then
    (logging INFO "Detected single-line albums input; normalizing to multiline YAML" [] ;;;
     ret (normalize_single_line_yaml albums_str))%M
  else ret albums_str.

(** *** Vocabulary for the key spans *)

(** Every character of [s] satisfies [p]. *)
Fixpoint all_chars (p : ascii -> bool) (s : string) : bool :=
  match s with
  | EmptyString => true
  | String a r => p a && all_chars p r
  end.

(** A key as [KEY_PATTERN] captures it: [[A-Za-z_][\w-]*]. *)
Definition identifier (key : string) : bool :=
  match key with
  | String c k => is_key_start c && all_chars is_key_char k
  | EmptyString => false
  end.

(** The character a position looks back on: the last one of the text
    before it, or [prev] when there is none. *)
Fixpoint last_char (prev : option ascii) (s : string) : option ascii :=
  match s with
  | EmptyString => prev
  | String c r => last_char (Some c) r
  end.

(** Spans follow one another between [lo] and [hi] without overlapping. *)
Fixpoint chained (lo : nat) (spans : list (string * nat * nat)) (hi : nat) : Prop :=
  match spans with
  | [] => (lo <= hi)%nat
  | (_, start, stop) :: r => (lo <= start)%nat /\ (start < stop)%nat /\ chained stop r hi
  end.

(** How often a character occurs in a text. *)
Fixpoint count_char (c : ascii) (s : string) : nat :=
  match s with
  | EmptyString => O
  | String a r => ((if Ascii.eqb a c then 1 else 0) + count_char c r)%nat
  end.

(** The text is not empty and its last character is no white space. *)
Definition clean_end (s : string) : Prop :=
  forall prev, exists c, last_char prev s = Some c /\ PyStr.is_space c = false.

(** A text that [strip] leaves alone: empty, or with no white space at
    either end. *)
Definition trimmed (s : string) : Prop :=
  s = "" \/
  (match s with String a _ => PyStr.is_space a = false | EmptyString => False end
   /\ clean_end s).

(** ** Vocabulary for whole rounds *)

(** The exceptions the file-system calls raise. *)
Definition is_os_error (e : exn) : bool :=
  match e with
  | FileNotFoundError | IsADirectoryError | PermissionError => true
  | _ => false
  end.

Definition os_error (e : exn) : Prop := is_os_error e = true.

(** Whatever [m] raises satisfies [P]. *)
Definition raises_only {A} (P : exn -> Prop) (m : M A) : Prop :=
  forall w e w', m w = (Raise e, w') -> P e.

(** An event that is no request, or a request for one of [urls]. *)
Definition allowed (urls : list string) (ev : event) : Prop :=
  match ev with
  | Head u | Get u => In u urls
  | Log _ _ _ => True
  end.

(** From [w] to [w'] the trace grows by allowed events only. *)
Definition asks_only (urls : list string) (w w' : world) : Prop :=
  exists evs, trace w' = (trace w ++ evs)%list /\ Forall (allowed urls) evs.

(** Every sub-directory of [w] is in [w'] as it was. *)
Definition dirs_stay (w w' : world) : Prop :=
  forall n e, entry_at w n = Some e -> is_directory e = true ->
              entry_at w' n = Some e.

(** [a] comes before [b] in [l]. *)
Definition listed_before {A} (a b : A) (l : list A) : Prop :=
  exists l1 l2 l3, l = (l1 ++ a :: l2 ++ b :: l3)%list.

(** The number a text of decimal digits denotes. *)
Fixpoint digits_from (acc : Z) (s : string) : Z :=
  match s with
  | EmptyString => acc
  | String c r => digits_from (10 * acc + PyStr.digit_val c) r
  end.

Definition digits_value (s : string) : Z := digits_from 0 s.

(** The double quote. *)
Definition dquote : string := String "034"%char EmptyString.

(** ** The catalog requests *)

(** The three POST requests by which [fetch_album_media] obtains the
    catalog that [fetch_album_media] above takes as given. *)

(** [s.split(c)[-1]]: what follows the last [c], or all of [s]. *)
Fixpoint after_last (c : ascii) (s : string) : string :=
  match s with
  | EmptyString => EmptyString
  | String a r =>
      if PyStr.has_char c r then after_last c r
      else if Ascii.eqb a c then r
      else s
  end.

(** A request: the URL and the JSON payload. *)
Record post : Type := mkPost {
  p_url : string;
  p_json : pyval
}.

(** What comes of a request, through [requests.post], [raise_for_status]
    and [r.json()]: no response, an error status, a body that is not JSON,
    or a JSON document. *)
Inductive reply : Type :=
| NoReply
| ErrorStatus
| NotJson
| Document (doc : pyval).

(** The exceptions of this stage: those of [exn], and [TypeError]. *)
Inductive failure : Type :=
| Builtin (e : exn)
| TypeError.

(** State (the requests sent, oldest first) and exceptions. *)
Definition Net (A : Type) : Type := list post -> (A + failure) * list post.

Definition net_ret {A} (a : A) : Net A := fun sent => (inl a, sent).

Definition net_raise {A} (f : failure) : Net A := fun sent => (inr f, sent).

Definition net_bind {A B} (m : Net A) (k : A -> Net B) : Net B :=
  fun sent => match m sent with
              | (inl a, sent') => k a sent'
              | (inr f, sent') => (inr f, sent')
              end.

Declare Scope net_scope.
Delimit Scope net_scope with net.
Notation "x <- c ;; k" := (net_bind c (fun x => k))
  (at level 61, c at next level, right associativity) : net_scope.

(** [v.get(k, default)] on a value that came out of JSON. *)
Fixpoint dict_find (d : list (string * pyval)) (k : string) : option pyval :=
  match d with
  | [] => None
  | (k', v) :: r => if String.eqb k' k then Some v else dict_find r k
  end.

Definition py_get {A} (v : pyval) (k : string) (default : pyval) (cont : pyval -> Net A)
  : Net A :=
  match v with
  | VDict d => cont (match dict_find d k with Some x => x | None => default end)
  | _ => net_raise (Builtin AttributeError)
  end.

(** [for p in v]: the elements of a list, the keys of a dict, the
    characters of a string. *)
Fixpoint chars (s : string) : list pyval :=
  match s with
  | EmptyString => []
  | String c r => VStr (String c EmptyString) :: chars r
  end.

Definition iterate (v : pyval) : list pyval + failure :=
  match v with
  | VList l => inl l
  | VDict d => inl (map (fun kv => VStr (fst kv)) d)
  | VStr s => inl (chars s)
  | _ => inr TypeError
  end.

(** [[p.get("photoGuid") for p in photos if p.get("photoGuid")]] *)
Fixpoint photo_guids (photos : list pyval) : list pyval + failure :=
  match photos with
  | [] => inl []
  | VDict d :: r =>
      let guid := dict_get d "photoGuid" in
      match photo_guids r with
      | inl rest => inl (if truthy guid then guid :: rest else rest)
      | inr f => inr f
      end
  | _ :: _ => inr (Builtin AttributeError)
  end.

Definition net_lift {A} (r : A + failure) : Net A := fun sent => (r, sent).

Section Catalog.

Variable str_of : pyval -> string.

(** The exception [r.json()] raises on a body that is not JSON: a
    [RequestException] from requests 2.27 on, a [JSONDecodeError] that is
    none before. *)
Variable json_failure : exn.

(** The album service: its reply to the [n]-th request of a run. *)
Variable service : nat -> post -> reply.

(** [r = requests.post(url, json=payload); r.raise_for_status(); r.json()] *)
Definition requests_post (url : string) (payload : pyval) : Net pyval :=
  fun sent =>
    let q := mkPost url payload in
    (match service (List.length sent) q with
     | NoReply | ErrorStatus => inr (Builtin RequestException)
     | NotJson => inr (Builtin json_failure)
     | Document doc => inl doc
     end, (sent ++ [q])%list).

Definition sharedstreams (host album_id : string) : string :=
  "https://" ++ host ++ "/" ++ album_id ++ "/sharedstreams".

Definition stream_payload : pyval := VDict [("streamCtag", VNone)].

(** From the photo list of the stream to the asset listing. *)
Definition asset_listing (base_api_url : string) (stream_data : pyval) : Net catalog :=
  py_get stream_data "photos" (VList []) (fun photos =>
    (ps <- net_lift (iterate photos) ;;
     guids <- net_lift (photo_guids ps) ;;
     match guids with
     | [] => net_ret CatalogNoPhotos
     | _ =>
         doc <- requests_post (base_api_url ++ "/webasseturls")
                  (VDict [("photoGuids", VList guids)]) ;;
         py_get doc "items" (VDict []) (fun items =>
           match py_or items (VDict []) with
           | VDict d => net_ret (CatalogItems d)
           | _ => net_raise (Builtin AttributeError)
           end)
     end)%net).

(** The body of the [try] of [fetch_album_media] from the album id to the
    asset listing. *)
Definition album_catalog (shared_url : string) : Net catalog :=
  let album_id := after_last "#" shared_url in
  let base_api_url := sharedstreams "p23-sharedstreams.icloud.com" album_id in
  (stream_data <- requests_post (base_api_url ++ "/webstream") stream_payload ;;
   py_get stream_data "X-Apple-MMe-Host" VNone (fun host =>
     if truthy host then
       let base_api_url := sharedstreams (format_value str_of host) album_id in
       stream_data <- requests_post (base_api_url ++ "/webstream") stream_payload ;;
       asset_listing base_api_url stream_data
     else asset_listing base_api_url stream_data))%net.

(** The same with the test that comes first: without a fragment in the
    shared URL nothing is requested ([None]). *)
Definition fetch_catalog (shared_url : string) : Net (option catalog) :=
  if negb (PyStr.has_char "#" shared_url) then net_ret None
  else (C <- album_catalog shared_url ;; net_ret (Some C))%net.

(** The catalog as the handler of [fetch_album_media] leaves it: a
    [RequestException] is caught and gives [CatalogRaises]; any other
    exception passes through. *)
Definition catalog_seen (r : catalog + failure) : catalog + failure :=
  match r with
  | inr (Builtin RequestException) => inl CatalogRaises
  | other => other
  end.

End Catalog.

(** *** Vocabulary *)

(** The URL of a request to an endpoint of the album [album_id]. *)
Definition to_endpoint (album_id : string) (q : post) : Prop :=
  exists host endpoint,
    p_url q = "https://" ++ host ++ "/" ++ album_id ++ "/sharedstreams/" ++ endpoint /\
    (endpoint = "webstream" \/ endpoint = "webasseturls").

(** The reply brought no document. *)
Definition failed (r : reply) : bool :=
  match r with
  | Document _ => false
  | _ => true
  end.

(** What a run ends with when a reply has failed: the exception of the
    request, or that of [r.json()]. *)
Definition request_failure {A} (json_failure : exn) (r : A + failure) : Prop :=
  r = inr (Builtin RequestException) \/ r = inr (Builtin json_failure).

(** ** More samples *)

(** Two renditions of the same area and size, 4000x3000 and 3000x4000. *)
Definition asset_two_equal : list (string * pyval) :=
  [("url_location", VStr "media.example.com");
   ("derivatives",
    VDict [("R4000x3000",
            VDict [("url", VStr "/B/wide.jpg"); ("width", VInt 4000);
                   ("height", VInt 3000); ("size", VInt 1048576)]);
           ("R3000x4000",
            VDict [("url", VStr "/B/tall.jpg"); ("width", VInt 3000);
                   ("height", VInt 4000); ("size", VInt 1048576)])])].

Definition candidates_two_equal : list candidate :=
  [mkCandidate "https://media.example.com/B/wide.jpg" 4000 3000 "R4000x3000" 1048576;
   mkCandidate "https://media.example.com/B/tall.jpg" 3000 4000 "R3000x4000" 1048576].

(** A catalog of two assets: a photo, and one with a thumbnail only. *)
Definition items_photo_and_thumb : list (string * pyval) :=
  [("guid-1",
    VDict [("url_location", VStr "media.example.com");
           ("derivatives",
            VDict [("original",
                    VDict [("url", VStr "/B/abc123.jpg?sig=1");
                           ("width", VInt 4032); ("height", VInt 3024)])])]);
   ("guid-3",
    VDict [("derivatives",
            VDict [("thumb_300x300",
                    VDict [("url", VStr "https://media.example.com/B/t.jpg");
                           ("width", VInt 300); ("height", VInt 300)])])])].

(** A network on which every body stream breaks after 12288 bytes. *)
Definition broken_env : env :=
  mkEnv (fun _ => None)
        (fun _ => Some (mkResponse true None None [8192%N; 4096%N] false))
        1000 "2024-01-01T00:00:00".

(** The sample network, more than a day later. *)
Definition late_env : env :=
  mkEnv (head_of sample_env) (get_of sample_env) 86455 "2024-01-02T00:00:55".

(** A destination where a directory sits under the temporary name of the
    sample photo. *)
Definition blocked_world : world :=
  mkWorld (Some [("IMG_0001.JPG.part", mkEntry Directory 10 true true (Binary 0))]) [].

(** An album service: the first reply names another host, the stream
    there lists two photos and an entry without a guid, the asset listing
    has one item. *)
Definition sample_service (n : nat) (q : post) : reply :=
  match n with
  | O => Document (VDict [("X-Apple-MMe-Host", VStr "p42-sharedstreams.icloud.com")])
  | S O => Document (VDict [("photos",
                             VList [VDict [("photoGuid", VStr "guid-1")];
                                    VDict [("caption", VStr "no guid")];
                                    VDict [("photoGuid", VStr "guid-2")]])])
  | _ => Document (VDict [("items", VDict [("guid-1", VDict [])])])
  end.

(** Three photos written in the same second, and an older one. *)
Definition burst_files : listing :=
  [("a.jpg", media_file 500 400000); ("old.jpg", media_file 100 400000);
   ("b.jpg", media_file 500 400000); ("c.jpg", media_file 500 400000)].

(** * Properties *)

(** ** The string tests mean what their names say *)

Module PyStrFacts.
Import PyStr.

Lemma startswith_spec (s p : string) :
  startswith s p = true <-> exists r, s = p ++ r.
Proof.
  revert s. induction p as [|a p IH]; intros s.
  - split; [intros _; now exists s | now destruct s].
  - destruct s as [|b s]; simpl.
    + split; [discriminate | intros [r Hr]; discriminate].
    + rewrite andb_true_iff, Ascii.eqb_eq, IH. split.
      * intros [-> [r ->]]. now exists r.
      * intros [r Hr]. injection Hr as -> ->. split; [reflexivity | now exists r].
Qed.

Lemma contains_spec (s sub : string) :
  contains s sub = true <-> exists a b, s = a ++ sub ++ b.
Proof.
  induction s as [|c s IH]; cbn [contains]; rewrite orb_true_iff, startswith_spec.
  - split.
    + intros [[r Hr] | H]; [|discriminate]. exists "", r. exact Hr.
    + intros [a [b H]]. left. destruct a; simpl in H; [now exists b | discriminate].
  - rewrite IH. split.
    + intros [[r Hr] | [a [b H]]].
      * exists "", r. exact Hr.
      * exists (String c a), b. simpl. now rewrite H.
    + intros [a [b H]]. destruct a as [|c' a]; simpl in H.
      * left. now exists b.
      * right. injection H as _ H. now exists a, b.
Qed.

Lemma endswith_spec (s suf : string) :
  endswith s suf = true <-> exists a, s = a ++ suf.
Proof.
  induction s as [|c s IH]; cbn [endswith]; rewrite orb_true_iff, String.eqb_eq.
  - split.
    + intros [<- | H]; [now exists "" | discriminate].
    + intros [a H]. left. destruct a; simpl in H; [exact H | discriminate].
  - rewrite IH. split.
    + intros [<- | [a ->]]; [now exists "" | now exists (String c a)].
    + intros [a H]. destruct a as [|c' a]; simpl in H.
      * now left.
      * right. injection H as _ H. now exists a.
Qed.

End PyStrFacts.

(** [thumbish s] holds exactly when the lower-cased [s] has one of the
    hints as a substring. *)
Lemma thumbish_spec (s : string) :
  thumbish s = true <->
  exists h a b, In h THUMB_HINTS /\ PyStr.lower s = (a ++ h ++ b)%string.
Proof.
  unfold thumbish. rewrite existsb_exists. split.
  - intros [h [Hin Hc]]. apply PyStrFacts.contains_spec in Hc as [a [b Hab]].
    now exists h, a, b.
  - intros [h [a [b [Hin Hab]]]]. exists h. split; [exact Hin|].
    apply PyStrFacts.contains_spec. now exists a, b.
Qed.

(** [is_video url] holds exactly when the lower-cased URL ends with one of
    the video extensions. *)
Lemma is_video_spec (url : string) :
  is_video url = true <->
  exists ext a, In ext VIDEO_EXTS /\ PyStr.lower url = (a ++ ext)%string.
Proof.
  unfold is_video. rewrite existsb_exists. split.
  - intros [e [Hin He]]. apply PyStrFacts.endswith_spec in He as [a Ha].
    now exists e, a.
  - intros [e [a [Hin Ha]]]. exists e. split; [exact Hin|].
    apply PyStrFacts.endswith_spec. now exists a.
Qed.

(** ** The full-size floor *)


(** ** Candidates and selection *)

Local Open Scope list_scope.

Lemma find_first {A} (f : A -> bool) (l : list A) (x : A) :
  find f l = Some x ->
  exists l1 l2, l = l1 ++ x :: l2 /\ f x = true /\
                forall y, In y l1 -> f y = false.
Proof.
  induction l as [|a l IH]; simpl; [discriminate|].
  destruct (f a) eqn:Hfa.
  - intros [= ->]. exists [], l. repeat split; [exact Hfa | intros y []].
  - intros H. destruct (IH H) as [l1 [l2 [-> [Hx Hl1]]]].
    exists (a :: l1), l2. repeat split; [exact Hx|].
    intros y [<- | Hy]; [exact Hfa | now apply Hl1].
Qed.

Lemma first_preferred_some prefs cands c :
  first_preferred prefs cands = Some c ->
  exists before p after l1 l2,
    prefs = before ++ p :: after /\
    (forall q c', In q before -> In c' cands -> pref_match q c' = false) /\
    cands = l1 ++ c :: l2 /\
    pref_match p c = true /\
    (forall c', In c' l1 -> pref_match p c' = false).
Proof.
  induction prefs as [|p ps IH]; simpl; [discriminate|].
  destruct (find (pref_match p) cands) as [c0|] eqn:Hf.
  - intros [= ->]. destruct (find_first _ _ _ Hf) as [l1 [l2 [Hc [Hm Hl1]]]].
    exists [], p, ps, l1, l2. repeat split; auto. intros q c' [].
  - intros H. destruct (IH H) as [b [q [af [l1 [l2 [-> [Hb [Hc [Hm Hl1]]]]]]]]].
    exists (p :: b), q, af, l1, l2. repeat split; auto.
    intros q' c' [<- | Hq] Hc'; [|now apply Hb].
    exact (find_none _ _ Hf c' Hc').
Qed.

Lemma first_preferred_none prefs cands :
  first_preferred prefs cands = None ->
  forall p c, In p prefs -> In c cands -> pref_match p c = false.
Proof.
  induction prefs as [|q ps IH]; simpl; [intros _ p c []|].
  destruct (find (pref_match q) cands) eqn:Hf; [discriminate|].
  intros H p c [<- | Hp] Hc; [exact (find_none _ _ Hf c Hc) | now apply IH].
Qed.

Lemma first_preferred_exists prefs cands p c :
  In p prefs -> In c cands -> pref_match p c = true ->
  exists c', first_preferred prefs cands = Some c'.
Proof.
  intros Hp Hc Hm.
  destruct (first_preferred prefs cands) as [c'|] eqn:Hf; [now exists c'|].
  rewrite (first_preferred_none _ _ Hf p c Hp Hc) in Hm. discriminate.
Qed.

Lemma rank_ltb_false a b : rank_ltb a b = false <-> rank_le b a.
Proof.
  unfold rank_ltb, rank_le.
  rewrite orb_false_iff, andb_false_iff, Z.ltb_ge, Z.eqb_neq, Z.ltb_ge. lia.
Qed.

Lemma rank_ltb_true a b : rank_ltb a b = true -> rank_le a b.
Proof.
  unfold rank_ltb, rank_le.
  rewrite orb_true_iff, andb_true_iff, Z.ltb_lt, Z.eqb_eq, Z.ltb_lt. lia.
Qed.

Lemma rank_le_trans a b c : rank_le a b -> rank_le b c -> rank_le a c.
Proof. unfold rank_le. lia. Qed.

Lemma rank_le_refl a : rank_le a a.
Proof. unfold rank_le. lia. Qed.

Lemma max_from_in best l : In (max_from best l) (best :: l).
Proof.
  revert best. induction l as [|c l IH]; intros best; simpl; [now left|].
  destruct (IH (if rank_ltb (rank best) (rank c) then c else best)) as [H | H].
  - destruct (rank_ltb (rank best) (rank c)); rewrite <- H; auto.
  - auto.
Qed.

Lemma max_from_ge_start best l : rank_le (rank best) (rank (max_from best l)).
Proof.
  revert best. induction l as [|c l IH]; intros best; simpl; [apply rank_le_refl|].
  destruct (rank_ltb (rank best) (rank c)) eqn:Hlt.
  - eapply rank_le_trans; [apply rank_ltb_true, Hlt | apply IH].
  - apply IH.
Qed.

Lemma max_from_ge best l c :
  In c (best :: l) -> rank_le (rank c) (rank (max_from best l)).
Proof.
  revert best. induction l as [|c' l IH]; intros best Hin.
  - destruct Hin as [-> | []]. apply rank_le_refl.
  - simpl. destruct (rank_ltb (rank best) (rank c')) eqn:Hlt.
    + destruct Hin as [-> | Hin].
      * eapply rank_le_trans; [apply rank_ltb_true, Hlt | apply max_from_ge_start].
      * apply IH. exact Hin.
    + destruct Hin as [-> | [-> | Hin]].
      * apply max_from_ge_start.
      * eapply rank_le_trans; [apply rank_ltb_false, Hlt | apply max_from_ge_start].
      * apply IH. now right.
Qed.

(** [max_from] returns the first of the greatest elements: everything
    before it is strictly smaller. *)
Lemma max_from_first best l :
  exists l1 l2,
    best :: l = l1 ++ max_from best l :: l2 /\
    (forall c, In c l1 -> rank_ltb (rank c) (rank (max_from best l)) = true) /\
    (forall c, In c l2 -> rank_le (rank c) (rank (max_from best l))).
Proof.
  revert best. induction l as [|c l IH]; intros best.
  - exists [], []. repeat split; intros c [].
  - simpl. destruct (rank_ltb (rank best) (rank c)) eqn:Hlt.
    + destruct (IH c) as [l1 [l2 [Heq [H1 H2]]]].
      exists (best :: l1), l2. rewrite Heq. repeat split; auto.
      intros x [<- | Hx]; [|now apply H1].
      pose proof (max_from_ge_start c l) as Hge.
      destruct (rank_ltb (rank best) (rank (max_from c l))) eqn:Hm; [reflexivity|].
      apply rank_ltb_false in Hm. unfold rank_ltb, rank_le in *.
      rewrite orb_true_iff, andb_true_iff, Z.ltb_lt, Z.eqb_eq, Z.ltb_lt in Hlt. lia.
    + destruct (IH best) as [l1 [l2 [Heq [H1 H2]]]].
      apply rank_ltb_false in Hlt.
      destruct l1 as [|b l1]; simpl in Heq.
      * injection Heq as Hb Hl. subst l2. exists [], (c :: l).
        rewrite <- Hb in *. repeat split; [intros x [] |].
        intros x [<- | Hx]; [exact Hlt|]. apply H2. exact Hx.
      * injection Heq as <- Hl. exists (best :: c :: l1), l2.
        split; [simpl; do 2 f_equal; exact Hl | split; [|exact H2]].
        intros x [<- | [<- | Hx]].
        -- apply H1. now left.
        -- pose proof (H1 best (or_introl eq_refl)) as Hb.
           destruct (rank_ltb (rank c) (rank (max_from best l))) eqn:Hm;
             [reflexivity|].
           apply rank_ltb_false in Hm. unfold rank_ltb, rank_le in *.
           rewrite orb_true_iff, andb_true_iff, Z.ltb_lt, Z.eqb_eq, Z.ltb_lt in Hb.
           lia.
        -- apply H1. now right.
Qed.

Section SelectorFacts.

Variable str_of : pyval -> string.

Lemma is_thumbish_name_true (x : pyval) :
  _is_thumbish_name x = Ok true <-> exists s, py_or x (VStr "") = VStr s /\ thumbish s = true.
Proof.
  unfold _is_thumbish_name. destruct (py_or x (VStr "")); split;
    try discriminate; try (intros [s0 [H _]]; discriminate).
  - intros [= H]. now exists s.
  - intros [s0 [[= <-] H]]. now rewrite H.
Qed.

Lemma py_or_default_idem (x : pyval) :
  py_or (py_or x (VStr "")) (VStr "") = py_or x (VStr "").
Proof. unfold py_or. destruct (truthy x) eqn:H; [now rewrite H | reflexivity]. Qed.

(** When the four tests all come out false, no signal carries a hint. *)
Lemma thumb_signals_false k fname dtype u :
  thumb_signals k fname dtype u = Ok false ->
  thumbish k = false /\ _is_thumbish_name fname = Ok false /\
  _is_thumbish_name dtype = Ok false /\ thumbish u = false.
Proof.
  unfold thumb_signals, _is_thumbish_name at 1 4. simpl.
  assert (Hk : py_or (VStr k) (VStr "") = VStr k \/ k = "").
  { unfold py_or. simpl. destruct (String.eqb_spec k ""); auto. }
  assert (Hk' : match py_or (VStr k) (VStr "") with
                | VStr s => Ok (thumbish s) | _ => Raise AttributeError end
                = Ok (thumbish k)).
  { destruct Hk as [-> | ->]; reflexivity. }
  assert (Hu' : match py_or (VStr u) (VStr "") with
                | VStr s => Ok (thumbish s) | _ => Raise AttributeError end
                = Ok (thumbish u)).
  { unfold py_or. simpl. destruct (String.eqb_spec u "") as [-> |]; reflexivity. }
  rewrite Hk', Hu'. simpl.
  destruct (thumbish k); [discriminate|].
  destruct (_is_thumbish_name fname) as [[|]|]; simpl; try discriminate.
  destruct (_is_thumbish_name dtype) as [[|]|]; simpl; try discriminate.
  intros [= ->]. auto.
Qed.

(** What a candidate records about the derivative it was built from. *)
Lemma candidate_of_some k v location c :
  _candidate_from_derivative str_of k v location = Ok (Some c) ->
  c_key c = k /\
  _full_url str_of location (derivative_url v) = Ok (c_url c) /\
  thumb_signals k (derivative_fname v) (derivative_dtype v) (c_url c) = Ok false.
Proof.
  unfold _candidate_from_derivative.
  destruct (truthy (derivative_url v)); simpl; [|discriminate].
  destruct (_full_url str_of location (derivative_url v)) as [u|]; simpl; [|discriminate].
  destruct (thumb_signals k (derivative_fname v) (derivative_dtype v) u)
    as [[|]|] eqn:Hs; simpl; try discriminate.
  match goal with |- context [let '(_, _) := ?p in _] => destruct p end.
  intros [= <-]. simpl. auto.
Qed.

(** A derivative that carries a hint yields no candidate, whatever its
    declared width, height and size. *)
Lemma hinted_no_candidate location k v :
  hinted str_of location k v -> forall c, _candidate_from_derivative str_of k v location <> Ok (Some c).
Proof.
  intros Hh c Hc.
  destruct (candidate_of_some _ _ _ _ Hc) as [_ [Hu Hs]].
  destruct (thumb_signals_false _ _ _ _ Hs) as [Hk [Hf [Hd Hurl]]].
  assert (Hidem : forall x s, x = py_or (py_or s (VStr "")) (VStr "") ->
                  _is_thumbish_name x = Ok false ->
                  forall s', x = VStr s' -> thumbish s' = false).
  { intros x s0 Hx Hx' s' ->. unfold _is_thumbish_name in Hx'.
    destruct (py_or (VStr s') (VStr "")) eqn:Ho; try discriminate.
    unfold py_or in Ho. simpl in Ho.
    destruct (String.eqb_spec s' "") as [-> | Hne]; [reflexivity|].
    simpl in Ho. injection Ho as <-. now injection Hx'. }
  destruct Hh as [H | [[s [Hs1 Hs2]] | [[s [Hs1 Hs2]] | [u [Hu1 Hu2]]]]].
  - congruence.
  - unfold derivative_fname in Hs1.
    pose proof (Hidem _ (py_or (dict_get v "fileName") (dict_get v "filename"))
                  eq_refl) as Hx.
    rewrite py_or_default_idem in Hx. specialize (Hx Hf s Hs1). congruence.
  - unfold derivative_dtype in Hs1.
    pose proof (Hidem _ (py_or (dict_get v "derivativeType") (dict_get v "type"))
                  eq_refl) as Hx.
    rewrite py_or_default_idem in Hx. specialize (Hx Hd s Hs1). congruence.
  - rewrite Hu in Hu1. injection Hu1 as <-. congruence.
Qed.

Lemma collect_candidates_in location d cands c :
  collect_candidates str_of location d = Ok cands -> In c cands ->
  exists k v, In (k, VDict v) d /\
              _candidate_from_derivative str_of k v location = Ok (Some c).
Proof.
  revert cands. induction d as [|[k x] d IH]; intros cands; simpl.
  - intros [= <-] [].
  - destruct x; try (intros H Hc; destruct (IH _ H Hc) as [k' [v' [Hin Hv]]];
                     exists k', v'; split; [now right | exact Hv]).
    destruct (_candidate_from_derivative str_of k d0 location) as [o|] eqn:Hk;
      simpl; [|discriminate].
    destruct (collect_candidates str_of location d) as [rest|]; simpl; [|discriminate].
    intros [= <-] Hc.
    assert (Hrest : In c rest ->
                    exists k' v', In (k', VDict v') ((k, VDict d0) :: d) /\
                    _candidate_from_derivative str_of k' v' location = Ok (Some c)).
    { intros Hr. destruct (IH _ eq_refl Hr) as [k' [v' [Hin Hv]]].
      exists k', v'. split; [now right | exact Hv]. }
    destruct o as [c0|]; [|now apply Hrest].
    destruct Hc as [<- | Hr]; [|now apply Hrest].
    exists k, d0. split; [now left | exact Hk].
Qed.

Lemma candidate_origin a cands c :
  asset_candidates str_of a = Ok cands -> In c cands ->
  _meets_fullsize_floor c = true -> origin str_of a (c_url c).
Proof.
  intros Hc Hin Hfl. unfold asset_candidates in Hc.
  destruct (collect_candidates_in _ _ _ _ Hc Hin) as [k [v [Hd Hk]]].
  apply FromDerivative with k v c; auto.
  intros Hh. exact (hinted_no_candidate _ _ _ Hh c Hk).
Qed.

Lemma pref_match_floor p c : pref_match p c = true -> _meets_fullsize_floor c = true.
Proof. unfold pref_match. now rewrite !andb_true_iff. Qed.

Lemma filter_nil_all {A} (f : A -> bool) (l : list A) :
  filter f l = [] -> forall x, In x l -> f x = false.
Proof.
  intros H x Hx. destruct (f x) eqn:Hfx; [|reflexivity].
  assert (Hin : In x (filter f l)) by (apply filter_In; auto).
  rewrite H in Hin. destruct Hin.
Qed.

(** Every URL the selector returns is that of a floor-meeting candidate
    built from a derivative free of hints, or the asset's own path. *)
Lemma pick_best_origin a u :
  pick_best_download_url_from_asset str_of (VDict a) = Ok (Some u) -> origin str_of a u.
Proof.
  unfold pick_best_download_url_from_asset.
  destruct (asset_candidates str_of a) as [cands|] eqn:Hc; cbn [rbind]; [|discriminate].
  destruct (first_preferred PREFERRED_ORIGINAL_KEYS cands) as [c|] eqn:Hp.
  - intros [= <-].
    destruct (first_preferred_some _ _ _ Hp)
      as [b [p [af [l1 [l2 [_ [_ [Hl [Hm _]]]]]]]]].
    apply candidate_origin with cands; auto.
    + rewrite Hl. apply in_or_app. right. now left.
    + exact (pref_match_floor _ _ Hm).
  - destruct (filter _meets_fullsize_floor cands) as [|c0 rest] eqn:Hf.
    + intros Hfb. apply FromFallback; [|exact Hfb].
      intros cands' c Hc' Hin. rewrite Hc in Hc'. injection Hc' as <-.
      exact (filter_nil_all _ _ Hf c Hin).
    + intros [= <-].
      pose proof (max_from_in c0 rest) as Hin. rewrite <- Hf in Hin.
      apply filter_In in Hin as [Hin Hfl].
      apply candidate_origin with cands; auto.
Qed.

(** C1, amended: a derivative of the asset that carries a thumbnail hint
    in its key, file name, declared type or resolved URL never becomes a
    candidate, whatever width, height or size it declares; and any URL the
    selector returns is either the URL of a floor-meeting candidate built
    from a derivative of the asset that carries no hint, or the asset's own
    path resolved by step 3 when no candidate meets the floor. *)
Theorem hinted_derivative_never_selected a k v u :
  In (k, VDict v) (asset_derivatives a) ->
  hinted str_of (dict_get a "url_location") k v ->
  pick_best_download_url_from_asset str_of (VDict a) = Ok (Some u) ->
  (forall c, _candidate_from_derivative str_of k v (dict_get a "url_location")
             <> Ok (Some c)) /\
  origin str_of a u.
Proof.
  intros _ Hh Hp. split.
  - now apply hinted_no_candidate.
  - now apply pick_best_origin.
Qed.

Lemma preferred_nonempty p : In p PREFERRED_ORIGINAL_KEYS -> p <> "".
Proof. intros H ->. simpl in H. intuition discriminate. Qed.

Lemma pref_match_false p c :
  In p PREFERRED_ORIGINAL_KEYS -> pref_match p c = false ->
  PyStr.lower (c_key c) = p -> _meets_fullsize_floor c = false.
Proof.
  intros Hp Hm Hl. unfold pref_match in Hm.
  apply (proj2 (String.eqb_eq _ _)) in Hl as Hl'. rewrite Hl' in Hm.
  destruct (String.eqb_spec (c_key c) "") as [He | _].
  - rewrite He in Hl. simpl in Hl. symmetry in Hl.
    now apply preferred_nonempty in Hp.
  - exact Hm.
Qed.

Lemma pref_match_true p c :
  pref_match p c = true ->
  PyStr.lower (c_key c) = p /\ _meets_fullsize_floor c = true.
Proof.
  unfold pref_match. rewrite !andb_true_iff, String.eqb_eq. tauto.
Qed.

(** C4: when some candidate of the asset has a preferred-original key
    (compared in lower case) and meets the floor, the selector returns the
    URL of such a candidate: the first in catalog order under the first
    preference name that any floor-meeting candidate bears.  Areas play no
    part, so a larger candidate under another key does not displace it. *)
Theorem preferred_original_wins a cands c :
  asset_candidates str_of a = Ok cands ->
  In c cands ->
  In (PyStr.lower (c_key c)) PREFERRED_ORIGINAL_KEYS ->
  _meets_fullsize_floor c = true ->
  exists before p after l1 best l2,
    pick_best_download_url_from_asset str_of (VDict a) = Ok (Some (c_url best)) /\
    PREFERRED_ORIGINAL_KEYS = before ++ p :: after /\
    cands = l1 ++ best :: l2 /\
    PyStr.lower (c_key best) = p /\
    _meets_fullsize_floor best = true /\
    (forall q c', In q before -> In c' cands ->
                  PyStr.lower (c_key c') = q -> _meets_fullsize_floor c' = false) /\
    (forall c', In c' l1 ->
                PyStr.lower (c_key c') = p -> _meets_fullsize_floor c' = false).
Proof.
  intros Hc Hin Hkey Hfl.
  assert (Hm : pref_match (PyStr.lower (c_key c)) c = true).
  { unfold pref_match. rewrite Hfl, String.eqb_refl, andb_true_r, andb_true_r.
    destruct (String.eqb_spec (c_key c) "") as [He | _]; [|reflexivity].
    rewrite He in Hkey. now apply preferred_nonempty in Hkey. }
  destruct (first_preferred_exists _ _ _ _ Hkey Hin Hm) as [best Hbest].
  destruct (first_preferred_some _ _ _ Hbest)
    as [before [p [after [l1 [l2 [Hprefs [Hbefore [Hcands [Hpm Hl1]]]]]]]]].
  destruct (pref_match_true _ _ Hpm) as [Hlow Hbfl].
  exists before, p, after, l1, best, l2.
  split; [|repeat split; auto].
  - unfold pick_best_download_url_from_asset. rewrite Hc. cbn [rbind].
    now rewrite Hbest.
  - intros q c' Hq Hc' Hl. apply pref_match_false with q; auto.
    rewrite Hprefs. apply in_or_app. now left.
  - intros c' Hc' Hl. apply pref_match_false with p; auto.
    rewrite Hprefs. apply in_or_app. right. now left.
Qed.

(** C8: when no candidate with a preferred-original key meets the floor but
    some candidate does, the selector returns the URL of a floor-meeting
    candidate whose pair (width * height, size) is greatest, in Python's
    order on pairs, among the floor-meeting candidates. *)
Theorem largest_candidate_selected a cands :
  asset_candidates str_of a = Ok cands ->
  (forall c, In c cands -> In (PyStr.lower (c_key c)) PREFERRED_ORIGINAL_KEYS ->
             _meets_fullsize_floor c = false) ->
  (exists c, In c cands /\ _meets_fullsize_floor c = true) ->
  exists best,
    pick_best_download_url_from_asset str_of (VDict a) = Ok (Some (c_url best)) /\
    In best cands /\
    _meets_fullsize_floor best = true /\
    forall c, In c cands -> _meets_fullsize_floor c = true ->
              rank_le (rank c) (rank best).
Proof.
  intros Hc Hnopref [c1 [Hin1 Hfl1]].
  assert (Hnone : first_preferred PREFERRED_ORIGINAL_KEYS cands = None).
  { destruct (first_preferred PREFERRED_ORIGINAL_KEYS cands) as [c|] eqn:Hp;
      [|reflexivity].
    destruct (first_preferred_some _ _ _ Hp)
      as [before [p [after [l1 [l2 [Hprefs [_ [Hcands [Hpm _]]]]]]]]].
    destruct (pref_match_true _ _ Hpm) as [Hlow Hbfl].
    rewrite Hnopref in Hbfl; [discriminate | |].
    - rewrite Hcands. apply in_or_app. right. now left.
    - rewrite Hlow, Hprefs. apply in_or_app. right. now left. }
  destruct (filter _meets_fullsize_floor cands) as [|c0 rest] eqn:Hf.
  - rewrite (filter_nil_all _ _ Hf c1 Hin1) in Hfl1. discriminate.
  - exists (max_from c0 rest).
    pose proof (max_from_in c0 rest) as Hbest. rewrite <- Hf in Hbest.
    apply filter_In in Hbest as [Hbin Hbfl].
    repeat split; auto.
    + unfold pick_best_download_url_from_asset. rewrite Hc. cbn [rbind].
      now rewrite Hnone, Hf.
    + intros c Hin Hfl. apply max_from_ge. rewrite <- Hf. apply filter_In. auto.
Qed.

End SelectorFacts.

(** *** The selector on the sample catalogs *)

Example select_thumb_and_original :
  pick_best_download_url_from_asset no_str (VDict asset_thumb_and_original)
  = Ok (Some "b").
Proof. reflexivity. Qed.

Lemma hinted_derivative_never_selected_witness :
  let a := asset_thumb_and_original in
  let v := [("url", VStr "a"); ("width", VInt 300); ("height", VInt 300)] in
  In ("thumb_300x300", VDict v) (asset_derivatives a) /\
  hinted no_str (dict_get a "url_location") "thumb_300x300" v /\
  pick_best_download_url_from_asset no_str (VDict a) = Ok (Some "b") /\
  (forall c, _candidate_from_derivative no_str "thumb_300x300" v
               (dict_get a "url_location") <> Ok (Some c)) /\
  origin no_str a "b".
Proof.
  intros a v.
  assert (Hin : In ("thumb_300x300", VDict v) (asset_derivatives a))
    by (left; reflexivity).
  assert (Hh : hinted no_str (dict_get a "url_location") "thumb_300x300" v)
    by (left; reflexivity).
  assert (Hp : pick_best_download_url_from_asset no_str (VDict a) = Ok (Some "b"))
    by reflexivity.
  repeat split; try assumption;
    apply (hinted_derivative_never_selected no_str a "thumb_300x300" v "b" Hin Hh Hp).
Defined.

(** C1 as stated fails: the only derivative of this asset has "thumb" in
    its key, and the selector returns that derivative's resolved URL all the
    same, through the asset's own path (step 3). *)
Lemma hinted_derivative_url_returned :
  let a := asset_thumb_shares_path in
  let location := dict_get a "url_location" in
  let v := [("url", VStr "/B/photo.jpg"); ("width", VInt 300); ("height", VInt 300)] in
  let u := "https://media.example.com/B/photo.jpg" in
  In ("thumb_300x300", VDict v) (asset_derivatives a) /\
  thumbish "thumb_300x300" = true /\
  _full_url no_str location (derivative_url v) = Ok u /\
  pick_best_download_url_from_asset no_str (VDict a) = Ok (Some u).
Proof.
  repeat split. left. reflexivity.
Qed.

(** Step 3 tests the asset's path, not the URL it resolves to: with a
    hint in the host name, the URL returned contains one. *)
Example fallback_url_may_carry_hint :
  let u := "https://thumbs.example.com/B/photo.jpg" in
  pick_best_download_url_from_asset no_str
    (VDict [("url_location", VStr "thumbs.example.com");
            ("url_path", VStr "/B/photo.jpg")])
  = Ok (Some u) /\
  thumbish u = true.
Proof. split; reflexivity. Qed.

Lemma preferred_original_wins_witness :
  let a := asset_preferred_and_larger in
  let cands := candidates_preferred_and_larger in
  let c := mkCandidate "https://media.example.com/B/orig.jpg" 2048 1536 "Original" 400000 in
  asset_candidates no_str a = Ok cands /\
  In c cands /\
  In (PyStr.lower (c_key c)) PREFERRED_ORIGINAL_KEYS /\
  _meets_fullsize_floor c = true /\
  pick_best_download_url_from_asset no_str (VDict a)
    = Ok (Some "https://media.example.com/B/orig.jpg") /\
  exists before p after l1 best l2,
    pick_best_download_url_from_asset no_str (VDict a) = Ok (Some (c_url best)) /\
    PREFERRED_ORIGINAL_KEYS = before ++ p :: after /\
    cands = l1 ++ best :: l2 /\
    PyStr.lower (c_key best) = p /\
    _meets_fullsize_floor best = true /\
    (forall q c', In q before -> In c' cands ->
                  PyStr.lower (c_key c') = q -> _meets_fullsize_floor c' = false) /\
    (forall c', In c' l1 ->
                PyStr.lower (c_key c') = p -> _meets_fullsize_floor c' = false).
Proof.
  intros a cands c.
  assert (H1 : asset_candidates no_str a = Ok cands) by reflexivity.
  assert (H2 : In c cands) by (right; right; left; reflexivity).
  assert (H3 : In (PyStr.lower (c_key c)) PREFERRED_ORIGINAL_KEYS)
    by (right; left; reflexivity).
  assert (H4 : _meets_fullsize_floor c = true) by reflexivity.
  repeat (split; [assumption || reflexivity|]).
  exact (preferred_original_wins no_str a cands c H1 H2 H3 H4).
Defined.

Lemma largest_candidate_selected_witness :
  let a := asset_two_large in
  let cands := candidates_two_large in
  asset_candidates no_str a = Ok cands /\
  (forall c, In c cands -> In (PyStr.lower (c_key c)) PREFERRED_ORIGINAL_KEYS ->
             _meets_fullsize_floor c = false) /\
  (exists c, In c cands /\ _meets_fullsize_floor c = true) /\
  pick_best_download_url_from_asset no_str (VDict a)
    = Ok (Some "https://media.example.com/B/b.jpg") /\
  exists best,
    pick_best_download_url_from_asset no_str (VDict a) = Ok (Some (c_url best)) /\
    In best cands /\
    _meets_fullsize_floor best = true /\
    forall c, In c cands -> _meets_fullsize_floor c = true ->
              rank_le (rank c) (rank best).
Proof.
  intros a cands.
  assert (H1 : asset_candidates no_str a = Ok cands) by reflexivity.
  assert (H2 : forall c, In c cands ->
                 In (PyStr.lower (c_key c)) PREFERRED_ORIGINAL_KEYS ->
                 _meets_fullsize_floor c = false).
  { intros c [<- | [<- | []]] H; simpl in H; intuition discriminate. }
  assert (H3 : exists c, In c cands /\ _meets_fullsize_floor c = true).
  { eexists. split; [left; reflexivity | reflexivity]. }
  repeat (split; [assumption || reflexivity|]).
  exact (largest_candidate_selected no_str a cands H1 H2 H3).
Defined.

(** ** Running the monad *)

Lemma lookup_in (d : listing) n e :
  NoDup (map fst d) -> In (n, e) d -> lookup n d = Some e.
Proof.
  induction d as [|[n' e'] d IH]; simpl; [intros _ []|].
  intros Hnd [[= -> ->] | Hin].
  - now rewrite String.eqb_refl.
  - inversion Hnd as [|? ? Hnotin Hnd']; subst.
    destruct (String.eqb_spec n' n) as [-> | _]; [|now apply IH].
    exfalso. apply Hnotin. change n with (fst (n, e)). now apply in_map.
Qed.

Lemma lookup_some_in (d : listing) n e : lookup n d = Some e -> In (n, e) d.
Proof.
  induction d as [|[n' e'] d IH]; simpl; [discriminate|].
  destruct (String.eqb_spec n' n) as [-> | _].
  - intros [= ->]. now left.
  - intros H. right. now apply IH.
Qed.

Lemma lookup_delete_ne (d : listing) n m :
  n <> m -> lookup n (delete m d) = lookup n d.
Proof.
  intros Hne. induction d as [|[n' e'] d IH]; simpl; [reflexivity|].
  destruct (String.eqb_spec n' m) as [-> | Hm]; simpl.
  - destruct (String.eqb_spec m n) as [-> | _]; [contradiction | exact IH].
  - destruct (String.eqb_spec n' n); [reflexivity | exact IH].
Qed.

Lemma lookup_delete_eq (d : listing) n : lookup n (delete n d) = None.
Proof.
  induction d as [|[n' e'] d IH]; simpl; [reflexivity|].
  destruct (String.eqb_spec n' n) as [-> | Hm]; simpl; [exact IH|].
  destruct (String.eqb_spec n' n); [contradiction | exact IH].
Qed.

Lemma mem_spec f names : mem f names = true <-> In f names.
Proof.
  unfold mem. rewrite existsb_exists. split.
  - intros [x [Hin Heq]]. apply String.eqb_eq in Heq. now subst.
  - intros Hin. exists f. split; [exact Hin | apply String.eqb_refl].
Qed.

Lemma mem_false f names : mem f names = false <-> ~ In f names.
Proof.
  rewrite <- mem_spec. destruct (mem f names); split; congruence.
Qed.

Lemma bind_ok {A B} (m : M A) (f : A -> M B) w a w' :
  m w = (Ok a, w') -> bind m f w = f a w'.
Proof. unfold bind. now intros ->. Qed.

Lemma bind_raise {A B} (m : M A) (f : A -> M B) w e w' :
  m w = (Raise e, w') -> bind m f w = (Raise e, w').
Proof. unfold bind. now intros ->. Qed.

Lemma try_ok {A} (m : M A) c h w a w' :
  m w = (Ok a, w') -> try_except m c h w = (Ok a, w').
Proof. unfold try_except. now intros ->. Qed.

Lemma try_caught {A} (m : M A) c h w e w' :
  m w = (Raise e, w') -> c e = true -> try_except m c h w = h e w'.
Proof. unfold try_except. now intros -> ->. Qed.

Lemma try_passed {A} (m : M A) c h w e w' :
  m w = (Raise e, w') -> c e = false -> try_except m c h w = (Raise e, w').
Proof. unfold try_except. now intros -> ->. Qed.

Lemma run_listdir d tr :
  os_listdir (mkWorld (Some d) tr) = (Ok (map fst d), mkWorld (Some d) tr).
Proof. reflexivity. Qed.

Lemma run_getmtime d tr n e :
  names_directory n = false -> lookup n d = Some e ->
  os_path_getmtime n (mkWorld (Some d) tr) = (Ok (e_mtime e), mkWorld (Some d) tr).
Proof.
  intros Hn Hl. unfold os_path_getmtime, with_dest. simpl. now rewrite Hn, Hl.
Qed.

Lemma run_remove d tr n e :
  names_directory n = false -> lookup n d = Some e -> is_directory e = false ->
  os_remove n (mkWorld (Some d) tr) = (Ok tt, mkWorld (Some (delete n d)) tr).
Proof.
  intros Hn Hl He. unfold os_remove, with_dest. simpl. now rewrite Hn, Hl, He.
Qed.

Lemma run_remove_directory d tr n e :
  names_directory n = false -> lookup n d = Some e -> is_directory e = true ->
  os_remove n (mkWorld (Some d) tr) = (Raise IsADirectoryError, mkWorld (Some d) tr).
Proof.
  intros Hn Hl He. unfold os_remove, with_dest. simpl. now rewrite Hn, Hl, He.
Qed.

Lemma run_logging lvl fmt args w :
  logging lvl fmt args w = (Ok tt, mkWorld (dest w) (trace w ++ [Log lvl fmt args])).
Proof. reflexivity. Qed.

(** ** Retention *)

Lemma getmtime_each d tr (l : listing) :
  (forall n e, In (n, e) l -> lookup n d = Some e /\ names_directory n = false) ->
  mapM (fun f => t <- os_path_getmtime f ;; ret (f, t))%M (map fst l)
       (mkWorld (Some d) tr)
  = (Ok (stamps l), mkWorld (Some d) tr).
Proof.
  induction l as [|[n e] l IH]; intros H; [reflexivity|].
  destruct (H n e (or_introl eq_refl)) as [Hl Hn].
  cbn [map fst mapM].
  erewrite bind_ok; [|erewrite bind_ok; [reflexivity | apply run_getmtime; eassumption]].
  erewrite bind_ok; [reflexivity|].
  apply IH. intros n' e' Hin. apply H. now right.
Qed.

Lemma stat_all_ok d tr :
  wf_listing d ->
  stat_all (mkWorld (Some d) tr) = (Ok (stamps d), mkWorld (Some d) tr).
Proof.
  intros [Hnd Hnames]. unfold stat_all.
  erewrite bind_ok; [|apply run_listdir].
  apply getmtime_each. intros n e Hin. split; [now apply lookup_in | eauto].
Qed.

Lemma delete_then_filter (d : listing) n (f : string -> bool) :
  filter (fun ne => negb (f (fst ne))) (delete n d)
  = filter (fun ne => negb (String.eqb n (fst ne) || f (fst ne))) d.
Proof.
  unfold delete. induction d as [|[n' e'] d IH]; simpl; [reflexivity|].
  rewrite (String.eqb_sym n n').
  destruct (String.eqb n' n); simpl; [exact IH|].
  destruct (f n'); simpl; [exact IH | now rewrite IH].
Qed.

Lemma filter_all {A} (l : list A) : filter (fun _ => true) l = l.
Proof. induction l as [|x l IH]; simpl; [reflexivity | now rewrite IH]. Qed.

(** A loop of [os.remove] over distinct names of entries that are not
    directories removes exactly those entries. *)
Lemma remove_each fmt (l : list (string * Z)) : forall d tr,
  NoDup (map fst l) ->
  (forall x, In x l -> names_directory (fst x) = false /\
             exists e, lookup (fst x) d = Some e /\ is_directory e = false) ->
  forM_ l (fun fm => os_remove (fst fm) ;;; logging INFO fmt [AStr (fst fm)])%M
        (mkWorld (Some d) tr)
  = (Ok tt,
     mkWorld (Some (filter (fun ne => negb (mem (fst ne) (map fst l))) d))
             (tr ++ map (fun fm => Log INFO fmt [AStr (fst fm)]) l)).
Proof.
  induction l as [|[n t] l IH]; intros d tr Hnd H.
  - simpl. unfold ret. now rewrite app_nil_r, filter_all.
  - destruct (H (n, t) (or_introl eq_refl)) as [Hn [e [Hl He]]]. simpl in Hn, Hl.
    inversion Hnd as [|? ? Hnotin Hnd']; subst.
    cbn [forM_ fst].
    erewrite bind_ok;
      [|erewrite bind_ok; [apply run_logging | now apply run_remove with e]].
    cbn [dest trace]. rewrite IH; auto.
    + rewrite (delete_then_filter d n (fun x => mem x (map fst l))), <- app_assoc.
      simpl.
      f_equal. f_equal. f_equal.
      apply filter_ext. intros [n' e']. simpl.
      now rewrite (String.eqb_sym n n').
    + intros x Hx. destruct (H x (or_intror Hx)) as [Hxn [ex [Hxl Hxe]]].
      split; [exact Hxn|]. exists ex. split; [|exact Hxe].
      rewrite lookup_delete_ne; [exact Hxl|].
      intros Heq. apply Hnotin. rewrite <- Heq. now apply in_map.
Qed.

Lemma insert_desc_perm x l : Permutation (insert_desc x l) (x :: l).
Proof.
  induction l as [|y l IH]; simpl; [reflexivity|].
  destruct (snd x <? snd y); [|reflexivity].
  rewrite IH. apply perm_swap.
Qed.

Lemma sort_desc_perm l : Permutation (sort_desc l) l.
Proof.
  induction l as [|x l IH]; simpl; [reflexivity|].
  rewrite insert_desc_perm. now apply perm_skip.
Qed.

Lemma insert_desc_sorted x l :
  StronglySorted newer_first l -> StronglySorted newer_first (insert_desc x l).
Proof.
  induction l as [|y l IH]; intros Hs; simpl.
  - constructor; constructor.
  - inversion Hs as [|? ? Hs' Hall]; subst.
    destruct (Z.ltb_spec (snd x) (snd y)) as [Hlt | Hge].
    + constructor; [now apply IH|].
      apply Forall_forall. intros z Hz.
      apply (Permutation_in _ (insert_desc_perm x l)) in Hz.
      destruct Hz as [<- | Hz]; [unfold newer_first; lia|].
      now apply (proj1 (Forall_forall _ _) Hall).
    + constructor; [exact Hs|].
      constructor; [exact Hge|].
      apply Forall_forall. intros z Hz.
      pose proof (proj1 (Forall_forall _ _) Hall z Hz) as Hzy.
      unfold newer_first in *. lia.
Qed.

Lemma sort_desc_sorted l : StronglySorted newer_first (sort_desc l).
Proof.
  induction l as [|x l IH]; simpl; [constructor | now apply insert_desc_sorted].
Qed.

Lemma sorted_app_newer (l1 l2 : list (string * Z)) a b :
  StronglySorted newer_first (l1 ++ l2) -> In a l1 -> In b l2 -> snd b <= snd a.
Proof.
  induction l1 as [|x l1 IH]; simpl; [intros _ []|].
  intros Hs [-> | Ha] Hb; inversion Hs as [|? ? Hs' Hall]; subst.
  - apply (proj1 (Forall_forall _ _) Hall). apply in_or_app. now right.
  - now apply IH.
Qed.

Lemma filter_perm {A} (f : A -> bool) (l l' : list A) :
  Permutation l l' -> Permutation (filter f l) (filter f l').
Proof.
  induction 1 as [|x l l' _ IH|x y l|l l' l'' _ IH1 _ IH2]; simpl.
  - constructor.
  - destruct (f x); [now apply perm_skip | exact IH].
  - destruct (f x), (f y); try reflexivity. apply perm_swap.
  - now transitivity (filter f l').
Qed.

Lemma filter_none {A} (f : A -> bool) (l : list A) :
  (forall x, In x l -> f x = false) -> filter f l = [].
Proof.
  induction l as [|x l IH]; intros H; simpl; [reflexivity|].
  rewrite (H x (or_introl eq_refl)). apply IH. intros y Hy. apply H. now right.
Qed.

Lemma filter_every {A} (f : A -> bool) (l : list A) :
  (forall x, In x l -> f x = true) -> filter f l = l.
Proof.
  induction l as [|x l IH]; intros H; simpl; [reflexivity|].
  rewrite (H x (or_introl eq_refl)). f_equal. apply IH. intros y Hy. apply H. now right.
Qed.

Lemma stamps_filter (f : string -> bool) (d : listing) :
  stamps (filter (fun ne => f (fst ne)) d) = filter (fun x => f (fst x)) (stamps d).
Proof.
  unfold stamps. induction d as [|[n e] d IH]; simpl; [reflexivity|].
  destruct (f n); simpl; now rewrite IH.
Qed.

Lemma stamps_names (d : listing) : map fst (stamps d) = map fst d.
Proof. unfold stamps. rewrite map_map. reflexivity. Qed.

Lemma stamps_in (d : listing) x :
  In x (stamps d) <-> exists e, In (fst x, e) d /\ snd x = e_mtime e.
Proof.
  unfold stamps. rewrite in_map_iff. split.
  - intros [[n e] [<- Hin]]. now exists e.
  - intros [e [Hin Hx]]. exists (fst x, e). destruct x; simpl in *. now subst.
Qed.

(** What the count pass leaves: the entries whose names are not among
    those past position [n] of the newest-first order. *)
Lemma survivors_spec (d : listing) (n : nat) :
  NoDup (map fst d) ->
  let sorted := sort_desc (stamps d) in
  let d' := filter (fun ne => negb (mem (fst ne) (map fst (skipn n sorted)))) d in
  Permutation (stamps d') (firstn n sorted) /\
  (forall ne, In ne d -> ~ In ne d' ->
              In (fst ne, e_mtime (snd ne)) (skipn n sorted)).
Proof.
  intros Hnd sorted d'.
  assert (Hperm : Permutation sorted (stamps d)) by apply sort_desc_perm.
  assert (Hnds : NoDup (map fst (firstn n sorted ++ skipn n sorted))).
  { rewrite firstn_skipn. apply (Permutation_NoDup (l := map fst (stamps d))).
    - symmetry. now apply Permutation_map.
    - now rewrite stamps_names. }
  split.
  - unfold d'.
    rewrite (stamps_filter (fun x => negb (mem x (map fst (skipn n sorted)))) d).
    rewrite (filter_perm _ _ _ (Permutation_sym Hperm)).
    rewrite <- (firstn_skipn n sorted) at 1. rewrite filter_app.
    rewrite (filter_none _ (skipn n sorted)), app_nil_r.
    + rewrite filter_every; [reflexivity|].
      intros x Hx. apply negb_true_iff, mem_false. intros Hin.
      rewrite map_app in Hnds. apply NoDup_app_remove_r in Hnds as Hk.
      clear Hk. revert Hnds Hx Hin. generalize (firstn n sorted) (skipn n sorted).
      intros l1 l2 Hn Hx Hin.
      induction l1 as [|y l1 IH]; [destruct Hx|].
      simpl in Hn. inversion Hn as [|? ? Hnot Hn']; subst.
      destruct Hx as [-> | Hx]; [|now apply IH].
      apply Hnot. apply in_or_app. now right.
    + intros x Hx. apply negb_false_iff, mem_spec. now apply in_map.
  - intros [nm e] Hin Hnot. simpl.
    assert (Hm : mem nm (map fst (skipn n sorted)) = true).
    { destruct (mem nm (map fst (skipn n sorted))) eqn:Hm; [reflexivity|].
      exfalso. apply Hnot. unfold d'. apply filter_In. simpl. now rewrite Hm. }
    apply mem_spec, in_map_iff in Hm as [[nm' t] [Hfst Hg]]. simpl in Hfst. subst nm'.
    assert (Hs : In (nm, t) (stamps d)).
    { apply (Permutation_in _ Hperm). rewrite <- (firstn_skipn n sorted).
      apply in_or_app. now right. }
    apply stamps_in in Hs as [e' [He' Ht]]. simpl in He', Ht.
    pose proof (lookup_in _ _ _ Hnd Hin) as L1.
    pose proof (lookup_in _ _ _ Hnd He') as L2.
    rewrite L1 in L2. injection L2 as <-. now rewrite <- Ht.
Qed.

Lemma run_relist d tr :
  wf_listing d ->
  try_except (fs <- stat_all ;; ret (Some fs))%M is_FileNotFoundError
             (fun _ => ret None) (mkWorld (Some d) tr)
  = (Ok (Some (stamps d)), mkWorld (Some d) tr).
Proof.
  intros Hwf. erewrite try_ok; [reflexivity|].
  erewrite bind_ok; [reflexivity | now apply stat_all_ok].
Qed.

Lemma prune_missing_directory E keep_days max_files tr :
  prune_files E keep_days max_files (mkWorld None tr) = (Ok tt, mkWorld None tr).
Proof. reflexivity. Qed.

(** The count pass alone, on a directory without sub-directories. *)
Lemma prune_by_count_run E N d tr :
  wf_listing d ->
  (forall n e, In (n, e) d -> is_directory e = false) ->
  0 < N ->
  let gone := skipn (Z.to_nat N) (sort_desc (stamps d)) in
  prune_files E 0 N (mkWorld (Some d) tr)
  = (Ok tt,
     mkWorld (Some (filter (fun ne => negb (mem (fst ne) (map fst gone))) d))
             (tr ++ map (fun fm => Log INFO "Pruned by count: %s" [AStr (fst fm)]) gone)).
Proof.
  intros Hwf Hfiles HN gone. unfold prune_files.
  erewrite bind_ok; [|now apply run_relist].
  change (0 <? 0) with false. cbv iota.
  erewrite bind_ok; [|reflexivity].
  erewrite bind_ok; [|now apply run_relist].
  assert (Hlen : List.length (sort_desc (stamps d)) = List.length d).
  { rewrite (Permutation_length (sort_desc_perm _)). unfold stamps. apply length_map. }
  cbv zeta iota beta. rewrite Hlen. destruct (Z.ltb_spec 0 N) as [_ | ?]; [|lia]. simpl andb.
  destruct (Z.ltb_spec N (Z.of_nat (List.length d))) as [Hlt | Hge].
  - apply remove_each.
    + assert (Hnd : NoDup (map fst (firstn (Z.to_nat N) (sort_desc (stamps d)) ++ gone))).
      { unfold gone. rewrite firstn_skipn.
        apply (Permutation_NoDup (l := map fst (stamps d))).
        - symmetry. apply Permutation_map, sort_desc_perm.
        - rewrite stamps_names. apply Hwf. }
      rewrite map_app in Hnd. now apply NoDup_app_remove_l in Hnd.
    + intros x Hx.
      assert (Hs : In x (stamps d)).
      { apply (Permutation_in _ (sort_desc_perm _)).
        rewrite <- (firstn_skipn (Z.to_nat N)). apply in_or_app. now right. }
      apply stamps_in in Hs as [e [He _]]. destruct Hwf as [Hnd Hnames].
      split; [now apply Hnames with e|].
      exists e. split; [now apply lookup_in | now apply Hfiles with (fst x)].
  - assert (Hg : gone = []).
    { unfold gone. apply skipn_all2. rewrite Hlen. lia. }
    rewrite Hg. simpl. unfold ret. now rewrite app_nil_r, filter_all.
Qed.

(** C9: with [keep_days = 0] and [max_files = N > 0], on a directory of
    files (no sub-directory), [prune_files] completes and leaves
    [min N M] of the [M] entries, each as it was; the survivors are the
    first [N] of the newest-first order, so nothing deleted is newer than
    anything kept.  On a missing directory it returns without a change. *)
Theorem prune_keeps_newest E N d tr :
  wf_listing d ->
  (forall n e, In (n, e) d -> is_directory e = false) ->
  0 < N ->
  (exists d' tr',
     prune_files E 0 N (mkWorld (Some d) tr) = (Ok tt, mkWorld (Some d') tr') /\
     List.length d' = Nat.min (Z.to_nat N) (List.length d) /\
     (forall ne, In ne d' -> In ne d) /\
     Permutation (stamps d') (firstn (Z.to_nat N) (sort_desc (stamps d))) /\
     (forall kept gone, In kept d' -> In gone d -> ~ In gone d' ->
                        e_mtime (snd gone) <= e_mtime (snd kept))) /\
  (forall keep_days max_files tr0,
     prune_files E keep_days max_files (mkWorld None tr0) = (Ok tt, mkWorld None tr0)).
Proof.
  intros Hwf Hfiles HN. split; [|intros; apply prune_missing_directory].
  pose proof (prune_by_count_run E N d tr Hwf Hfiles HN) as Hrun.
  destruct (survivors_spec d (Z.to_nat N) (proj1 Hwf)) as [Hperm Hgone].
  cbv zeta in Hrun, Hperm, Hgone.
  eexists. eexists. split; [exact Hrun|].
  split; [|split; [|split; [exact Hperm|]]].
  - transitivity (List.length (firstn (Z.to_nat N) (sort_desc (stamps d)))).
    + rewrite <- (Permutation_length Hperm). unfold stamps. now rewrite length_map.
    + rewrite length_firstn, (Permutation_length (sort_desc_perm _)).
      unfold stamps. now rewrite length_map.
  - intros ne Hin. now apply filter_In in Hin.
  - intros kept gone Hk Hg Hng.
    apply (sorted_app_newer (firstn (Z.to_nat N) (sort_desc (stamps d)))
             (skipn (Z.to_nat N) (sort_desc (stamps d)))
             (fst kept, e_mtime (snd kept)) (fst gone, e_mtime (snd gone))).
    + rewrite firstn_skipn. apply sort_desc_sorted.
    + apply (Permutation_in _ Hperm). apply stamps_in. exists (snd kept).
      simpl. split; [|reflexivity]. now destruct kept.
    + now apply Hgone.
Qed.

(** ** Relations every step respects *)

Section Respects.

Variable R : world -> world -> Prop.
Hypothesis R_refl : forall w, R w w.
Hypothesis R_trans : forall w1 w2 w3, R w1 w2 -> R w2 w3 -> R w1 w3.

Lemma respects_ret {A} (a : A) : respects R (ret a).
Proof. intros w. apply R_refl. Qed.

Lemma respects_raise {A} (e : exn) : respects R (@raise A e).
Proof. intros w. apply R_refl. Qed.

Lemma respects_lift {A} (r : res A) : respects R (lift r).
Proof. intros w. apply R_refl. Qed.

Lemma respects_bind {A B} (m : M A) (f : A -> M B) :
  respects R m -> (forall a, respects R (f a)) -> respects R (bind m f).
Proof.
  intros Hm Hf w. unfold bind. specialize (Hm w).
  destruct (m w) as [[a | e] w']; simpl in *; [|exact Hm].
  eapply R_trans; [exact Hm | apply Hf].
Qed.

Lemma respects_try {A} (m : M A) c (h : exn -> M A) :
  respects R m -> (forall e, respects R (h e)) -> respects R (try_except m c h).
Proof.
  intros Hm Hh w. unfold try_except. specialize (Hm w).
  destruct (m w) as [[a | e] w']; simpl in *; [exact Hm|].
  destruct (c e); [|exact Hm].
  eapply R_trans; [exact Hm | apply Hh].
Qed.

Lemma respects_with_dest {A} (f : listing -> M A) :
  (forall d, respects R (f d)) -> respects R (with_dest f).
Proof.
  intros Hf w. unfold with_dest. destruct (dest w) eqn:Hd; [apply Hf | apply R_refl].
Qed.

Lemma respects_forM {A} (l : list A) (f : A -> M unit) :
  (forall a, respects R (f a)) -> respects R (forM_ l f).
Proof.
  intros Hf. induction l as [|a l IH]; simpl.
  - apply respects_ret.
  - apply respects_bind; auto.
Qed.

Lemma respects_mapM {A B} (l : list A) (f : A -> M B) :
  (forall a, respects R (f a)) -> respects R (mapM f l).
Proof.
  intros Hf. induction l as [|a l IH]; simpl.
  - apply respects_ret.
  - apply respects_bind; [apply Hf|]. intros b.
    apply respects_bind; [exact IH|]. intros bs. apply respects_ret.
Qed.

End Respects.

Lemma stays_refl n w : stays n w w.
Proof. reflexivity. Qed.

Lemma stays_trans n w1 w2 w3 : stays n w1 w2 -> stays n w2 w3 -> stays n w1 w3.
Proof. unfold stays. congruence. Qed.

Lemma extends_refl w : extends w w.
Proof. exists []. now rewrite app_nil_r. Qed.

Lemma extends_trans w1 w2 w3 : extends w1 w2 -> extends w2 w3 -> extends w1 w3.
Proof.
  intros [e1 H1] [e2 H2]. exists (e1 ++ e2). now rewrite H2, H1, app_assoc.
Qed.

Lemma keeps_wf_refl w : keeps_wf w w.
Proof. now intros H. Qed.

Lemma keeps_wf_trans w1 w2 w3 : keeps_wf w1 w2 -> keeps_wf w2 w3 -> keeps_wf w1 w3.
Proof. unfold keeps_wf. auto. Qed.

(** The trace and the directory are separate halves of the world. *)
Lemma emit_stays n ev : respects (stays n) (emit ev).
Proof. intros w. reflexivity. Qed.

Lemma emit_extends ev : respects extends (emit ev).
Proof. intros w. now exists [ev]. Qed.

Lemma emit_keeps_wf ev : respects keeps_wf (emit ev).
Proof. intros w H. exact H. Qed.

Lemma set_dest_extends d : respects extends (set_dest d).
Proof. intros w. exists []. simpl. now rewrite app_nil_r. Qed.

Lemma makedirs_stays n : respects (stays n) os_makedirs.
Proof.
  intros w. unfold os_makedirs, stays, entry_at.
  destruct (dest w) eqn:Hd; simpl; rewrite ?Hd; reflexivity.
Qed.

Lemma makedirs_extends : respects extends os_makedirs.
Proof.
  intros w. unfold os_makedirs. exists [].
  destruct (dest w); simpl; now rewrite app_nil_r.
Qed.

Lemma makedirs_keeps_wf : respects keeps_wf os_makedirs.
Proof.
  intros w H. unfold os_makedirs. destruct (dest w) eqn:Hd; [exact H|].
  split; [constructor | intros n e []].
Qed.

(** One step of a proof that a computation respects a relation, given the
    proofs that the relation is reflexive and transitive. *)
Ltac respects_step refl trans :=
  let by_refl := (intros; apply refl) in
  let by_trans := (intros; eapply trans; eassumption) in
  lazymatch goal with
  | |- respects _ (bind _ _) =>
      apply respects_bind; [by_trans | | intros ?]
  | |- respects _ (try_except _ _ _) =>
      apply respects_try; [by_trans | | intros ?]
  | |- respects _ (ret _) => apply respects_ret; by_refl
  | |- respects _ (raise _) => apply respects_raise; by_refl
  | |- respects _ (lift _) => apply respects_lift; by_refl
  | |- respects _ (with_dest _) => apply respects_with_dest; [by_refl | intros ?]
  | |- respects _ (forM_ _ _) =>
      apply respects_forM; [by_refl | by_trans | intros ?]
  | |- respects _ (mapM _ _) =>
      apply respects_mapM; [by_refl | by_trans | intros ?]
  | |- respects _ (if ?b then _ else _) => destruct b
  | |- respects _ (match ?x with _ => _ end) => destruct x
  | |- respects _ (logging _ _ _) => unfold logging
  end.

Create HintDb extends_db.
Create HintDb stays_db.
Create HintDb wf_db.

Ltac extends_auto :=
  repeat (first [ progress eauto 2 with extends_db nocore
                | respects_step extends_refl extends_trans ]).

Ltac stays_auto :=
  repeat (first [ progress eauto 2 with stays_db nocore
                | respects_step stays_refl stays_trans ]).

Ltac wf_auto :=
  repeat (first [ progress eauto 2 with wf_db nocore
                | respects_step keeps_wf_refl keeps_wf_trans ]).

#[local] Hint Resolve emit_extends set_dest_extends makedirs_extends : extends_db.
#[local] Hint Resolve emit_stays makedirs_stays : stays_db.
#[local] Hint Resolve emit_keeps_wf makedirs_keeps_wf : wf_db.

(** *** The trace only grows *)

Lemma listdir_extends : respects extends os_listdir.
Proof. unfold os_listdir. extends_auto. Qed.

Lemma getmtime_extends n : respects extends (os_path_getmtime n).
Proof. unfold os_path_getmtime. extends_auto. Qed.

Lemma exists_extends n : respects extends (os_path_exists n).
Proof. intros w. unfold os_path_exists. destruct (dest w); apply extends_refl. Qed.

Lemma isfile_extends n : respects extends (os_path_isfile n).
Proof. intros w. unfold os_path_isfile. destruct (dest w); apply extends_refl. Qed.

Lemma remove_extends n : respects extends (os_remove n).
Proof. unfold os_remove. extends_auto. Qed.

Lemma write_file_extends n c t : respects extends (write_file n c t).
Proof. unfold write_file. extends_auto. Qed.

Lemma read_file_extends n : respects extends (read_file n).
Proof. unfold read_file. extends_auto. Qed.

Lemma replace_extends src dst : respects extends (os_replace src dst).
Proof. unfold os_replace. extends_auto. Qed.

Lemma append_bytes_extends n k : respects extends (append_bytes n k).
Proof. unfold append_bytes. extends_auto. Qed.

#[local] Hint Resolve listdir_extends getmtime_extends exists_extends isfile_extends
  remove_extends write_file_extends read_file_extends replace_extends
  append_bytes_extends : extends_db.

Lemma stream_chunks_extends tmp chunks : forall total,
  respects extends (stream_chunks tmp chunks total).
Proof.
  induction chunks as [|c chunks IH]; intros total; simpl; extends_auto.
Qed.

#[local] Hint Resolve stream_chunks_extends : extends_db.

Lemma fetch_body_extends E tmp resp : respects extends (fetch_body E tmp resp).
Proof. unfold fetch_body. extends_auto. Qed.

Lemma json_load_extends c : respects extends (json_load c).
Proof. unfold json_load. extends_auto. Qed.

#[local] Hint Resolve fetch_body_extends json_load_extends : extends_db.

Lemma update_index_extends E index filename url :
  respects extends (update_index E index filename url).
Proof. unfold update_index. extends_auto. Qed.

#[local] Hint Resolve update_index_extends : extends_db.

Lemma record_download_extends E index filename url :
  respects extends (record_download E index filename url).
Proof. unfold record_download. extends_auto. Qed.

#[local] Hint Resolve record_download_extends : extends_db.

(** *** What each call leaves alone *)

Lemma lookup_app (d1 d2 : listing) n :
  lookup n (d1 ++ d2) = match lookup n d1 with Some e => Some e | None => lookup n d2 end.
Proof.
  induction d1 as [|[n' e'] d1 IH]; simpl; [reflexivity|].
  destruct (String.eqb n' n); [reflexivity | exact IH].
Qed.

Lemma lookup_update_ne (d : listing) n m (g : string * entry -> string * entry) :
  n <> m -> (forall ne, fst ne = m -> fst (g ne) = m) ->
  lookup n (map (fun ne => if String.eqb (fst ne) m then g ne else ne) d) = lookup n d.
Proof.
  intros Hne Hg. induction d as [|[n' e'] d IH]; simpl; [reflexivity|].
  destruct (String.eqb_spec n' m) as [-> | Hm]; simpl.
  - specialize (Hg (m, e') eq_refl). destruct (g (m, e')) as [k x]. simpl in *. subst k.
    destruct (String.eqb_spec m n) as [-> | _]; [contradiction | exact IH].
  - destruct (String.eqb n' n); [reflexivity | exact IH].
Qed.

Lemma remove_stays n m : n <> m -> respects (stays n) (os_remove m).
Proof.
  intros Hne w. unfold os_remove, with_dest, stays, entry_at.
  destruct (dest w) as [d|] eqn:Hd; simpl; rewrite ?Hd; [|reflexivity].
  destruct (names_directory m); simpl; rewrite ?Hd; [reflexivity|].
  destruct (lookup m d) as [e|]; simpl; rewrite ?Hd; [|reflexivity].
  destruct (is_directory e); simpl; rewrite ?Hd; [reflexivity|].
  now apply lookup_delete_ne.
Qed.

Lemma write_file_stays n m c t : n <> m -> respects (stays n) (write_file m c t).
Proof.
  intros Hne w. unfold write_file, with_dest, stays, entry_at.
  destruct (dest w) as [d|] eqn:Hd; simpl; rewrite ?Hd; [|reflexivity].
  destruct (names_directory m); simpl; rewrite ?Hd; [reflexivity|].
  destruct (lookup m d) as [e|] eqn:Hl; simpl; rewrite ?Hd.
  - destruct (e_kind e); simpl; rewrite ?Hd; try reflexivity.
    destruct (e_writable e); simpl; rewrite ?Hd; [|reflexivity].
    now apply (lookup_update_ne d n m (fun _ => (m, _))).
  - rewrite lookup_app. destruct (lookup n d); [reflexivity|]. simpl.
    destruct (String.eqb_spec m n) as [-> | _]; [contradiction | reflexivity].
Qed.

Lemma append_bytes_stays n m k : n <> m -> respects (stays n) (append_bytes m k).
Proof.
  intros Hne w. unfold append_bytes, with_dest, stays, entry_at.
  destruct (dest w) as [d|] eqn:Hd; simpl; rewrite ?Hd; [|reflexivity].
  apply (lookup_update_ne d n m
           (fun ne => match e_content (snd ne) with
                      | Binary k0 => (fst ne, _)
                      | JsonText _ => ne
                      end)); [exact Hne|].
  intros ne Hm. now destruct (e_content (snd ne)).
Qed.

Lemma replace_stays n src dst :
  n <> src -> n <> dst -> respects (stays n) (os_replace src dst).
Proof.
  intros Hs Hd' w. unfold os_replace, with_dest, stays, entry_at.
  destruct (dest w) as [d|] eqn:Hd; simpl; rewrite ?Hd; [|reflexivity].
  destruct (lookup src d) as [e|]; simpl; rewrite ?Hd; [|reflexivity].
  destruct (names_directory dst); simpl; rewrite ?Hd; [reflexivity|].
  assert (Hgo : entry_at (snd (set_dest (delete src (delete dst d) ++ [(dst, e)]) w)) n
                = lookup n d).
  { unfold entry_at. simpl. rewrite lookup_app, !lookup_delete_ne by assumption.
    destruct (lookup n d); [reflexivity|]. simpl.
    destruct (String.eqb_spec dst n) as [-> | _]; [contradiction | reflexivity]. }
  unfold entry_at in Hgo.
  destruct (lookup dst d) as [[[] ? ? ? ?]|]; simpl; rewrite ?Hd;
    try reflexivity; exact Hgo.
Qed.

Lemma read_only_stays {A} n (f : listing -> res A) :
  respects (stays n) (fun w => match dest w with
                               | Some d => (f d, w)
                               | None => (Raise FileNotFoundError, w)
                               end).
Proof. intros w. unfold stays. now destruct (dest w). Qed.

Lemma listdir_stays n : respects (stays n) os_listdir.
Proof. intros w. unfold os_listdir, with_dest, stays. now destruct (dest w). Qed.

Lemma getmtime_stays n m : respects (stays n) (os_path_getmtime m).
Proof.
  intros w. unfold os_path_getmtime, with_dest, stays.
  destruct (dest w) as [d|]; [|reflexivity].
  destruct (names_directory m); [reflexivity|]. now destruct (lookup m d).
Qed.

Lemma exists_stays n m : respects (stays n) (os_path_exists m).
Proof. intros w. unfold os_path_exists, stays. now destruct (dest w). Qed.

Lemma isfile_stays n m : respects (stays n) (os_path_isfile m).
Proof. intros w. unfold os_path_isfile, stays. now destruct (dest w). Qed.

Lemma read_file_stays n m : respects (stays n) (read_file m).
Proof.
  intros w. unfold read_file, with_dest, stays.
  destruct (dest w) as [d|]; [|reflexivity].
  destruct (names_directory m); [reflexivity|].
  destruct (lookup m d) as [e|]; [|reflexivity].
  destruct (e_kind e); try reflexivity. now destruct (e_readable e).
Qed.

#[local] Hint Resolve listdir_stays getmtime_stays exists_stays isfile_stays
  read_file_stays remove_stays write_file_stays append_bytes_stays replace_stays
  : stays_db.

Lemma stream_chunks_stays n tmp chunks : n <> tmp -> forall total,
  respects (stays n) (stream_chunks tmp chunks total).
Proof.
  intros Hne. induction chunks as [|c chunks IH]; intros total; simpl; stays_auto.
Qed.

#[local] Hint Resolve stream_chunks_stays : stays_db.

Lemma fetch_body_stays E n tmp resp :
  n <> tmp -> respects (stays n) (fetch_body E tmp resp).
Proof. intros Hne. unfold fetch_body. stays_auto. Qed.

Lemma preflight_stays E n url : respects (stays n) (preflight E url).
Proof. unfold preflight. stays_auto. Qed.

#[local] Hint Resolve fetch_body_stays preflight_stays : stays_db.

(** ** The pre-flight gate *)

Lemma probe_rejects_spec E url :
  probe_rejects E url = true <->
  exists head, head_of E url = Some head /\ r_ok head = true /\
               _content_length head <> 0 /\ _content_length head < MIN_FILESIZE_BYTES.
Proof.
  unfold probe_rejects. destruct (head_of E url) as [h|].
  - rewrite !andb_true_iff, negb_true_iff, Z.eqb_neq, Z.ltb_lt. split.
    + intros [[H1 H2] H3]. now exists h.
    + intros [h' [[= <-] [H1 [H2 H3]]]]. auto.
  - split; [discriminate | intros [h [H _]]; discriminate].
Qed.

Lemma preflight_run E url w :
  preflight E url w
  = (Ok (negb (probe_rejects E url)),
     mkWorld (dest w) (trace w ++ probe_events E url)).
Proof.
  unfold preflight, probe_events, probe_rejects, try_except, bind, emit, logging, emit.
  simpl. destruct (head_of E url) as [h|]; simpl; [|reflexivity].
  destruct (r_ok h); simpl; [|reflexivity].
  destruct (negb (_content_length h =? 0) && (_content_length h <? MIN_FILESIZE_BYTES));
    simpl; [|reflexivity].
  now rewrite <- app_assoc.
Qed.

Lemma makedirs_run w : os_makedirs w = (Ok tt, snd (os_makedirs w)).
Proof. unfold os_makedirs. now destruct (dest w). Qed.

Lemma makedirs_trace w : trace (snd (os_makedirs w)) = trace w.
Proof. unfold os_makedirs. now destruct (dest w). Qed.

(** [download_file] up to the probe. *)
Lemma download_file_rejected E url index w :
  probe_rejects E url = true ->
  download_file E url index w
  = (Ok false, mkWorld (dest (snd (os_makedirs w))) (trace w ++ probe_events E url)).
Proof.
  intros Hp. unfold download_file, download_attempt.
  erewrite try_ok; [reflexivity|].
  erewrite bind_ok; [|apply makedirs_run].
  erewrite bind_ok; [|apply preflight_run].
  now rewrite Hp, makedirs_trace.
Qed.

Lemma download_file_proceeds E url index w :
  probe_rejects E url = false ->
  download_file E url index w
  = try_except (transfer E url index) is_RequestException
      (fun e => logging ERROR "Failed to download %s: %s" [AStr url; AExn e] ;;;
                ret false)%M
      (mkWorld (dest (snd (os_makedirs w))) (trace w ++ [Head url])).
Proof.
  intros Hp. unfold download_file, download_attempt, try_except.
  erewrite bind_ok; [|apply makedirs_run].
  erewrite bind_ok; [|apply preflight_run].
  unfold probe_events. now rewrite Hp, makedirs_trace.
Qed.

Lemma transfer_issues_get E url index w :
  let out := try_except (transfer E url index) is_RequestException
      (fun e => logging ERROR "Failed to download %s: %s" [AStr url; AExn e] ;;;
                ret false)%M w in
  exists evs, trace (snd out) = trace w ++ Get url :: evs.
Proof.
  cbv zeta. unfold transfer.
  match goal with
  | |- context [bind (emit (Get url)) (fun _ => ?k)] =>
      assert (HK : respects extends
                     (try_except k is_RequestException
                        (fun e => logging ERROR "Failed to download %s: %s"
                                          [AStr url; AExn e] ;;; ret false)%M))
        by extends_auto
  end.
  specialize (HK (mkWorld (dest w) (trace w ++ [Get url]))).
  destruct HK as [evs Hevs]. exists evs.
  unfold try_except in *. unfold bind at 1. unfold emit at 1. cbv iota beta.
  simpl in Hevs. rewrite <- app_assoc in Hevs. exact Hevs.
Qed.


(** ** The post-transfer gate *)

Lemma append_length (a b : string) :
  String.length (a ++ b) = (String.length a + String.length b)%nat.
Proof. induction a as [|c a IH]; simpl; [reflexivity | now rewrite IH]. Qed.

Lemma part_name_differs (f : string) : f <> (f ++ ".part")%string.
Proof.
  intros H. apply (f_equal String.length) in H. rewrite append_length in H.
  simpl in H. lia.
Qed.

Lemma part_name_proper (f : string) : names_directory (f ++ ".part") = false.
Proof.
  unfold names_directory.
  assert (H : forall s, (String.length s < 5)%nat -> String.eqb (f ++ ".part") s = false).
  { intros s Hs. apply String.eqb_neq. intros Heq.
    apply (f_equal String.length) in Heq. rewrite append_length in Heq.
    simpl in Heq. lia. }
  rewrite !H; simpl; auto; lia.
Qed.

Lemma lookup_update_eq (d : listing) m (g : string * entry -> string * entry) :
  (forall ne, fst ne = m -> fst (g ne) = m) ->
  lookup m (map (fun ne => if String.eqb (fst ne) m then g ne else ne) d)
  = match lookup m d with
    | Some e => Some (snd (g (m, e)))
    | None => None
    end.
Proof.
  intros Hg. induction d as [|[n' e'] d IH]; simpl; [reflexivity|].
  destruct (String.eqb_spec n' m) as [-> | Hm]; simpl.
  - specialize (Hg (m, e') eq_refl). destruct (g (m, e')) as [k x]. simpl in *.
    subst k. now rewrite String.eqb_refl.
  - destruct (String.eqb_spec n' m); [contradiction | exact IH].
Qed.

Lemma stream_chunks_total tmp chunks : forall total w t w',
  stream_chunks tmp chunks total w = (Ok t, w') ->
  t = total + fold_right (fun n acc => Z.of_N n + acc) 0 chunks.
Proof.
  induction chunks as [|c chunks IH]; intros total w t w'; simpl.
  - intros [= <- _]. lia.
  - destruct (N.ltb_spec 0 c) as [Hpos | Hz].
    + unfold bind at 1. destruct (append_bytes tmp (Z.of_N c) w) as [[[]|e] w1];
        [|discriminate].
      intros H. apply IH in H. lia.
    + intros H. apply IH in H. lia.
Qed.

Lemma fetch_body_result E tmp resp w t w' :
  fetch_body E tmp resp w = (Ok t, w') ->
  t = body_bytes resp /\ r_intact resp = true.
Proof.
  unfold fetch_body, bind.
  destruct (write_file tmp (Binary 0) (now E) w) as [[[]|e] w1]; [|discriminate].
  destruct (stream_chunks tmp (r_chunks resp) 0 w1) as [[t'|e] w2] eqn:Hs;
    [|discriminate].
  apply stream_chunks_total in Hs.
  destruct (r_intact resp); simpl; [|discriminate].
  intros [= <- _]. split; [exact Hs | reflexivity].
Qed.

(** The temporary file while the body streams into it. *)
Lemma append_bytes_run tmp k w n :
  holds_bytes w tmp n ->
  exists w', append_bytes tmp k w = (Ok tt, w') /\ holds_bytes w' tmp (n + k) /\
             trace w' = trace w.
Proof.
  intros [e [He [Hk [Hw Hc]]]]. unfold entry_at in He.
  destruct (dest w) as [d|] eqn:Hd; [|discriminate].
  unfold append_bytes, with_dest. rewrite Hd. unfold set_dest.
  eexists. split; [reflexivity|]. split; [|reflexivity].
  unfold holds_bytes, entry_at. simpl.
  rewrite (lookup_update_eq d tmp
             (fun ne => match e_content (snd ne) with
                        | Binary k0 => (fst ne, _)
                        | JsonText _ => ne
                        end)).
  - rewrite He. simpl. rewrite Hc. simpl. eexists. repeat split; assumption.
  - intros ne Hm. now destruct (e_content (snd ne)).
Qed.

Lemma stream_chunks_run tmp chunks : forall total w n,
  holds_bytes w tmp n ->
  exists w', stream_chunks tmp chunks total w
             = (Ok (total + fold_right (fun c acc => Z.of_N c + acc) 0 chunks), w') /\
             holds_bytes w' tmp (n + fold_right (fun c acc => Z.of_N c + acc) 0 chunks) /\
             trace w' = trace w.
Proof.
  induction chunks as [|c chunks IH]; intros total w n Hh; simpl.
  - exists w. rewrite !Z.add_0_r. auto.
  - destruct (N.ltb_spec 0 c) as [Hpos | Hz].
    + destruct (append_bytes_run tmp (Z.of_N c) w n Hh) as [w1 [H1 [Hh1 Ht1]]].
      destruct (IH (total + Z.of_N c) w1 _ Hh1) as [w2 [H2 [Hh2 Ht2]]].
      exists w2. erewrite bind_ok by exact H1. rewrite H2, !Z.add_assoc.
      split; [reflexivity|]. split; [exact Hh2 | congruence].
    + assert (c = 0%N) by lia. subst c. simpl.
      destruct (IH total w n Hh) as [w1 [H1 [Hh1 Ht1]]]. exists w1. auto.
Qed.

Lemma write_file_run tmp c t w d :
  dest w = Some d -> names_directory tmp = false -> usable_slot w tmp ->
  exists w', write_file tmp c t w = (Ok tt, w') /\ trace w' = trace w /\
             exists e, entry_at w' tmp = Some e /\ e_kind e = Regular /\
                       e_writable e = true /\ e_content e = c /\ e_mtime e = t.
Proof.
  intros Hd Hn Hu. unfold usable_slot, entry_at in Hu. rewrite Hd in Hu.
  unfold write_file, with_dest. rewrite Hd, Hn.
  destruct (lookup tmp d) as [e|] eqn:Hl.
  - destruct Hu as [Hk Hw]. rewrite Hk, Hw. unfold set_dest.
    eexists. split; [reflexivity|]. split; [reflexivity|].
    unfold entry_at. simpl.
    rewrite (lookup_update_eq d tmp (fun _ => (tmp, _))) by reflexivity.
    rewrite Hl. simpl. eexists. repeat split.
  - unfold set_dest. eexists. split; [reflexivity|]. split; [reflexivity|].
    unfold entry_at. simpl. rewrite lookup_app, Hl. simpl.
    rewrite String.eqb_refl. eexists. repeat split.
Qed.

Lemma fetch_body_run E tmp resp w d :
  dest w = Some d -> names_directory tmp = false -> usable_slot w tmp ->
  exists w',
    fetch_body E tmp resp w
    = ((if r_intact resp then Ok (body_bytes resp) else Raise RequestException), w') /\
    holds_bytes w' tmp (body_bytes resp) /\ trace w' = trace w.
Proof.
  intros Hd Hn Hu.
  destruct (write_file_run tmp (Binary 0) (now E) w d Hd Hn Hu)
    as [w1 [H1 [Ht1 [e [He [Hk [Hw [Hc _]]]]]]]].
  assert (Hh : holds_bytes w1 tmp 0) by (exists e; auto).
  destruct (stream_chunks_run tmp (r_chunks resp) 0 w1 0 Hh) as [w2 [H2 [Hh2 Ht2]]].
  exists w2. unfold fetch_body.
  erewrite bind_ok by exact H1. erewrite bind_ok by exact H2.
  split; [|split; [exact Hh2 | congruence]].
  unfold body_bytes. destruct (r_intact resp); reflexivity.
Qed.

Lemma write_file_ok_holds tmp c t w w' :
  write_file tmp c t w = (Ok tt, w') ->
  exists e, entry_at w' tmp = Some e /\ e_kind e = Regular /\
            e_writable e = true /\ e_content e = c.
Proof.
  unfold write_file, with_dest, entry_at.
  destruct (dest w) as [d|] eqn:Hd; [|discriminate].
  destruct (names_directory tmp); [discriminate|].
  destruct (lookup tmp d) as [e|] eqn:Hl.
  - destruct (e_kind e); try discriminate.
    destruct (e_writable e); [|discriminate].
    unfold set_dest. intros [= <-]. simpl.
    rewrite (lookup_update_eq d tmp (fun _ => (tmp, _))) by reflexivity.
    rewrite Hl. simpl. eexists. repeat split.
  - unfold set_dest. intros [= <-]. simpl. rewrite lookup_app, Hl. simpl.
    rewrite String.eqb_refl. eexists. repeat split.
Qed.

Lemma fetch_body_ok_holds E tmp resp w t w' :
  fetch_body E tmp resp w = (Ok t, w') -> holds_bytes w' tmp (body_bytes resp).
Proof.
  intros H. unfold fetch_body in H. unfold bind at 1 in H.
  destruct (write_file tmp (Binary 0) (now E) w) as [[[]|e] w1] eqn:Hw; [|discriminate].
  apply write_file_ok_holds in Hw as [e [He [Hk [Hwr Hc]]]].
  assert (Hh : holds_bytes w1 tmp 0) by (exists e; auto).
  destruct (stream_chunks_run tmp (r_chunks resp) 0 w1 0 Hh) as [w2 [H2 [Hh2 _]]].
  erewrite bind_ok in H by exact H2.
  unfold bind in H. destruct (r_intact resp); simpl in H; [|discriminate].
  injection H as _ <-. exact Hh2.
Qed.

Lemma replace_raise_same src dst w e w' :
  os_replace src dst w = (Raise e, w') -> w' = w.
Proof.
  unfold os_replace, with_dest.
  destruct (dest w) as [d|]; [|now intros [= _ <-]].
  destruct (lookup src d) as [x|]; [|now intros [= _ <-]].
  destruct (names_directory dst); [now intros [= _ <-]|].
  destruct (lookup dst d) as [[[] ? ? ? ?]|]; unfold set_dest, raise;
    now intros [= _ <-] || discriminate.
Qed.

Lemma replace_ok_moves src dst w w' :
  os_replace src dst w = (Ok tt, w') ->
  exists e, entry_at w src = Some e /\ entry_at w' dst = Some e /\
            trace w' = trace w /\
            (src <> dst -> entry_at w' src = None).
Proof.
  unfold os_replace, with_dest, entry_at.
  destruct (dest w) as [d|]; [|discriminate].
  destruct (lookup src d) as [x|] eqn:Hs; [|discriminate].
  destruct (names_directory dst); [discriminate|].
  assert (Hgo : forall w', set_dest (delete src (delete dst d) ++ [(dst, x)]) w
                           = (Ok tt, w') ->
          exists e, Some x = Some e /\
            match dest w' with Some d0 => lookup dst d0 | None => None end = Some e /\
            trace w' = trace w /\
            (src <> dst ->
             match dest w' with Some d0 => lookup src d0 | None => None end = None)).
  { intros w0 [= <-]. simpl. exists x. split; [reflexivity|].
    rewrite !lookup_app. split; [|split; [reflexivity|]].
    - destruct (String.eqb_spec src dst) as [-> | Hne].
      + rewrite lookup_delete_eq. simpl. now rewrite String.eqb_refl.
      + rewrite lookup_delete_ne, lookup_delete_eq by congruence.
        simpl. now rewrite String.eqb_refl.
    - intros Hne. rewrite lookup_delete_eq. simpl.
      destruct (String.eqb_spec dst src); [congruence | reflexivity]. }
  destruct (lookup dst d) as [[[] ? ? ? ?]|]; try discriminate; apply Hgo.
Qed.

Lemma record_download_ok E index filename url w :
  exists w', record_download E index filename url w = (Ok tt, w').
Proof.
  unfold record_download. destruct (is_truthy_name index) as [i|].
  - unfold try_except.
    destruct (update_index E i filename url w) as [[[]|e] w1].
    + now exists w1.
    + simpl. eexists. reflexivity.
  - now exists w.
Qed.

(** A media file is never taken for the index: reading it as JSON fails
    before anything is written. *)
Lemma record_download_keeps_media E index filename url w n k :
  holds_bytes w n k ->
  holds_bytes (snd (record_download E index filename url w)) n k.
Proof.
  intros Hh. unfold record_download.
  destruct (is_truthy_name index) as [i|]; [|exact Hh].
  destruct (String.eqb_spec n i) as [<- | Hne].
  - destruct Hh as [e [He [Hk [Hw Hc]]]].
    assert (Hu : exists w' x, update_index E n filename url w = (Raise x, w') /\
                              dest w' = dest w).
    { unfold entry_at in He. destruct (dest w) as [d|] eqn:Hd; [|discriminate].
      unfold update_index, bind, os_path_exists, read_file, with_dest.
      rewrite Hd, He, orb_true_r.
      destruct (names_directory n);
        [rewrite Hd; eexists; eexists; split; [reflexivity | assumption]|].
      rewrite Hd, He, Hk. destruct (e_readable e).
      - rewrite Hc. eexists. eexists. split; [reflexivity | assumption].
      - eexists. eexists. split; [reflexivity | assumption]. }
    destruct Hu as [w' [x [Hu Hd]]].
    unfold try_except. rewrite Hu. simpl.
    exists e. unfold entry_at in *. simpl. rewrite Hd. auto.
  - destruct Hh as [e [He Hrest]]. exists e. split; [|exact Hrest].
    rewrite <- He.
    assert (Hs : respects (stays n)
                   (try_except (update_index E i filename url) is_Exception
                      (fun e0 => logging WARNING "Failed to update %s: %s"
                                         [AStr i; AExn e0]))).
    { unfold update_index, json_load. stays_auto. }
    apply Hs.
Qed.

Lemma logging_entry lvl fmt args w n :
  entry_at (snd (logging lvl fmt args w)) n = entry_at w n.
Proof. reflexivity. Qed.

(** [transfer] at the final name: either it leaves the entry there as it
    was, or the whole body came, at least [MIN_FILESIZE_BYTES] of it, and
    now sits there. *)
Lemma transfer_gate E url index w resp :
  get_of E url = Some resp ->
  let final := saved_name resp url in
  let out := transfer E url index w in
  entry_at (snd out) final = entry_at w final \/
  (r_ok resp = true /\ r_intact resp = true /\
   MIN_FILESIZE_BYTES <= body_bytes resp /\ fst out = Ok true /\
   holds_bytes (snd out) final (body_bytes resp)).
Proof.
  intros Hget final out. subst out.
  destruct (transfer E url index w) as [r wf] eqn:Hout. cbn [fst snd].
  unfold transfer in Hout. rewrite Hget in Hout.
  unfold bind at 1 in Hout. unfold emit at 1 in Hout. cbv beta iota in Hout.
  set (w1 := mkWorld (dest w) (trace w ++ [Get url])) in Hout.
  assert (H1 : entry_at w1 final = entry_at w final) by reflexivity.
  fold final in Hout. set (tmp := (final ++ ".part")%string) in Hout.
  assert (Hne : final <> tmp) by apply part_name_differs.
  destruct (r_ok resp) eqn:Hok; cbn [negb] in Hout; cbv iota in Hout;
    [|left; now injection Hout as _ <-].
  unfold bind at 1 in Hout.
  pose proof (fetch_body_stays E final tmp resp Hne w1) as H2. unfold stays in H2.
  destruct (fetch_body E tmp resp w1) as [[t|e] w2] eqn:Hf; cbn [snd] in H2.
  - destruct (fetch_body_result _ _ _ _ _ _ Hf) as [-> Hint].
    apply fetch_body_ok_holds in Hf as Hh.
    destruct (Z.ltb_spec (body_bytes resp) MIN_FILESIZE_BYTES) as [Hsmall | Hbig].
    + left. rewrite <- H1, <- H2.
      match type of Hout with
      | ?k w2 = _ => assert (Hs : respects (stays final) k) by stays_auto
      end.
      specialize (Hs w2). rewrite Hout in Hs. exact Hs.
    + unfold bind at 1 in Hout.
      destruct (os_replace tmp final w2) as [[[]|e] w3] eqn:Hr.
      * right. apply replace_ok_moves in Hr as [e [Hsrc [Hdst [Htr _]]]].
        destruct Hh as [e' [He' Hrest]]. rewrite He' in Hsrc. injection Hsrc as <-.
        assert (Hh3 : holds_bytes w3 final (body_bytes resp)) by (exists e'; auto).
        erewrite bind_ok in Hout by apply run_logging.
        cbv beta in Hout. unfold bind at 1 in Hout.
        match type of Hout with
        | context [record_download E index final url ?x] => set (w4 := x) in Hout
        end.
        assert (Hh4 : holds_bytes w4 final (body_bytes resp)) by exact Hh3.
        pose proof (record_download_keeps_media E index final url w4 _ _ Hh4) as Hh5.
        destruct (record_download_ok E index final url w4) as [w5 H5].
        rewrite H5 in Hh5, Hout. simpl in Hh5. injection Hout as <- <-. auto.
      * left. apply replace_raise_same in Hr. subst w3.
        injection Hout as _ <-. congruence.
  - left. injection Hout as _ <-. congruence.
Qed.

Lemma remove_run_holds tmp w n :
  names_directory tmp = false -> holds_bytes w tmp n ->
  exists w', os_remove tmp w = (Ok tt, w') /\ entry_at w' tmp = None /\
             trace w' = trace w /\ dest w' <> None.
Proof.
  intros Hn [e [He [Hk _]]]. unfold entry_at in He.
  destruct (dest w) as [d|] eqn:Hd; [|discriminate].
  unfold os_remove, with_dest. rewrite Hd, Hn, He.
  unfold is_directory. rewrite Hk. unfold set_dest.
  eexists. split; [reflexivity|]. unfold entry_at. simpl.
  split; [apply lookup_delete_eq | split; [reflexivity | discriminate]].
Qed.

Lemma holds_usable w tmp n : holds_bytes w tmp n -> usable_slot w tmp.
Proof.
  intros [e [He [Hk [Hw _]]]]. unfold usable_slot. rewrite He. auto.
Qed.

Lemma usable_same w w' tmp :
  entry_at w' tmp = entry_at w tmp -> usable_slot w tmp -> usable_slot w' tmp.
Proof. unfold usable_slot. now intros ->. Qed.

(** An undersized body never gets past the gate, provided the temporary
    file can be written. *)
Lemma transfer_undersized E url index w resp d :
  dest w = Some d ->
  get_of E url = Some resp ->
  let tmp := (saved_name resp url ++ ".part")%string in
  body_bytes resp < MIN_FILESIZE_BYTES ->
  usable_slot w tmp ->
  let out := try_except (transfer E url index) is_RequestException
      (fun e => logging ERROR "Failed to download %s: %s" [AStr url; AExn e] ;;;
                ret false)%M w in
  fst out = Ok false /\ usable_slot (snd out) tmp /\ dest (snd out) <> None /\
  (r_ok resp = true -> r_intact resp = true -> entry_at (snd out) tmp = None).
Proof.
  intros Hd Hget tmp Hsmall Hu out. subst out.
  match goal with |- context [fst ?o] => destruct o as [r wf] eqn:Hout end.
  cbn [fst snd].
  unfold transfer in Hout. rewrite Hget in Hout. unfold try_except at 1 in Hout.
  unfold bind at 1 in Hout. unfold emit at 1 in Hout. cbv beta iota in Hout.
  set (w1 := mkWorld (dest w) (trace w ++ [Get url])) in Hout.
  assert (Hd1 : dest w1 = Some d) by exact Hd.
  assert (Hu1 : usable_slot w1 tmp) by exact Hu.
  destruct (r_ok resp) eqn:Hok; cbn [negb] in Hout; cbv iota in Hout.
  - fold tmp in Hout.
    destruct (fetch_body_run E tmp resp w1 d Hd1 (part_name_proper _) Hu1)
      as [w2 [Hf [Hh Htr]]].
    destruct (r_intact resp) eqn:Hint.
    + erewrite bind_ok in Hout by exact Hf.
      destruct (Z.ltb_spec (body_bytes resp) MIN_FILESIZE_BYTES) as [_ | ?]; [|lia].
      destruct (remove_run_holds tmp w2 _ (part_name_proper _) Hh)
        as [w3 [Hr [Hnone [Htr3 Hd3]]]].
      erewrite bind_ok in Hout; [|erewrite try_ok; [reflexivity | exact Hr]].
      erewrite bind_ok in Hout by apply run_logging.
      injection Hout as <- <-. cbn [dest].
      repeat split; auto.
      unfold usable_slot, entry_at in *. cbn [dest]. now rewrite Hnone.
    + erewrite bind_raise in Hout by exact Hf. cbn [is_RequestException] in Hout.
      erewrite bind_ok in Hout by apply run_logging.
      injection Hout as <- <-. cbn [dest].
      assert (Hd2 : dest w2 <> None).
      { destruct Hh as [e [He _]]. unfold entry_at in He.
        destruct (dest w2); discriminate. }
      repeat split; auto; [|discriminate].
      apply holds_usable in Hh. exact Hh.
  - cbn [raise is_RequestException] in Hout.
    erewrite bind_ok in Hout by apply run_logging.
    injection Hout as <- <-. cbn [dest].
    repeat split; auto; [congruence | discriminate].
Qed.

Lemma makedirs_dest w : exists d, dest (snd (os_makedirs w)) = Some d.
Proof. unfold os_makedirs. destruct (dest w) as [d|] eqn:Hd; simpl; eauto. Qed.

Lemma download_file_no_response E url index w :
  get_of E url = None ->
  fst (download_file E url index w) = Ok false /\
  forall n, entry_at (snd (download_file E url index w)) n = entry_at w n.
Proof.
  intros Hget. destruct (probe_rejects E url) eqn:Hp.
  - rewrite download_file_rejected by exact Hp. cbn [fst snd].
    split; [reflexivity|]. intros n. apply makedirs_stays.
  - rewrite download_file_proceeds by exact Hp.
    unfold transfer. rewrite Hget.
    erewrite try_caught; cycle 1.
    { erewrite bind_ok by reflexivity. reflexivity. }
    { reflexivity. }
    erewrite bind_ok by apply run_logging. cbn [ret fst snd].
    split; [reflexivity|]. intros n. apply makedirs_stays.
Qed.


(** ** The ledger *)

Lemma replace_run src dst w e :
  entry_at w src = Some e -> promotable w dst ->
  exists w', os_replace src dst w = (Ok tt, w') /\ entry_at w' dst = Some e /\
             trace w' = trace w /\ dest w' <> None.
Proof.
  intros Hs [Hn Hd]. unfold entry_at in *.
  destruct (dest w) as [d|] eqn:Hdw; [|discriminate].
  unfold os_replace, with_dest. rewrite Hdw, Hs, Hn.
  assert (Hgo : exists w', set_dest (delete src (delete dst d) ++ [(dst, e)]) w
                           = (Ok tt, w') /\
          match dest w' with Some d0 => lookup dst d0 | None => None end = Some e /\
          trace w' = trace w /\ dest w' <> None).
  { eexists. split; [reflexivity|]. simpl. split; [|split; [reflexivity | discriminate]].
    rewrite lookup_app.
    destruct (String.eqb_spec src dst) as [-> | Hne].
    - rewrite lookup_delete_eq. simpl. now rewrite String.eqb_refl.
    - rewrite lookup_delete_ne, lookup_delete_eq by congruence.
      simpl. now rewrite String.eqb_refl. }
  destruct (lookup dst d) as [[[] ? ? ? ?]|]; try exact Hgo.
  discriminate.
Qed.

(** An accepted download, up to the index update. *)
Lemma download_file_accepted E url index w resp :
  get_of E url = Some resp ->
  let final := saved_name resp url in
  let tmp := (final ++ ".part")%string in
  probe_rejects E url = false ->
  r_ok resp = true -> r_intact resp = true ->
  MIN_FILESIZE_BYTES <= body_bytes resp ->
  usable_slot w tmp -> promotable w final ->
  exists wp,
    download_file E url index w
    = (Ok true, snd (record_download E index final url wp)) /\
    holds_bytes wp final (body_bytes resp) /\
    (forall n, n <> final -> n <> tmp -> entry_at wp n = entry_at w n) /\
    dest wp <> None /\
    trace wp = trace w ++ [Head url; Get url;
                           Log INFO "Downloaded: %s (%d bytes)"
                               [AStr final; AInt (body_bytes resp)]].
Proof.
  intros Hget final tmp Hp Hok Hint Hbig Hu Hprom.
  rewrite download_file_proceeds by exact Hp.
  set (w2 := mkWorld (dest (snd (os_makedirs w))) (trace w ++ [Head url])).
  assert (H2 : forall n, entry_at w2 n = entry_at w n)
    by (intros n; apply makedirs_stays).
  destruct (makedirs_dest w) as [d Hd].
  unfold transfer. rewrite Hget, Hok. cbn [negb]. cbv iota. fold final tmp.
  unfold try_except. unfold bind at 1. unfold emit at 1. cbv beta iota.
  set (w3 := mkWorld (dest w2) (trace w2 ++ [Get url])).
  assert (H3 : forall n, entry_at w3 n = entry_at w n) by exact H2.
  assert (Hu3 : usable_slot w3 tmp) by (apply usable_same with w; auto).
  destruct (fetch_body_run E tmp resp w3 d Hd (part_name_proper _) Hu3)
    as [w4 [Hf [Hh Htr4]]].
  rewrite Hint in Hf.
  pose proof (fun n Hne => fetch_body_stays E n tmp resp Hne w3) as H4.
  rewrite Hf in H4. unfold stays in H4. cbn [snd] in H4.
  erewrite bind_ok by exact Hf.
  destruct (Z.ltb_spec (body_bytes resp) MIN_FILESIZE_BYTES) as [? | _]; [lia|].
  destruct Hh as [e [He Hrest]].
  assert (Hprom4 : promotable w4 final).
  { destruct Hprom as [Hn Hd']. split; [exact Hn|].
    rewrite H4, H3 by apply part_name_differs. exact Hd'. }
  destruct (replace_run tmp final w4 e He Hprom4) as [w5 [Hr [Hdst [Htr5 Hd5]]]].
  pose proof (fun n H1 H2 => replace_stays n tmp final H1 H2 w4) as H5.
  rewrite Hr in H5. unfold stays in H5. cbn [snd] in H5.
  erewrite bind_ok by exact Hr.
  erewrite bind_ok by apply run_logging.
  set (wp := mkWorld (dest w5) _).
  destruct (record_download_ok E index final url wp) as [w6 H6].
  erewrite bind_ok by exact H6. cbn [ret].
  exists wp. rewrite H6. split; [reflexivity|].
  split; [exists e; auto|]. split; [|split; [exact Hd5|]].
  - intros n Hnf Hnt. transitivity (entry_at w5 n); [reflexivity|].
    rewrite H5, H4, H3 by assumption. reflexivity.
  - subst wp. cbn [trace]. rewrite Htr5, Htr4. subst w3 w2. cbn [trace].
    now rewrite <- !app_assoc.
Qed.

Lemma exists_run w d n :
  dest w = Some d -> names_directory n = false ->
  os_path_exists n w
  = (Ok (match lookup n d with Some _ => true | None => false end), w).
Proof. intros Hd Hn. unfold os_path_exists. now rewrite Hd, Hn. Qed.

(** The three ways [record_download] can go. *)
Lemma record_download_absent E i filename url w d :
  dest w = Some d -> i <> "" -> view_ledger w i = NoLedger ->
  exists w', record_download E (Some i) filename url w = (Ok tt, w') /\
             ledger_holds w' i [ledger_entry filename (utcnow_iso E) url].
Proof.
  intros Hd Hi Hv. unfold view_ledger, entry_at in Hv. rewrite Hd in Hv.
  destruct (names_directory i) eqn:Hn; [discriminate|].
  destruct (lookup i d) as [e|] eqn:Hl.
  { destruct (e_kind e), (e_content e) as [|[]]; try discriminate.
    destruct (e_readable e && e_writable e); discriminate. }
  unfold record_download. destruct i as [|a i]; [contradiction|]. cbn [is_truthy_name].
  unfold update_index.
  assert (Hu : usable_slot w (String a i)).
  { unfold usable_slot, entry_at. now rewrite Hd, Hl. }
  destruct (write_file_run (String a i)
              (JsonText (VList [ledger_entry filename (utcnow_iso E) url]))
              (now E) w d Hd Hn Hu) as [w1 [Hw [_ [e [He [Hk [_ [Hc _]]]]]]]].
  eexists. split.
  - erewrite try_ok; [reflexivity|].
    erewrite bind_ok by (rewrite (exists_run w d) by assumption; rewrite Hl; reflexivity).
    erewrite bind_ok by reflexivity. erewrite bind_ok by reflexivity.
    erewrite bind_ok by exact Hw. apply run_logging.
  - exists e. auto.
Qed.

Lemma record_download_prepends E i filename url w d l :
  dest w = Some d -> i <> "" -> view_ledger w i = Ledger l ->
  exists w', record_download E (Some i) filename url w = (Ok tt, w') /\
             ledger_holds w' i (ledger_entry filename (utcnow_iso E) url :: l).
Proof.
  intros Hd Hi Hv. unfold view_ledger, entry_at in Hv. rewrite Hd in Hv.
  destruct (names_directory i) eqn:Hn; [discriminate|].
  destruct (lookup i d) as [e|] eqn:Hl; [|discriminate].
  destruct (e_kind e) eqn:Hk; try (destruct (e_content e); discriminate).
  destruct (e_content e) as [|[]] eqn:Hc; try discriminate.
  destruct (e_readable e) eqn:Hr; [|discriminate].
  destruct (e_writable e) eqn:Hw; [|discriminate].
  injection Hv as ->.
  unfold record_download. destruct i as [|a i]; [contradiction|]. cbn [is_truthy_name].
  unfold update_index.
  assert (Hu : usable_slot w (String a i)).
  { unfold usable_slot, entry_at. rewrite Hd, Hl. auto. }
  destruct (write_file_run (String a i)
              (JsonText (VList (ledger_entry filename (utcnow_iso E) url :: l)))
              (now E) w d Hd Hn Hu) as [w1 [Hwf [_ [e' [He' [Hk' [_ [Hc' _]]]]]]]].
  eexists. split.
  - erewrite try_ok; [reflexivity|].
    erewrite bind_ok by (rewrite (exists_run w d) by assumption; rewrite Hl; reflexivity).
    erewrite bind_ok.
    2:{ erewrite bind_ok; cycle 1.
        - unfold read_file, with_dest. rewrite Hd, Hn, Hl, Hk, Hr, Hc. reflexivity.
        - reflexivity. }
    erewrite bind_ok by reflexivity.
    erewrite bind_ok by exact Hwf. apply run_logging.
  - exists e'. auto.
Qed.

Lemma read_file_run n w d :
  dest w = Some d ->
  read_file n w
  = ((if names_directory n then Raise IsADirectoryError else
      match lookup n d with
      | None => Raise FileNotFoundError
      | Some e =>
          match e_kind e with
          | Regular => if e_readable e then Ok (e_content e)
                       else Raise PermissionError
          | _ => Raise IsADirectoryError
          end
      end), w).
Proof.
  intros Hd. unfold read_file, with_dest. rewrite Hd.
  destruct (names_directory n); [reflexivity|].
  destruct (lookup n d) as [e|]; [|reflexivity].
  destruct (e_kind e); try reflexivity. now destruct (e_readable e).
Qed.

Lemma write_file_denied n c t w d e :
  dest w = Some d -> names_directory n = false -> lookup n d = Some e ->
  e_kind e = Regular -> e_writable e = false ->
  write_file n c t w = (Raise PermissionError, w).
Proof.
  intros Hd Hn Hl Hk Hw. unfold write_file, with_dest.
  now rewrite Hd, Hn, Hl, Hk, Hw.
Qed.

Lemma update_index_broken E i filename url w d :
  dest w = Some d -> view_ledger w i = Broken ->
  exists x, update_index E i filename url w = (Raise x, w).
Proof.
  intros Hd Hv. unfold view_ledger, entry_at in Hv. rewrite Hd in Hv.
  unfold update_index.
  destruct (names_directory i) eqn:Hn.
  - eexists. erewrite bind_ok.
    2:{ unfold os_path_exists. rewrite Hd, Hn. reflexivity. }
    cbv beta iota. cbn [orb].
    erewrite bind_raise; [reflexivity|].
    erewrite bind_raise; [reflexivity|].
    rewrite (read_file_run i w d Hd), Hn. reflexivity.
  - destruct (lookup i d) as [e|] eqn:Hl; [|discriminate].
    erewrite bind_ok by (rewrite (exists_run w d) by assumption; rewrite Hl; reflexivity).
    cbv beta iota.
    assert (Hread : read_file i w
                    = (match e_kind e with
                       | Regular => if e_readable e then Ok (e_content e)
                                    else Raise PermissionError
                       | _ => Raise IsADirectoryError
                       end, w)).
    { now rewrite (read_file_run i w d Hd), Hn, Hl. }
    destruct (e_kind e) eqn:Hk.
    2,3: eexists; erewrite bind_raise; [reflexivity|];
         erewrite bind_raise; [reflexivity | exact Hread].
    destruct (e_readable e) eqn:Hr.
    2: eexists; erewrite bind_raise; [reflexivity|];
       erewrite bind_raise; [reflexivity | exact Hread].
    destruct (e_content e) as [k|v] eqn:Hc.
    { eexists. erewrite bind_raise; [reflexivity|].
      erewrite bind_ok by exact Hread. reflexivity. }
    assert (Hload : (c <- read_file i ;; json_load c)%M w = (Ok v, w)).
    { erewrite bind_ok by exact Hread. reflexivity. }
    erewrite bind_ok by exact Hload.
    destruct v; try (eexists; erewrite bind_raise; reflexivity).
    cbn [andb] in Hv. destruct (e_writable e) eqn:Hw; [discriminate|].
    eexists. erewrite bind_ok by reflexivity.
    erewrite bind_raise; [reflexivity|].
    now apply write_file_denied with d e.
Qed.

Lemma record_download_broken E i filename url w d :
  dest w = Some d -> i <> "" -> view_ledger w i = Broken ->
  exists x, record_download E (Some i) filename url w
            = (Ok tt, mkWorld (dest w)
                        (trace w ++ [Log WARNING "Failed to update %s: %s"
                                         [AStr i; AExn x]])).
Proof.
  intros Hd Hi Hv.
  destruct (update_index_broken E i filename url w d Hd Hv) as [x Hx]. exists x.
  unfold record_download. destruct i as [|a i]; [contradiction|]. cbn [is_truthy_name].
  erewrite try_caught; [apply run_logging | exact Hx | reflexivity].
Qed.

Lemma is_truthy_name_some index i :
  is_truthy_name index = Some i -> index = Some i /\ i <> "".
Proof.
  destruct index as [[|a s]|]; simpl; try discriminate.
  intros [= <-]. split; [reflexivity | discriminate].
Qed.

Lemma view_ledger_same w w' i :
  entry_at w' i = entry_at w i -> view_ledger w' i = view_ledger w i.
Proof. unfold view_ledger. now intros ->. Qed.


(** ** Listings stay proper *)

Lemma lookup_none_names (d : listing) n : lookup n d = None -> ~ In n (map fst d).
Proof.
  induction d as [|[n' e'] d IH]; simpl; [tauto|].
  destruct (String.eqb_spec n' n) as [-> | Hne]; [discriminate|].
  intros H [Heq | Hin]; [contradiction | now apply IH].
Qed.

Lemma names_filter (p : string * entry -> bool) (d : listing) n :
  In n (map fst (filter p d)) -> In n (map fst d).
Proof.
  rewrite !in_map_iff. intros [x [Hx Hin]]. apply filter_In in Hin as [Hin _]. eauto.
Qed.

Lemma nodup_names_filter (p : string * entry -> bool) (d : listing) :
  NoDup (map fst d) -> NoDup (map fst (filter p d)).
Proof.
  induction d as [|[n e] d IH]; simpl; [auto|].
  intros Hnd. inversion Hnd as [|? ? Hnot Hnd']; subst.
  destruct (p (n, e)); simpl; [|now apply IH].
  constructor; [|now apply IH]. intros Hin. apply Hnot. now apply names_filter in Hin.
Qed.

Lemma wf_filter (p : string * entry -> bool) (d : listing) :
  wf_listing d -> wf_listing (filter p d).
Proof.
  intros [Hnd Hn]. split; [now apply nodup_names_filter|].
  intros n e Hin. apply filter_In in Hin as [Hin _]. eauto.
Qed.

Lemma wf_add (d : listing) n e :
  wf_listing d -> ~ In n (map fst d) -> names_directory n = false ->
  wf_listing (d ++ [(n, e)]).
Proof.
  intros [Hnd Hn] Hnew Hname. split.
  - rewrite map_app. simpl. apply NoDup_app.
    + exact Hnd.
    + constructor; [intros [] | constructor].
    + intros x Hx [<- | []]. contradiction.
  - intros n' e' Hin. apply in_app_or in Hin as [Hin | [[= <- <-] | []]]; eauto.
Qed.

Lemma wf_update (d : listing) m (g : string * entry -> string * entry) :
  (forall ne, fst ne = m -> fst (g ne) = m) ->
  wf_listing d ->
  wf_listing (map (fun ne => if String.eqb (fst ne) m then g ne else ne) d).
Proof.
  intros Hg [Hnd Hn].
  assert (Hnames : map fst (map (fun ne => if String.eqb (fst ne) m then g ne else ne) d)
                   = map fst d).
  { rewrite map_map. apply map_ext. intros ne.
    destruct (String.eqb_spec (fst ne) m) as [Heq | _]; [|reflexivity].
    rewrite Hg by exact Heq. now symmetry. }
  split; [now rewrite Hnames|].
  intros n e Hin.
  assert (Hin' : In n (map fst d)).
  { rewrite <- Hnames. change n with (fst (n, e)). now apply in_map. }
  apply in_map_iff in Hin' as [[n' e'] [Heq Hin']]. simpl in Heq. subst n'. eauto.
Qed.

Lemma set_dest_wf d : wf_listing d -> respects keeps_wf (set_dest d).
Proof. intros Hwf w _. exact Hwf. Qed.

Lemma remove_keeps_wf n : respects keeps_wf (os_remove n).
Proof.
  intros w Hwf. unfold os_remove, with_dest. unfold world_wf in Hwf.
  destruct (dest w) as [d|] eqn:Hd; [|unfold world_wf; simpl; now rewrite Hd].
  assert (Hsame : world_wf w) by (unfold world_wf; now rewrite Hd).
  destruct (names_directory n); [exact Hsame|].
  destruct (lookup n d) as [e|]; [|exact Hsame].
  destruct (is_directory e); [exact Hsame|].
  now apply wf_filter.
Qed.

Lemma write_file_keeps_wf n c t : respects keeps_wf (write_file n c t).
Proof.
  intros w Hwf. unfold write_file, with_dest. unfold world_wf in Hwf.
  destruct (dest w) as [d|] eqn:Hd; [|unfold world_wf; simpl; now rewrite Hd].
  assert (Hsame : world_wf w) by (unfold world_wf; now rewrite Hd).
  destruct (names_directory n) eqn:Hn; [exact Hsame|].
  destruct (lookup n d) as [e|] eqn:Hl.
  - destruct (e_kind e); try exact Hsame.
    destruct (e_writable e); [|exact Hsame].
    now apply (wf_update d n (fun _ => (n, _))).
  - apply wf_add; auto. now apply lookup_none_names.
Qed.

Lemma append_bytes_keeps_wf n k : respects keeps_wf (append_bytes n k).
Proof.
  intros w Hwf. unfold append_bytes, with_dest. unfold world_wf in Hwf.
  destruct (dest w) as [d|] eqn:Hd; [|unfold world_wf; simpl; now rewrite Hd].
  apply (wf_update d n
           (fun ne => match e_content (snd ne) with
                      | Binary k0 => (fst ne, _)
                      | JsonText _ => ne
                      end)); [|exact Hwf].
  intros ne Hm. now destruct (e_content (snd ne)).
Qed.

Lemma replace_keeps_wf src dst : respects keeps_wf (os_replace src dst).
Proof.
  intros w Hwf. unfold os_replace, with_dest. unfold world_wf in Hwf.
  destruct (dest w) as [d|] eqn:Hd; [|unfold world_wf; simpl; now rewrite Hd].
  assert (Hsame : world_wf w) by (unfold world_wf; now rewrite Hd).
  destruct (lookup src d) as [e|]; [|exact Hsame].
  destruct (names_directory dst) eqn:Hn; [exact Hsame|].
  assert (Hgo : wf_listing (delete src (delete dst d) ++ [(dst, e)])).
  { apply wf_add; [now apply wf_filter, wf_filter | | exact Hn].
    intros Hin. apply names_filter in Hin.
    apply in_map_iff in Hin as [[n x] [Heq Hin]]. simpl in Heq. subst n.
    apply filter_In in Hin as [_ Hneq]. simpl in Hneq.
    now rewrite String.eqb_refl in Hneq. }
  destruct (lookup dst d) as [[[] ? ? ? ?]|]; try exact Hgo. exact Hsame.
Qed.

Lemma quiet_keeps_wf {A} (m : M A) :
  (forall w, dest (snd (m w)) = dest w) -> respects keeps_wf m.
Proof. intros H w Hwf. unfold world_wf in *. now rewrite H. Qed.

Lemma listdir_keeps_wf : respects keeps_wf os_listdir.
Proof.
  apply quiet_keeps_wf. intros w. unfold os_listdir, with_dest.
  destruct (dest w) eqn:Hd; simpl; congruence.
Qed.

Lemma getmtime_keeps_wf n : respects keeps_wf (os_path_getmtime n).
Proof.
  apply quiet_keeps_wf. intros w. unfold os_path_getmtime, with_dest.
  destruct (dest w) as [d|] eqn:Hd; [|simpl; congruence].
  destruct (names_directory n); [simpl; congruence|].
  destruct (lookup n d); simpl; congruence.
Qed.

Lemma exists_keeps_wf n : respects keeps_wf (os_path_exists n).
Proof.
  apply quiet_keeps_wf. intros w. unfold os_path_exists.
  destruct (dest w) eqn:Hd; simpl; congruence.
Qed.

Lemma isfile_keeps_wf n : respects keeps_wf (os_path_isfile n).
Proof.
  apply quiet_keeps_wf. intros w. unfold os_path_isfile.
  destruct (dest w) eqn:Hd; simpl; congruence.
Qed.

Lemma read_file_keeps_wf n : respects keeps_wf (read_file n).
Proof.
  apply quiet_keeps_wf. intros w. unfold read_file, with_dest.
  destruct (dest w) as [d|] eqn:Hd; [|simpl; congruence].
  destruct (names_directory n); [simpl; congruence|].
  destruct (lookup n d) as [e|]; [|simpl; congruence].
  destruct (e_kind e); try (simpl; congruence).
  destruct (e_readable e); simpl; congruence.
Qed.

#[local] Hint Resolve remove_keeps_wf write_file_keeps_wf append_bytes_keeps_wf
  replace_keeps_wf listdir_keeps_wf getmtime_keeps_wf exists_keeps_wf
  isfile_keeps_wf read_file_keeps_wf : wf_db.

Lemma stream_chunks_keeps_wf tmp chunks : forall total,
  respects keeps_wf (stream_chunks tmp chunks total).
Proof. induction chunks as [|c chunks IH]; intros total; simpl; wf_auto. Qed.

#[local] Hint Resolve stream_chunks_keeps_wf : wf_db.

Lemma download_file_keeps_wf E url index : respects keeps_wf (download_file E url index).
Proof.
  unfold download_file, download_attempt, transfer, preflight, fetch_body,
    record_download, update_index, json_load.
  wf_auto.
Qed.

#[local] Hint Resolve download_file_keeps_wf : wf_db.

Lemma download_all_keeps_wf E index urls : respects keeps_wf (download_all E index urls).
Proof. induction urls as [|u urls IH]; simpl; wf_auto. Qed.

Lemma prune_files_keeps_wf E keep_days max_files :
  respects keeps_wf (prune_files E keep_days max_files).
Proof. unfold prune_files, stat_all. wf_auto. Qed.

(** ** Mirroring *)

Lemma world_eta w : w = mkWorld (dest w) (trace w).
Proof. now destruct w. Qed.

Lemma lookup_filter (p : string * entry -> bool) (d : listing) n :
  NoDup (map fst d) ->
  lookup n (filter p d)
  = match lookup n d with
    | Some e => if p (n, e) then Some e else None
    | None => None
    end.
Proof.
  induction d as [|[n' e'] d IH]; simpl; [reflexivity|].
  intros Hnd. inversion Hnd as [|? ? Hnot Hnd']; subst.
  destruct (String.eqb_spec n' n) as [-> | Hne].
  - destruct (p (n, e')) eqn:Hp; simpl.
    + now rewrite String.eqb_refl.
    + rewrite IH by exact Hnd'.
      destruct (lookup n d) as [e|] eqn:Hl; [|reflexivity].
      exfalso. apply Hnot. apply lookup_some_in in Hl.
      change n with (fst (n, e)). now apply in_map.
  - destruct (p (n', e')); simpl; [|now apply IH].
    destruct (String.eqb_spec n' n); [contradiction | now apply IH].
Qed.

(** The loop of [mirror_missing_files] over entries of the directory:
    those that are not directories go, the directories stay, with a
    warning. *)
Lemma mirror_each (l : listing) : forall d tr,
  NoDup (map fst l) ->
  (forall n e, In (n, e) l -> names_directory n = false /\ lookup n d = Some e) ->
  exists tr',
    forM_ (map fst l) (fun f =>
      try_except
        (os_remove f ;;; logging INFO "Mirrored deletion: %s" [AStr f])%M
        is_Exception
        (fun e => logging WARNING "Failed to delete %s: %s" [AStr f; AExn e]))
      (mkWorld (Some d) tr)
    = (Ok tt,
       mkWorld (Some (filter (fun ne =>
                       negb (mem (fst ne)
                              (map fst (filter (fun x => negb (is_directory (snd x))) l))))
                       d))
               tr').
Proof.
  induction l as [|[n e] l IH]; intros d tr Hnd H.
  - exists tr. simpl. unfold ret. now rewrite filter_all.
  - destruct (H n e (or_introl eq_refl)) as [Hn Hl].
    inversion Hnd as [|? ? Hnot Hnd']; subst.
    cbn [map fst forM_ filter snd].
    destruct (is_directory e) eqn:He; cbn [negb].
    + erewrite bind_ok.
      2:{ erewrite try_caught; [apply run_logging | | reflexivity].
          erewrite bind_raise; [reflexivity|].
          now apply run_remove_directory with e. }
      cbn [dest trace]. apply IH; [exact Hnd'|].
      intros n' e' Hin. apply H. now right.
    + erewrite bind_ok.
      2:{ erewrite try_ok; [reflexivity|].
          erewrite bind_ok; [apply run_logging | now apply run_remove with e]. }
      cbn [dest trace].
      destruct (IH (delete n d)
                   (tr ++ [Log INFO "Mirrored deletion: %s" [AStr n]]) Hnd')
        as [tr' Htr'].
      { intros n' e' Hin. destruct (H n' e' (or_intror Hin)) as [Hn' Hl'].
        split; [exact Hn'|]. rewrite lookup_delete_ne; [exact Hl'|].
        intros ->. apply Hnot. change n with (fst (n, e')). now apply in_map. }
      exists tr'. rewrite Htr'. f_equal. f_equal. f_equal.
      rewrite (delete_then_filter d n
                 (fun x => mem x (map fst (filter (fun x0 => negb (is_directory (snd x0))) l)))).
      apply filter_ext. intros [n' e']. cbn [fst map mem existsb].
      now rewrite (String.eqb_sym n n').
Qed.

Lemma filter_names (p : string -> bool) (d : listing) :
  filter p (map fst d) = map fst (filter (fun ne => p (fst ne)) d).
Proof.
  induction d as [|[n e] d IH]; simpl; [reflexivity|].
  destruct (p n); simpl; now rewrite IH.
Qed.

(** [mirror_missing_files] on a proper listing: what stays is what the
    keep-set names, and the directories. *)
Lemma mirror_missing_files_run names d tr :
  wf_listing d ->
  exists tr',
    mirror_missing_files names (mkWorld (Some d) tr)
    = (Ok tt,
       mkWorld (Some (filter (fun ne => mem (fst ne) names || is_directory (snd ne)) d))
               tr').
Proof.
  intros [Hnd Hnames]. unfold mirror_missing_files.
  erewrite bind_ok.
  2:{ erewrite try_ok; [reflexivity|].
      erewrite bind_ok; [reflexivity | apply run_listdir]. }
  cbv beta iota zeta.
  rewrite (filter_names (fun f => negb (mem f names)) d).
  set (l := filter (fun ne => negb (mem (fst ne) names)) d).
  destruct (mirror_each l d tr) as [tr' Htr'].
  - now apply nodup_names_filter.
  - intros n e Hin. apply filter_In in Hin as [Hin _].
    split; [eauto | now apply lookup_in].
  - exists tr'. rewrite Htr'. f_equal. f_equal. f_equal.
    apply filter_ext_in. intros [n e] Hin. cbn [fst snd].
    destruct (mem n names) eqn:Hm; cbn [orb].
    + apply negb_true_iff, mem_false. intros Hin'.
      apply in_map_iff in Hin' as [[n' e'] [Heq Hin']]. simpl in Heq. subst n'.
      apply filter_In in Hin' as [Hin' _]. unfold l in Hin'.
      apply filter_In in Hin' as [_ Hk]. simpl in Hk. now rewrite Hm in Hk.
    + destruct (is_directory e) eqn:He.
      * apply negb_true_iff, mem_false. intros Hin'.
        apply in_map_iff in Hin' as [[n' e'] [Heq Hin']]. simpl in Heq. subst n'.
        apply filter_In in Hin' as [Hin' Hd']. simpl in Hd'.
        unfold l in Hin'. apply filter_In in Hin' as [Hin' _].
        pose proof (lookup_in _ _ _ Hnd Hin) as L1.
        pose proof (lookup_in _ _ _ Hnd Hin') as L2.
        rewrite L1 in L2. injection L2 as <-. now rewrite He in Hd'.
      * apply negb_false_iff, mem_spec.
        change n with (fst (n, e)). apply in_map.
        apply filter_In. split; [|simpl; now rewrite He].
        unfold l. apply filter_In. split; [exact Hin | simpl; now rewrite Hm].
Qed.

Lemma isfile_run d tr n e :
  names_directory n = false -> lookup n d = Some e ->
  os_path_isfile n (mkWorld (Some d) tr) = (Ok (is_regular e), mkWorld (Some d) tr).
Proof. intros Hn Hl. unfold os_path_isfile. simpl. now rewrite Hn, Hl. Qed.

Lemma keep_files_run d tr (l : listing) :
  (forall n e, In (n, e) l -> names_directory n = false /\ lookup n d = Some e) ->
  keep_files (map fst l) (mkWorld (Some d) tr)
  = (Ok (map fst (filter (fun ne => is_regular (snd ne)) l)), mkWorld (Some d) tr).
Proof.
  induction l as [|[n e] l IH]; intros H; [reflexivity|].
  destruct (H n e (or_introl eq_refl)) as [Hn Hl].
  cbn [map fst keep_files filter snd].
  erewrite bind_ok by (apply isfile_run; eassumption).
  erewrite bind_ok by (apply IH; intros n' e' Hin; apply H; now right).
  now destruct (is_regular e).
Qed.

Lemma current_on_disk_run w :
  world_wf w -> current_on_disk w = (Ok (regular_names w), w).
Proof.
  destruct w as [[d|] tr]; unfold world_wf, current_on_disk, regular_names;
    cbn [dest]; intros Hwf.
  - erewrite try_ok; [reflexivity|].
    erewrite bind_ok by apply run_listdir.
    apply keep_files_run. intros n e Hin. destruct Hwf as [Hnd Hn].
    split; [eauto | now apply lookup_in].
  - reflexivity.
Qed.

(** The outcome of the reconciliation, entry by entry. *)
Lemma mirror_missing_files_spec names w :
  world_wf w ->
  exists w', mirror_missing_files names w = (Ok tt, w') /\
    forall n e, entry_at w n = Some e ->
      entry_at w' n = (if mem n names || is_directory e then Some e else None).
Proof.
  destruct w as [[d|] tr]; unfold world_wf; cbn [dest]; intros Hwf.
  - destruct (mirror_missing_files_run names d tr Hwf) as [tr' Hrun].
    eexists. split; [exact Hrun|].
    intros n e He. unfold entry_at in *. cbn [dest] in *.
    rewrite lookup_filter by apply Hwf. now rewrite He.
  - eexists. split; [reflexivity|]. intros n e He. discriminate.
Qed.

(** ** One album, end to end *)

Lemma download_all_names E index urls : forall w names w',
  download_all E index urls w = (Ok names, w') ->
  names = map url_basename (downloaded_urls E index urls w).
Proof.
  induction urls as [|u urls IH]; intros w names w'; simpl.
  - now intros [= <- _].
  - unfold bind at 1.
    destruct (download_file E u index w) as [[ok|e] w1]; [|discriminate].
    unfold bind at 1.
    destruct (download_all E index urls w1) as [[rest|e] w2] eqn:Hrest; [|discriminate].
    apply IH in Hrest. intros [= <- _]. destruct ok; simpl; now rewrite Hrest.
Qed.

Lemma regular_names_mem w n e :
  entry_at w n = Some e -> is_regular e = true -> mem n (regular_names w) = true.
Proof.
  unfold entry_at, regular_names. destruct (dest w) as [d|]; [|discriminate].
  intros Hl Hr. apply mem_spec. apply lookup_some_in in Hl.
  change n with (fst (n, e)). apply in_map. apply filter_In. auto.
Qed.

Lemma sync_media_run E cfg urls w names w1 w2 :
  mirror_missing cfg = true -> world_wf w2 ->
  download_all E (index_filename cfg) urls w = (Ok names, w1) ->
  prune_files E (keep_days cfg) (max_files cfg) w1 = (Ok tt, w2) ->
  sync_media E cfg urls w
  = mirror_missing_files (match names with
                          | [] => regular_names w2
                          | _ => names
                          end) w2.
Proof.
  intros Hm Hwf Hd Hp. unfold sync_media.
  erewrite bind_ok by exact Hd. erewrite bind_ok by exact Hp. rewrite Hm.
  erewrite bind_ok by (now apply current_on_disk_run). reflexivity.
Qed.

Section AlbumFacts.

Variable str_of : pyval -> string.

Lemma select_media_keeps_wf items : respects keeps_wf (select_media str_of items).
Proof. induction items as [|[guid asset] items IH]; simpl; wf_auto. Qed.

Lemma fetch_album_media_keeps_wf url C :
  respects keeps_wf (fetch_album_media str_of url C).
Proof.
  unfold fetch_album_media. pose proof select_media_keeps_wf. wf_auto.
Qed.

Lemma started_wf cfg w : world_wf w -> world_wf (started cfg w).
Proof. intros Hwf. unfold started, world_wf. cbn [dest]. now apply makedirs_keeps_wf. Qed.

Lemma sync_album_run E cfg C w url sub urls wa :
  is_truthy_name (shared_url cfg) = Some url ->
  is_truthy_name (album_subfolder cfg) = Some sub ->
  fetch_album_media str_of url C (started cfg w) = (Ok urls, wa) ->
  sync_album str_of E cfg C w
  = match urls with
    | [] => logging WARNING "No media found to download." [] wa
    | _ => sync_media E cfg urls wa
    end.
Proof.
  intros Hu Hs Hf. unfold sync_album. rewrite Hu, Hs. cbv zeta.
  erewrite bind_ok by apply makedirs_run.
  erewrite bind_ok by apply run_logging.
  unfold started in Hf. rewrite Hs in Hf. rewrite makedirs_trace.
  erewrite bind_ok by exact Hf. now destruct urls.
Qed.

(** C2, amended: in a round with mirroring on, when the catalog yields no
    media URL [sync_album] returns after its warning, before pruning and
    reconciliation; when it yields some, none of them is downloaded and
    pruning completes, the reconciler runs with the names of the regular
    files then on disk as its keep-set, and every regular file is still
    there, as it was, when the round ends. *)
Theorem empty_round_keeps_regular_files E cfg C w url sub urls wa :
  is_truthy_name (shared_url cfg) = Some url ->
  is_truthy_name (album_subfolder cfg) = Some sub ->
  mirror_missing cfg = true ->
  world_wf w ->
  fetch_album_media str_of url C (started cfg w) = (Ok urls, wa) ->
  (urls = [] ->
   sync_album str_of E cfg C w
   = (Ok tt, mkWorld (dest wa)
               (trace wa ++ [Log WARNING "No media found to download." []]))) /\
  (forall w1 w2,
     urls <> [] ->
     download_all E (index_filename cfg) urls wa = (Ok [], w1) ->
     prune_files E (keep_days cfg) (max_files cfg) w1 = (Ok tt, w2) ->
     sync_album str_of E cfg C w = mirror_missing_files (regular_names w2) w2 /\
     exists w3,
       sync_album str_of E cfg C w = (Ok tt, w3) /\
       forall n e, entry_at w2 n = Some e -> is_regular e = true ->
                   entry_at w3 n = Some e).
Proof.
  intros Hu Hs Hm Hwf Hf.
  rewrite (sync_album_run E cfg C w url sub urls wa Hu Hs Hf).
  split.
  - intros ->. apply run_logging.
  - intros w1 w2 Hne Hd Hp.
    assert (Hwa : world_wf wa).
    { pose proof (fetch_album_media_keeps_wf url C (started cfg w)) as H.
      rewrite Hf in H. apply H. now apply started_wf. }
    assert (Hw1 : world_wf w1).
    { pose proof (download_all_keeps_wf E (index_filename cfg) urls wa) as H.
      rewrite Hd in H. now apply H. }
    assert (Hw2 : world_wf w2).
    { pose proof (prune_files_keeps_wf E (keep_days cfg) (max_files cfg) w1) as H.
      rewrite Hp in H. now apply H. }
    destruct urls as [|u urls]; [contradiction|].
    rewrite (sync_media_run E cfg (u :: urls) wa [] w1 w2 Hm Hw2 Hd Hp).
    split; [reflexivity|].
    destruct (mirror_missing_files_spec (regular_names w2) w2 Hw2) as [w3 [Hrun Hspec]].
    exists w3. split; [exact Hrun|].
    intros n e He Hr. rewrite (Hspec n e He).
    now rewrite (regular_names_mem w2 n e He Hr).
Qed.


End AlbumFacts.

(** ** The theorems on the sample runs *)

Lemma ten_files_wf : wf_listing ten_files.
Proof.
  split.
  - simpl. repeat (constructor; [simpl; intuition discriminate|]). constructor.
  - intros n e Hin. simpl in Hin.
    repeat (destruct Hin as [[= <- <-] | Hin]; [reflexivity|]). destruct Hin.
Defined.

Lemma ten_files_no_directory n e : In (n, e) ten_files -> is_directory e = false.
Proof.
  intros Hin. simpl in Hin.
  repeat (destruct Hin as [[= <- <-] | Hin]; [reflexivity|]). destruct Hin.
Defined.

Lemma sample_world_wf : world_wf sample_world.
Proof.
  split.
  - simpl. repeat (constructor; [simpl; intuition discriminate|]). constructor.
  - intros n e Hin. simpl in Hin.
    repeat (destruct Hin as [[= <- <-] | Hin]; [reflexivity|]). destruct Hin.
Defined.

(** Ten files, [keep_days = 0], [max_files = 5]: the five newest remain. *)
Lemma prune_keeps_newest_witness :
  wf_listing ten_files /\
  (forall n e, In (n, e) ten_files -> is_directory e = false) /\
  0 < 5 /\
  option_map (map fst)
    (dest (snd (prune_files sample_env 0 5 (mkWorld (Some ten_files) []))))
  = Some ["p02.jpg"; "p04.jpg"; "p06.jpg"; "p08.jpg"; "p10.jpg"] /\
  exists d' tr',
    prune_files sample_env 0 5 (mkWorld (Some ten_files) [])
    = (Ok tt, mkWorld (Some d') tr') /\
    List.length d' = 5%nat /\
    (forall kept gone, In kept d' -> In gone ten_files -> ~ In gone d' ->
                       e_mtime (snd gone) <= e_mtime (snd kept)).
Proof.
  split; [exact ten_files_wf|]. split; [exact ten_files_no_directory|].
  split; [lia|]. split; [reflexivity|].
  destruct (prune_keeps_newest sample_env 5 ten_files []
              ten_files_wf ten_files_no_directory eq_refl)
    as [[d' [tr' [Hrun [Hlen [_ [_ Hnew]]]]]] _].
  exists d', tr'. split; [exact Hrun|]. split; [exact Hlen | exact Hnew].
Defined.





(** A directory in the place of the index file: the download still
    returns [True], with a warning. *)
Example broken_index_is_skipped :
  let out := download_file sample_env photo_url (Some "index.json")
                           sample_world_no_index in
  fst out = Ok true /\
  In (Log WARNING "Failed to update %s: %s"
          [AStr "index.json"; AExn IsADirectoryError]) (trace (snd out)).
Proof. split; [reflexivity | vm_compute; tauto]. Qed.

(** A stream that breaks: [False], nothing under the final name; what had
    arrived stays behind under the temporary name. *)
Example broken_stream_leaves_part_file :
  let E := mkEnv (fun _ => None)
                 (fun _ => Some (mkResponse true None None [8192%N; 4096%N] false))
                 1000 "2024-01-01T00:00:00" in
  let out := download_file E photo_url None sample_world in
  fst out = Ok false /\
  entry_at (snd out) "abc123.jpg" = None /\
  entry_at (snd out) "abc123.jpg.part" = Some (media_file 1000 12288).
Proof. cbv zeta. repeat split; vm_compute; reflexivity. Qed.

(** A round that downloads nothing: the regular files stay. *)
Lemma empty_round_keeps_regular_files_witness :
  let url := "https://www.icloud.com/sharedalbum/#B0abcdef" in
  let fetched := fetch_album_media no_str url catalog_tiny
                   (started sample_cfg sample_world) in
  let loaded := download_all sample_env (index_filename sample_cfg) [tiny_url]
                  (snd fetched) in
  let pruned := prune_files sample_env (keep_days sample_cfg) (max_files sample_cfg)
                  (snd loaded) in
  let out := sync_album no_str sample_env sample_cfg catalog_tiny sample_world in
  is_truthy_name (shared_url sample_cfg) = Some url /\
  is_truthy_name (album_subfolder sample_cfg) = Some "family" /\
  mirror_missing sample_cfg = true /\
  world_wf sample_world /\
  fetched = (Ok [tiny_url], snd fetched) /\
  loaded = (Ok [], snd loaded) /\
  pruned = (Ok tt, snd pruned) /\
  out = mirror_missing_files ["old.jpg"; "index.json"] (snd pruned) /\
  fst out = Ok tt /\
  entry_at (snd out) "old.jpg" = Some (media_file 100 500000) /\
  entry_at (snd out) "index.json"
  = Some (mkEntry Regular 150 true true (JsonText (VList []))).
Proof.
  intros url fetched loaded pruned out.
  assert (H1 : is_truthy_name (shared_url sample_cfg) = Some url) by reflexivity.
  assert (H2 : is_truthy_name (album_subfolder sample_cfg) = Some "family")
    by reflexivity.
  assert (H3 : mirror_missing sample_cfg = true) by reflexivity.
  assert (H5 : fetched = (Ok [tiny_url], snd fetched)) by (vm_compute; reflexivity).
  assert (H6 : loaded = (Ok [], snd loaded)) by (vm_compute; reflexivity).
  assert (H7 : pruned = (Ok tt, snd pruned)) by (vm_compute; reflexivity).
  destruct (empty_round_keeps_regular_files no_str sample_env sample_cfg catalog_tiny
              sample_world url "family" [tiny_url] (snd fetched)
              H1 H2 H3 sample_world_wf H5) as [_ Hround].
  destruct (Hround (snd loaded) (snd pruned)) as [Hrun [w3 [Hout Hkept]]];
    [discriminate | exact H6 | exact H7 |].
  fold out in Hrun, Hout.
  split; [exact H1|]. split; [exact H2|]. split; [exact H3|].
  split; [exact sample_world_wf|].
  split; [exact H5|]. split; [exact H6|]. split; [exact H7|].
  split; [exact Hrun|].
  rewrite Hout. cbn [fst snd].
  split; [reflexivity|].
  split; apply Hkept; reflexivity.
Defined.

(** C2 as stated fails: mirroring is on and the round downloads nothing,
    because the catalog request raised; [sync_album] returns right after
    its warning.  Had the reconciler been run with the on-disk listing, the
    symbolic link [latest] would be gone and a warning would tell of
    [sub]. *)
Lemma outage_round_skips_reconciler :
  let out := sync_album no_str sample_env sample_cfg CatalogRaises sample_world in
  mirror_missing sample_cfg = true /\
  out = (Ok tt,
         mkWorld (Some sample_dir)
           [Log INFO "Syncing to %s" [AStr "/media/iCloud/family"];
            Log ERROR "Error fetching album media: %s" [AExn RequestException];
            Log WARNING "No media found to download." []]) /\
  entry_at (snd out) "latest" <> None /\
  entry_at (snd (mirror_missing_files (regular_names (snd out)) (snd out))) "latest"
  = None.
Proof.
  cbv zeta. split; [reflexivity|]. split; [vm_compute; reflexivity|].
  split; [vm_compute; discriminate | vm_compute; reflexivity].
Qed.


(** ** The album list on the command line *)

Section KeySpans.

Local Open Scope string_scope.
Local Open Scope nat_scope.

Lemma sapp_assoc (a b c : string) : (a ++ b) ++ c = a ++ (b ++ c).
Proof. induction a as [|x a IH]; simpl; [reflexivity | now rewrite IH]. Qed.

Lemma sapp_nil_r (a : string) : a ++ "" = a.
Proof. induction a as [|x a IH]; simpl; [reflexivity | now rewrite IH]. Qed.

Lemma all_chars_app p (a b : string) :
  all_chars p (a ++ b) = all_chars p a && all_chars p b.
Proof.
  induction a as [|x a IH]; simpl; [reflexivity|].
  now rewrite IH, andb_assoc.
Qed.

(** What [span] returns: the text split in two, the first part within the
    class, the second not starting in it. *)
Lemma span_spec p s x y :
  span p s = (x, y) ->
  s = x ++ y /\ all_chars p x = true /\
  match y with String c _ => p c = false | EmptyString => True end.
Proof.
  revert x y. induction s as [|a s IH]; simpl; intros x y.
  - intros [= <- <-]. auto.
  - destruct (p a) eqn:Hp.
    + destruct (span p s) as [x' y'] eqn:Hs. intros [= <- <-].
      destruct (IH x' y' eq_refl) as [-> [Hall Hy]]. simpl. rewrite Hp. auto.
    + intros [= <- <-]. simpl. rewrite Hp. auto.
Qed.

Lemma span_app_all p (a t : string) :
  all_chars p a = true ->
  match t with String c _ => p c = false | EmptyString => True end ->
  span p (a ++ t) = (a, t).
Proof.
  induction a as [|x a IH]; simpl; intros Ha Ht.
  - destruct t as [|c t]; simpl; [reflexivity | now rewrite Ht].
  - apply andb_true_iff in Ha as [Hx Ha]. now rewrite Hx, IH.
Qed.

(** When some character of [pre] is outside the class, [span] stops
    inside [pre]. *)
Lemma span_stops_inside p (pre t x y : string) :
  all_chars p pre = false ->
  span p (pre ++ t) = (x, y) ->
  exists m, pre = x ++ m /\ y = m ++ t /\ m <> "".
Proof.
  revert x y. induction pre as [|b pre IH]; simpl; intros x y Hall; [discriminate|].
  destruct (p b) eqn:Hb; simpl in Hall.
  - destruct (span p (pre ++ t)) as [x' y'] eqn:Hs. intros [= <- <-].
    destruct (IH x' y' Hall eq_refl) as [m [-> [-> Hm]]].
    exists m. auto.
  - intros [= <- <-]. exists (String b pre). repeat split. discriminate.
Qed.

Lemma space_not_key c : PyStr.is_space c = true -> is_key_char c = false.
Proof.
  destruct c as [[] [] [] [] [] [] [] []]; vm_compute; congruence.
Qed.

Lemma key_start_is_key c : is_key_start c = true -> is_key_char c = true.
Proof.
  unfold is_key_start, is_key_char, is_word.
  destruct (PyStr.is_upper c), (is_lower c), (Ascii.eqb c "_"); simpl;
    try congruence; now rewrite ?orb_true_r.
Qed.

Lemma key_start_not_space c : is_key_start c = true -> PyStr.is_space c = false.
Proof.
  intros H. destruct (PyStr.is_space c) eqn:Hs; [|reflexivity].
  apply space_not_key in Hs. apply key_start_is_key in H. congruence.
Qed.

Lemma key_char_not_colon c : is_key_char c = true -> Ascii.eqb c ":" = false.
Proof.
  destruct (Ascii.eqb_spec c ":") as [-> | ?]; [|reflexivity].
  vm_compute. congruence.
Qed.

Lemma space_not_colon c : PyStr.is_space c = true -> Ascii.eqb c ":" = false.
Proof.
  destruct (Ascii.eqb_spec c ":") as [-> | ?]; [|reflexivity].
  vm_compute. congruence.
Qed.

(** A match of [KEY_PATTERN] at the head of the text. *)
Lemma key_match_here_sound prev s key len :
  key_match_here prev s = Some (key, len) ->
  boundary prev = true /\
  exists ws post,
    s = key ++ ws ++ ":" ++ post /\
    len = String.length key + String.length ws + 1 /\
    identifier key = true /\ all_chars PyStr.is_space ws = true.
Proof.
  unfold key_match_here. destruct (boundary prev); [|discriminate].
  destruct s as [|c r]; [discriminate|].
  destruct (is_key_start c) eqn:Hc; [|discriminate].
  destruct (span is_key_char r) as [k after] eqn:Hk.
  destruct (span PyStr.is_space after) as [ws rest] eqn:Hw.
  destruct rest as [|colon post]; [discriminate|].
  destruct (Ascii.eqb_spec colon ":") as [-> | ?]; [|discriminate].
  intros [= <- <-]. split; [reflexivity|].
  apply span_spec in Hk as [-> [Hk _]]. apply span_spec in Hw as [-> [Hw _]].
  exists ws, post. simpl. rewrite Hc, Hk. auto.
Qed.

Lemma key_match_here_complete prev key ws post :
  boundary prev = true -> identifier key = true ->
  all_chars PyStr.is_space ws = true ->
  key_match_here prev (key ++ ws ++ ":" ++ post)
  = Some (key, String.length key + String.length ws + 1).
Proof.
  intros Hb Hid Hws. unfold key_match_here. rewrite Hb.
  destruct key as [|c k]; [discriminate|]. simpl in Hid.
  apply andb_true_iff in Hid as [Hc Hk]. cbn [append]. rewrite Hc.
  rewrite (span_app_all is_key_char k (ws ++ String ":" post) Hk).
  - rewrite (span_app_all PyStr.is_space ws (String ":" post) Hws); [|reflexivity].
    rewrite Ascii.eqb_refl. reflexivity.
  - destruct ws as [|a ws]; simpl; [reflexivity|].
    simpl in Hws. apply andb_true_iff in Hws as [Ha _]. now apply space_not_key.
Qed.

(** A look-behind that succeeds after a non-empty text means the text
    does not lie within the key class. *)
Lemma boundary_not_all prev (pre : string) :
  pre <> "" -> boundary (last_char prev pre) = true ->
  all_chars is_key_char pre = false.
Proof.
  revert prev. induction pre as [|b pre IH]; intros prev Hne Hb; [contradiction|].
  simpl in *. destruct pre as [|b' pre].
  - simpl in Hb. apply negb_true_iff in Hb. now rewrite Hb.
  - rewrite (IH (Some b)); [apply andb_false_r | discriminate | exact Hb].
Qed.

(** A match that starts before a key at a word boundary ends before it. *)
Lemma key_match_no_overrun prev a (pre : string) c rest key len :
  key_match_here prev (String a (pre ++ String c rest)) = Some (key, len) ->
  is_key_start c = true ->
  boundary (last_char (Some a) pre) = true ->
  len <= S (String.length pre).
Proof.
  unfold key_match_here. destruct (boundary prev); [|discriminate].
  destruct (is_key_start a) eqn:Ha; [|discriminate].
  destruct (span is_key_char (pre ++ String c rest)) as [x y] eqn:Hx.
  destruct (span PyStr.is_space y) as [wsx r] eqn:Hw.
  destruct r as [|colon post]; [discriminate|].
  destruct (Ascii.eqb_spec colon ":") as [-> | ?]; [|discriminate].
  intros [= <- <-] Hc Hb.
  assert (Hpre : pre <> "").
  { intros ->. simpl in Hb. apply key_start_is_key in Ha. now rewrite Ha in Hb. }
  pose proof (boundary_not_all (Some a) pre Hpre Hb) as Hnot.
  destruct (span_stops_inside _ _ _ _ _ Hnot Hx) as [m [-> [-> Hm]]].
  destruct (all_chars PyStr.is_space m) eqn:Hsp.
  - rewrite (span_app_all PyStr.is_space m (String c rest) Hsp) in Hw.
    + injection Hw as _ Hcolon _. subst c.
      apply key_start_is_key, key_char_not_colon in Hc. discriminate.
    + now apply key_start_not_space.
  - destruct (span_stops_inside _ _ _ _ _ Hsp Hw) as [m' [-> [Hr Hm']]].
    destruct m' as [|q m']; [contradiction|].
    rewrite !append_length. simpl. lia.
Qed.

(** Every span [key_spans_from] reports is a key of the text, at a word
    boundary, behind the characters still to pass. *)
Lemma key_spans_from_sound s : forall skip prev pos key start stop,
  In (key, start, stop) (key_spans_from skip prev pos s) ->
  exists pre ws post,
    s = pre ++ key ++ ws ++ ":" ++ post /\
    start = pos + String.length pre /\
    stop = start + String.length key + String.length ws + 1 /\
    skip <= String.length pre /\
    identifier key = true /\ all_chars PyStr.is_space ws = true /\
    boundary (last_char prev pre) = true.
Proof.
  induction s as [|c r IH]; intros skip prev pos key start stop Hin; [contradiction|].
  assert (Hrest : forall k,
    In (key, start, stop) (key_spans_from k (Some c) (S pos) r) ->
    exists pre ws post,
      String c r = pre ++ key ++ ws ++ ":" ++ post /\
      start = pos + String.length pre /\
      stop = start + String.length key + String.length ws + 1 /\
      S k <= String.length pre /\
      identifier key = true /\ all_chars PyStr.is_space ws = true /\
      boundary (last_char prev pre) = true).
  { intros k Hk. destruct (IH _ _ _ _ _ _ Hk)
      as [pre [ws [post [-> [-> [-> [Hs [Hid [Hws Hb]]]]]]]]].
    exists (String c pre), ws, post. simpl. repeat split; auto; lia. }
  cbn [key_spans_from] in Hin. destruct skip as [|k].
  - destruct (key_match_here prev (String c r)) as [[key' len]|] eqn:Hm.
    + destruct Hin as [Heq | Hin].
      * injection Heq as -> <- <-.
        apply key_match_here_sound in Hm as [Hb [ws [post [Hs [-> [Hid Hws]]]]]].
        exists "", ws, post. simpl. repeat split; auto; lia.
      * destruct (Hrest _ Hin) as [pre [ws [post [H1 [H2 [H3 [H4 H5]]]]]]].
        exists pre, ws, post. repeat split; try tauto; lia.
    + destruct (Hrest _ Hin) as [pre [ws [post [H1 [H2 [H3 [H4 H5]]]]]]].
      exists pre, ws, post. repeat split; try tauto; lia.
  - destruct (Hrest _ Hin) as [pre [ws [post [H1 [H2 [H3 [H4 H5]]]]]]].
    exists pre, ws, post. repeat split; try tauto.
Qed.

(** Every key of the text at a word boundary, behind the characters
    still to pass, is reported. *)
Lemma key_spans_from_complete (pre : string) : forall skip prev pos key ws post,
  identifier key = true -> all_chars PyStr.is_space ws = true ->
  skip <= String.length pre ->
  boundary (last_char prev pre) = true ->
  In (key, pos + String.length pre,
      pos + String.length pre + String.length key + String.length ws + 1)
     (key_spans_from skip prev pos (pre ++ key ++ ws ++ ":" ++ post)).
Proof.
  induction pre as [|a pre IH]; intros skip prev pos key ws post Hid Hws Hskip Hb.
  - simpl in Hskip. assert (skip = 0) as -> by lia. simpl in Hb.
    pose proof (key_match_here_complete prev key ws post Hb Hid Hws) as Hm.
    destruct key as [|c k]; [discriminate|].
    simpl append in *. cbn [key_spans_from]. rewrite Hm. left.
    apply f_equal2; [apply f_equal2; [reflexivity | simpl; lia] | simpl; lia].
  - assert (Hgo : forall k, k <= String.length pre ->
      In (key, pos + String.length (String a pre),
          pos + String.length (String a pre) + String.length key + String.length ws + 1)
         (key_spans_from k (Some a) (S pos) (pre ++ key ++ ws ++ ":" ++ post))).
    { intros k Hk. pose proof (IH k (Some a) (S pos) key ws post Hid Hws Hk Hb) as H.
      simpl String.length.
      replace (pos + S (String.length pre)) with (S pos + String.length pre) by lia.
      exact H. }
    simpl append. cbn [key_spans_from]. destruct skip as [|k].
    + destruct (key_match_here prev (String a (pre ++ key ++ ws ++ String ":" post)))
        as [[key' len]|] eqn:Hm.
      * right. apply Hgo.
        destruct key as [|c k]; [discriminate|]. simpl in Hid.
        apply andb_true_iff in Hid as [Hc _].
        simpl append in Hm.
        pose proof (key_match_no_overrun _ _ _ _ _ _ _ Hm Hc Hb). lia.
      * apply Hgo. lia.
    + apply Hgo. simpl in Hskip. lia.
Qed.

Lemma key_match_here_length prev s key len :
  key_match_here prev s = Some (key, len) -> 2 <= len <= String.length s.
Proof.
  intros H. apply key_match_here_sound in H as [_ [ws [post [-> [-> [Hid _]]]]]].
  rewrite !append_length. destruct key; [discriminate|]. simpl. lia.
Qed.

Lemma key_spans_from_chained s : forall skip prev pos,
  skip <= String.length s ->
  chained (pos + skip) (key_spans_from skip prev pos s) (pos + String.length s).
Proof.
  induction s as [|c r IH]; intros skip prev pos Hskip.
  - simpl in *. lia.
  - cbn [key_spans_from]. simpl String.length in *. destruct skip as [|k].
    + destruct (key_match_here prev (String c r)) as [[key len]|] eqn:Hm.
      * apply key_match_here_length in Hm. simpl in Hm.
        cbn [chained]. split; [lia|]. split; [lia|].
        pose proof (IH (len - 1) (Some c) (S pos)) as H.
        replace (S pos + (len - 1)) with (pos + len) in H by lia.
        replace (S pos + String.length r) with (pos + S (String.length r)) in H by lia.
        apply H. lia.
      * pose proof (IH 0 (Some c) (S pos)) as H.
        replace (S pos + 0) with (S pos) in H by lia.
        replace (S pos + String.length r) with (pos + S (String.length r)) in H by lia.
        assert (Hmono : forall l lo lo' hi, lo' <= lo -> chained lo l hi -> chained lo' l hi).
        { intros l. destruct l as [|[[? ?] ?] l]; simpl; intros; [lia|].
          intuition lia. }
        apply (Hmono _ (S pos)); [lia|]. apply H. lia.
    + pose proof (IH k (Some c) (S pos)) as H.
      replace (S pos + k) with (pos + S k) in H by lia.
      replace (S pos + String.length r) with (pos + S (String.length r)) in H by lia.
      apply H. lia.
Qed.

End KeySpans.

Section Normalizer.

Local Open Scope string_scope.
Local Open Scope nat_scope.

Import PyStr.

Lemma last_char_app prev (a b : string) :
  last_char prev (a ++ b) = last_char (last_char prev a) b.
Proof. revert prev. induction a as [|x a IH]; intros prev; simpl; auto. Qed.

Lemma clean_end_app (a b : string) : clean_end b -> clean_end (a ++ b).
Proof. intros H prev. rewrite last_char_app. apply H. Qed.

Lemma clean_end_cons a (r : string) : r <> "" -> clean_end (String a r) -> clean_end r.
Proof.
  intros Hr H prev. destruct r as [|b r]; [contradiction|].
  destruct (H None) as [c Hc]. exists c. exact Hc.
Qed.

Lemma rstrip_fixed (s : string) : clean_end s -> rstrip_by is_space s = s.
Proof.
  induction s as [|a r IH]; intros H.
  - destruct (H None) as [c [Hc _]]. discriminate.
  - simpl. destruct r as [|b r].
    + simpl. destruct (H None) as [c [Hc Hs]]. simpl in Hc. injection Hc as ->.
      now rewrite Hs.
    + rewrite IH by (apply (clean_end_cons a); [discriminate | exact H]).
      reflexivity.
Qed.

Lemma rstrip_shape (s : string) :
  rstrip_by is_space s = "" \/ clean_end (rstrip_by is_space s).
Proof.
  induction s as [|a r IH]; simpl; [now left|].
  destruct (rstrip_by is_space r) as [|b r'] eqn:Hr.
  - destruct (is_space a) eqn:Ha; [now left|].
    right. intros prev. exists a. simpl. auto.
  - right. destruct IH as [IH | IH]; [discriminate|].
    intros prev. apply (IH (Some a)).
Qed.

Lemma rstrip_head a (r : string) :
  is_space a = false -> exists r', rstrip_by is_space (String a r) = String a r'.
Proof.
  intros Ha. simpl. destruct (rstrip_by is_space r) as [|b r'].
  - rewrite Ha. now exists "".
  - now exists (String b r').
Qed.

Lemma lstrip_shape (s : string) :
  match lstrip_by is_space s with
  | String a _ => is_space a = false
  | EmptyString => True
  end.
Proof.
  induction s as [|a r IH]; simpl; [exact I|].
  destruct (is_space a) eqn:Ha; [exact IH | exact Ha].
Qed.

Lemma strip_trimmed (s : string) : trimmed (strip s).
Proof.
  unfold strip, strip_by. pose proof (lstrip_shape s) as Hl.
  destruct (lstrip_by is_space s) as [|a r]; [now left|].
  destruct (rstrip_head a r Hl) as [r' Hr]. right. rewrite Hr. split; [exact Hl|].
  destruct (rstrip_shape (String a r)) as [H | H]; rewrite Hr in H;
    [discriminate | exact H].
Qed.

Lemma strip_fixed (s : string) : trimmed s -> strip s = s.
Proof.
  intros [-> | [Hh Hc]]; [reflexivity|].
  unfold strip, strip_by. destruct s as [|a r]; [contradiction|].
  simpl lstrip_by. rewrite Hh. now apply rstrip_fixed.
Qed.

Lemma strip_idem (s : string) : strip (strip s) = strip s.
Proof. apply strip_fixed, strip_trimmed. Qed.

(** [strip] removes white space at both ends and nothing else. *)
Lemma lstrip_split (s : string) :
  exists l, s = l ++ lstrip_by is_space s /\ all_chars is_space l = true.
Proof.
  induction s as [|a r [l [Hl Hs]]]; simpl; [now exists ""|].
  destruct (is_space a) eqn:Ha.
  - exists (String a l). simpl. rewrite Ha, Hs. now rewrite <- Hl.
  - now exists "".
Qed.

Lemma rstrip_split (s : string) :
  exists r, s = rstrip_by is_space s ++ r /\ all_chars is_space r = true.
Proof.
  induction s as [|a s [r [Hr Hs]]]; simpl; [now exists ""|].
  destruct (rstrip_by is_space s) as [|b s'] eqn:Hb.
  - simpl in Hr. destruct (is_space a) eqn:Ha.
    + exists (String a r). simpl. rewrite Ha. split; [f_equal; exact Hr | exact Hs].
    + exists r. simpl. split; [f_equal; exact Hr | exact Hs].
  - exists r. simpl. simpl in Hr. split; [f_equal; exact Hr | exact Hs].
Qed.

Lemma strip_split (s : string) :
  exists l r, s = l ++ strip s ++ r /\
              all_chars is_space l = true /\ all_chars is_space r = true.
Proof.
  destruct (lstrip_split s) as [l [Hl Hls]].
  destruct (rstrip_split (lstrip_by is_space s)) as [r [Hr Hrs]].
  exists l, r. unfold strip, strip_by. now rewrite <- Hr.
Qed.

Lemma has_char_app c (a b : string) :
  has_char c (a ++ b) = has_char c a || has_char c b.
Proof.
  induction a as [|x a IH]; simpl; [reflexivity|]. now rewrite IH, orb_assoc.
Qed.

Lemma count_char_app c (a b : string) :
  count_char c (a ++ b) = count_char c a + count_char c b.
Proof. induction a as [|x a IH]; simpl; [reflexivity|]. rewrite IH. lia. Qed.

Lemma count_char_none c (s : string) : has_char c s = false -> count_char c s = 0.
Proof.
  induction s as [|a r IH]; simpl; [reflexivity|].
  intros H. apply orb_false_iff in H as [Ha Hr]. rewrite Ha. now rewrite IH.
Qed.

Lemma has_char_take c n (s : string) : has_char c s = false -> has_char c (take n s) = false.
Proof.
  revert s. induction n as [|n IH]; intros [|a r]; simpl; auto.
  intros H. apply orb_false_iff in H as [Ha Hr]. now rewrite Ha, IH.
Qed.

Lemma has_char_drop c n (s : string) : has_char c s = false -> has_char c (drop n s) = false.
Proof.
  revert s. induction n as [|n IH]; intros [|a r]; simpl; auto.
  intros H. apply orb_false_iff in H as [Ha Hr]. now apply IH.
Qed.

Lemma has_char_strip c (s : string) : has_char c s = false -> has_char c (strip s) = false.
Proof.
  intros H. destruct (strip_split s) as [l [r [Hs _]]].
  rewrite Hs in H. rewrite !has_char_app in H.
  apply orb_false_iff in H as [_ H]. now apply orb_false_iff in H as [H _].
Qed.

Lemma has_char_all p c (s : string) : p c = false -> all_chars p s = true -> has_char c s = false.
Proof.
  intros Hc. induction s as [|a r IH]; simpl; [reflexivity|].
  intros H. apply andb_true_iff in H as [Ha Hr]. rewrite IH by exact Hr.
  destruct (Ascii.eqb_spec a c) as [-> | ?]; [congruence | reflexivity].
Qed.

Lemma identifier_no_newline key : identifier key = true -> has_char newline key = false.
Proof.
  destruct key as [|c k]; [discriminate|]. simpl. intros H.
  apply andb_true_iff in H as [Hc Hk].
  rewrite (has_char_all is_key_char newline k eq_refl Hk).
  destruct (Ascii.eqb_spec c newline) as [-> | ?]; [discriminate | reflexivity].
Qed.

Lemma drop_app_length (a b : string) : drop (String.length a) (a ++ b) = b.
Proof. induction a as [|x a IH]; simpl; auto. Qed.

Lemma take_length (s : string) : take (String.length s) s = s.
Proof. induction s as [|a r IH]; simpl; [reflexivity | now rewrite IH]. Qed.

Lemma take_app_length (a b : string) : take (String.length a) (a ++ b) = a.
Proof. induction a as [|x a IH]; simpl; [now destruct b | now rewrite IH]. Qed.

Lemma key_spans_identifier s skip prev pos key start stop :
  In (key, start, stop) (key_spans_from skip prev pos s) -> identifier key = true.
Proof.
  intros H. apply key_spans_from_sound in H as [? [? [? H]]]. tauto.
Qed.

(** The lines built from the spans carry no newline when the body has
    none. *)
Lemma span_lines_no_newline body spans first :
  has_char newline body = false ->
  (forall key start stop, In (key, start, stop) spans -> identifier key = true) ->
  Forall (fun l => has_char newline l = false) (span_lines body first spans).
Proof.
  intros Hb. revert first. induction spans as [|[[key start] stop] rest IH];
    intros first Hk; simpl; constructor.
  - unfold item_line. rewrite !has_char_app.
    rewrite (identifier_no_newline key) by (apply (Hk key start stop); now left).
    assert (Hraw : forall n, has_char newline (strip (slice stop n body)) = false).
    { intros n. apply has_char_strip. unfold slice. now apply has_char_take, has_char_drop. }
    destruct first;
      match goal with
      | |- context [String.eqb ?x ""] => destruct (String.eqb x "") eqn:He
      end; simpl; rewrite ?Hraw; reflexivity.
  - apply IH. intros k s e Hin. apply (Hk k s e). now right.
Qed.

Lemma count_concat_lines (l : list string) :
  Forall (fun x => has_char newline x = false) l ->
  count_char newline (String.concat (String newline "") l) = pred (List.length l).
Proof.
  induction l as [|x l IH]; intros H; [reflexivity|].
  inversion H as [|? ? Hx Hl]; subst. specialize (IH Hl).
  destruct l as [|y l].
  - simpl. now apply count_char_none.
  - change (String.concat (String newline "") (x :: y :: l))
      with (x ++ String newline "" ++ String.concat (String newline "") (y :: l)).
    rewrite !count_char_app, IH, (count_char_none _ _ Hx). simpl. lia.
Qed.

Lemma span_lines_length body first spans :
  List.length (span_lines body first spans) = List.length spans.
Proof.
  revert first. induction spans as [|[[k s] e] r IH]; intros first; simpl; auto.
Qed.

Lemma as_item_starts (s : string) : startswith (as_item s) "- " = true.
Proof.
  unfold as_item. destruct (startswith s "- ") eqn:H; simpl; [exact H|].
  destruct s; reflexivity.
Qed.

Lemma concat_lines_starts (l : list string) x p :
  startswith x p = true ->
  startswith (String.concat (String newline "") (x :: l)) p = true.
Proof.
  intros H. apply PyStrFacts.startswith_spec in H as [r ->].
  apply PyStrFacts.startswith_spec. destruct l as [|y l].
  - now exists r.
  - exists (r ++ String newline "" ++ String.concat (String newline "") (y :: l)).
    change (String.concat (String newline "") ((p ++ r) :: y :: l))
      with ((p ++ r) ++ String newline "" ++ String.concat (String newline "") (y :: l)).
    now rewrite sapp_assoc.
Qed.

Lemma span_lines_starts body spans :
  spans <> [] ->
  startswith (String.concat (String newline "") (span_lines body true spans)) "- " = true.
Proof.
  destruct spans as [|[[k s] e] r]; [contradiction|]. intros _.
  cbn [span_lines]. apply concat_lines_starts. unfold item_line.
  apply PyStrFacts.startswith_spec. eexists. reflexivity.
Qed.

(** The keys of a text, as [_find_key_spans] reports them. *)
Lemma find_key_spans_sound body key start stop :
  In (key, start, stop) (_find_key_spans body) ->
  exists pre ws post,
    body = pre ++ key ++ ws ++ ":" ++ post /\
    start = String.length pre /\
    stop = String.length pre + String.length key + String.length ws + 1 /\
    identifier key = true /\ all_chars is_space ws = true /\
    boundary (last_char None pre) = true.
Proof.
  unfold _find_key_spans. intros H. apply key_spans_from_sound in H
    as [pre [ws [post [Hs [Hstart [Hstop [_ [Hid [Hws Hb]]]]]]]]].
  exists pre, ws, post. simpl in Hstart. subst start. auto 10.
Qed.

End Normalizer.

Section NormalizerTheorems.

Local Open Scope string_scope.
Local Open Scope nat_scope.

Import PyStr.


(** X2: the spans [_find_key_spans] reports come in text order and do not
    overlap: each one starts where the previous one ended or later, ends
    behind its start, and the last one ends within the text.  So every
    slice [body[colon_pos:next_start]] taken by the normalizer is well
    formed. *)
Theorem find_key_spans_chained body :
  chained 0 (_find_key_spans body) (String.length body).
Proof.
  unfold _find_key_spans.
  apply (key_spans_from_chained body 0 None 0). lia.
Qed.

(** X3: an album list given on one line is announced in the log and handed
    on in block form: the text starts with a dash and a space and has one
    line for every key found in it, or a single line when there is no
    key. *)
Theorem single_line_albums_become_block albums w :
  has_char newline (strip albums) = false ->
  exists t,
    main_albums_str albums w
    = (Ok t,
       mkWorld (dest w)
         (trace w ++
          [Log INFO "Detected single-line albums input; normalizing to multiline YAML" []])%list)
    /\ startswith t "- " = true
    /\ count_char newline t
       = pred (List.length (_find_key_spans (drop 2 (as_item (strip albums))))).
Proof.
  intros Hnl. unfold main_albums_str. rewrite Hnl. cbn [negb].
  eexists. split; [reflexivity|].
  unfold normalize_single_line_yaml. rewrite strip_idem, Hnl. cbn [andb].
  assert (Hitem : has_char newline (as_item (strip albums)) = false).
  { unfold as_item. destruct (startswith (strip albums) "- "); cbn [negb]; [exact Hnl|].
    rewrite has_char_app, Hnl. reflexivity. }
  destruct (_find_key_spans (drop 2 (as_item (strip albums)))) as [|x spans] eqn:Hspans.
  - split; [apply as_item_starts|]. now apply count_char_none.
  - split; [apply span_lines_starts; discriminate|].
    rewrite count_concat_lines, span_lines_length; [reflexivity|].
    apply span_lines_no_newline; [now apply has_char_drop|].
    intros key start stop Hin. rewrite <- Hspans in Hin.
    now apply key_spans_identifier in Hin.
Qed.

End NormalizerTheorems.

Section NormalizerTwice.

Local Open Scope string_scope.
Local Open Scope nat_scope.

Import PyStr.

(** Passing over the rest of a match. *)
Lemma key_spans_skip (a : string) : forall prev pos t,
  key_spans_from (String.length a) prev pos (a ++ t)
  = key_spans_from 0 (last_char prev a) (pos + String.length a) t.
Proof.
  induction a as [|x a IH]; intros prev pos t.
  - simpl. now rewrite Nat.add_0_r.
  - simpl. rewrite IH. f_equal. lia.
Qed.

(** A text made of one key, its colon and a rest without any key has one
    span. *)
Lemma key_spans_single key tail :
  identifier key = true ->
  (forall pos, key_spans_from 0 (Some ":"%char) pos tail = []) ->
  _find_key_spans (key ++ ":" ++ tail) = [(key, 0, String.length key + 1)].
Proof.
  intros Hid Htail. unfold _find_key_spans.
  pose proof (key_match_here_complete None key "" tail eq_refl Hid eq_refl) as Hm.
  destruct key as [|c k]; [discriminate|].
  simpl append in *. cbn [key_spans_from]. rewrite Hm.
  simpl String.length.
  replace (S (String.length k) + 0 + 1 - 1) with (String.length (k ++ ":"))
    by (rewrite append_length; simpl; lia).
  change (k ++ String ":" tail) with (k ++ ":" ++ tail).
  rewrite <- sapp_assoc, key_spans_skip, last_char_app. simpl last_char.
  rewrite Htail. apply f_equal2; [|reflexivity].
  apply f_equal2; [reflexivity | simpl; lia].
Qed.

Lemma all_space_boundary prev (l : string) :
  boundary prev = true -> all_chars is_space l = true ->
  boundary (last_char prev l) = true.
Proof.
  revert prev. induction l as [|a l IH]; intros prev Hb Hl; simpl; [exact Hb|].
  simpl in Hl. apply andb_true_iff in Hl as [Ha Hl]. apply IH; [|exact Hl].
  simpl. now rewrite (space_not_key a Ha).
Qed.

Lemma last_char_nonempty prev prev' (s : string) :
  s <> "" -> last_char prev s = last_char prev' s.
Proof. destruct s as [|a r]; [contradiction | reflexivity]. Qed.

(** When the body holds a single key, the value behind it holds none. *)
Lemma single_span_value_has_no_key body key start stop :
  _find_key_spans body = [(key, start, stop)] ->
  forall pos,
    key_spans_from 0 (Some ":"%char) pos
      (" " ++ strip (slice stop (String.length body) body)) = [].
Proof.
  intros Hspans pos.
  assert (Hin : In (key, start, stop) (_find_key_spans body))
    by (rewrite Hspans; now left).
  apply find_key_spans_sound in Hin
    as [pre [ws [post [Hbody [Hstart [Hstop [Hid [Hws Hb]]]]]]]].
  assert (Hslice : slice stop (String.length body) body = post).
  { unfold slice. subst body stop.
    replace (pre ++ key ++ ws ++ ":" ++ post) with ((pre ++ key ++ ws ++ ":") ++ post)
      by (now rewrite !sapp_assoc).
    replace (String.length pre + String.length key + String.length ws + 1)
      with (String.length (pre ++ key ++ ws ++ ":"))
      by (rewrite !append_length; simpl; lia).
    rewrite drop_app_length.
    rewrite append_length, Nat.add_comm, Nat.add_sub. apply take_length. }
  rewrite Hslice.
  destruct (key_spans_from 0 (Some ":"%char) pos (" " ++ strip post))
    as [|[[k st] sp] rest] eqn:Hscan; [reflexivity|].
  exfalso.
  assert (Hk : In (k, st, sp) (key_spans_from 0 (Some ":"%char) pos (" " ++ strip post)))
    by (rewrite Hscan; now left).
  apply key_spans_from_sound in Hk
    as [pre' [ws' [post' [Hs [_ [_ [_ [Hid' [Hws' Hb']]]]]]]]].
  destruct pre' as [|sp0 pre''].
  { destruct k as [|c k]; [discriminate|]. simpl in Hs. injection Hs as Hc _.
    simpl in Hid'. apply andb_true_iff in Hid' as [Hc' _]. subst c.
    discriminate. }
  simpl in Hs. injection Hs as Hsp Hraw. subst sp0.
  destruct (strip_split post) as [l [r [Hpost [Hl Hr]]]].
  assert (Hbody' : body = (pre ++ key ++ ws ++ ":" ++ l ++ pre'')
                          ++ k ++ ws' ++ ":" ++ (post' ++ r)).
  { rewrite Hbody, Hpost, Hraw. now rewrite !sapp_assoc. }
  assert (Hbound : boundary (last_char None (pre ++ key ++ ws ++ ":" ++ l ++ pre'')) = true).
  { rewrite !last_char_app. destruct pre'' as [|q pre''].
    - simpl last_char at 1. apply all_space_boundary; [|exact Hl].
      reflexivity.
    - simpl in Hb'. simpl. exact Hb'. }
  assert (Hin' : In (k, String.length (pre ++ key ++ ws ++ ":" ++ l ++ pre''),
                     String.length (pre ++ key ++ ws ++ ":" ++ l ++ pre'')
                     + String.length k + String.length ws' + 1)
                    (_find_key_spans body)).
  { rewrite Hbody'. unfold _find_key_spans.
    apply (key_spans_from_complete _ 0 None 0 k ws' (post' ++ r) Hid' Hws');
      [lia | exact Hbound]. }
  rewrite Hspans in Hin'. destruct Hin' as [Heq | []].
  injection Heq as _ Hst _. rewrite Hstart in Hst.
  rewrite !append_length in Hst. destruct key; [discriminate|]. simpl in Hst. lia.
Qed.

Lemma clean_end_colon : clean_end ":".
Proof. intros prev. exists ":"%char. split; reflexivity. Qed.

Lemma trimmed_clean_end (s : string) : trimmed s -> s <> "" -> clean_end s.
Proof. intros [-> | [_ H]] Hne; [contradiction | exact H]. Qed.

Lemma item_line_clean_end first key raw :
  trimmed raw -> clean_end (item_line first key raw).
Proof.
  intros Hraw. unfold item_line. do 2 apply clean_end_app.
  destruct (String.eqb_spec raw "") as [-> | Hne]; [apply clean_end_colon|].
  apply clean_end_app. now apply trimmed_clean_end.
Qed.

Lemma span_lines_clean_end body spans first :
  Forall clean_end (span_lines body first spans).
Proof.
  revert first. induction spans as [|[[k s] e] r IH]; intros first; simpl; constructor.
  - apply item_line_clean_end, strip_trimmed.
  - apply IH.
Qed.

Lemma concat_clean_end (l : list string) :
  l <> [] -> Forall clean_end l -> clean_end (String.concat (String newline "") l).
Proof.
  induction l as [|x l IH]; intros Hne H; [contradiction|].
  inversion H as [|? ? Hx Hl]; subst. destruct l as [|y l]; [exact Hx|].
  change (String.concat (String newline "") (x :: y :: l))
    with (x ++ String newline "" ++ String.concat (String newline "") (y :: l)).
  do 2 apply clean_end_app. apply IH; [discriminate | exact Hl].
Qed.

Lemma concat_two_has_newline x y (l : list string) :
  has_char newline (String.concat (String newline "") (x :: y :: l)) = true.
Proof.
  change (String.concat (String newline "") (x :: y :: l))
    with (x ++ String newline "" ++ String.concat (String newline "") (y :: l)).
  rewrite !has_char_app. simpl. now rewrite orb_true_r.
Qed.

(** A text that starts with a dash and a space and ends in no white space
    is its own stripped form, and a block item. *)
Lemma item_text_trimmed (t : string) :
  startswith t "- " = true -> clean_end t -> trimmed t.
Proof.
  intros Hs Hc. right. split; [|exact Hc].
  apply PyStrFacts.startswith_spec in Hs as [r ->]. reflexivity.
Qed.

Lemma item_text_dash_search (t : string) :
  startswith t "- " = true -> dash_item_search true t = true.
Proof.
  intros Hs. apply PyStrFacts.startswith_spec in Hs as [r ->]. reflexivity.
Qed.

Lemma as_item_fixed (t : string) : startswith t "- " = true -> as_item t = t.
Proof. intros H. unfold as_item. now rewrite H. Qed.

(** A text in block form that the first branch does not return as it is,
    and whose body holds no key, is returned by the second. *)
Lemma normalize_item_without_keys (t : string) :
  startswith t "- " = true -> clean_end t ->
  _find_key_spans (drop 2 t) = [] ->
  normalize_single_line_yaml t = t.
Proof.
  intros Hs Hc Hk. unfold normalize_single_line_yaml.
  rewrite (strip_fixed t (item_text_trimmed t Hs Hc)).
  destruct (has_char newline t && dash_item_search true t); [reflexivity|].
  rewrite (as_item_fixed t Hs), Hk. reflexivity.
Qed.

Lemma strip_leading_space (s : string) : strip (" " ++ s) = strip s.
Proof. reflexivity. Qed.

Lemma slice_tail (a b : string) :
  slice (String.length a) (String.length (a ++ b)) (a ++ b) = b.
Proof.
  unfold slice. rewrite drop_app_length, append_length, Nat.add_comm, Nat.add_sub.
  apply take_length.
Qed.

(** A block of one line, a key and a value that holds no key, is
    returned with the value stripped. *)
Lemma normalize_key_line key tail :
  identifier key = true ->
  (forall pos, key_spans_from 0 (Some ":"%char) pos tail = []) ->
  has_char newline ("- " ++ key ++ ":" ++ tail) = false ->
  clean_end ("- " ++ key ++ ":" ++ tail) ->
  normalize_single_line_yaml ("- " ++ key ++ ":" ++ tail)
  = item_line true key (strip tail).
Proof.
  intros Hid Htail Hnl Hc.
  assert (Hs : startswith ("- " ++ key ++ ":" ++ tail) "- " = true).
  { apply PyStrFacts.startswith_spec. eexists. reflexivity. }
  unfold normalize_single_line_yaml.
  rewrite (strip_fixed _ (item_text_trimmed _ Hs Hc)), Hnl. cbn [andb].
  rewrite (as_item_fixed _ Hs).
  change (drop 2 ("- " ++ key ++ ":" ++ tail)) with (key ++ ":" ++ tail).
  rewrite (key_spans_single key tail Hid Htail).
  cbn [span_lines String.concat].
  replace (slice (String.length key + 1) (String.length (key ++ ":" ++ tail))
             (key ++ ":" ++ tail)) with tail; [reflexivity|].
  rewrite <- (sapp_assoc key ":" tail).
  replace (String.length key + 1) with (String.length (key ++ ":"))
    by (rewrite append_length; reflexivity).
  symmetry. apply slice_tail.
Qed.

(** X4: normalizing is idempotent on an album list that is not blank:
    the text [normalize_single_line_yaml] returns is returned unchanged
    when normalized again. *)
Theorem normalize_single_line_yaml_idempotent albums :
  strip albums <> "" ->
  normalize_single_line_yaml (normalize_single_line_yaml albums)
  = normalize_single_line_yaml albums.
Proof.
  intros Hne.
  pose proof (strip_trimmed albums) as Htrim.
  unfold normalize_single_line_yaml at 2 3.
  destruct (has_char newline (strip albums) && dash_item_search true (strip albums))
    eqn:Hcond.
  - unfold normalize_single_line_yaml. rewrite strip_idem, Hcond. reflexivity.
  - set (s := as_item (strip albums)).
    assert (Hs : startswith s "- " = true) by apply as_item_starts.
    assert (Hc : clean_end s).
    { subst s. unfold as_item. pose proof (trimmed_clean_end _ Htrim Hne).
      destruct (startswith (strip albums) "- "); cbn [negb]; [assumption|].
      now apply clean_end_app. }
    destruct (_find_key_spans (drop 2 s)) as [|[[key start] stop] rest] eqn:Hspans.
    + now apply normalize_item_without_keys.
    + set (out := String.concat (String newline "")
                    (span_lines (drop 2 s) true ((key, start, stop) :: rest))).
      assert (Hos : startswith out "- " = true)
        by (apply span_lines_starts; discriminate).
      assert (Hoc : clean_end out).
      { apply concat_clean_end; [discriminate | apply span_lines_clean_end]. }
      destruct (has_char newline out) eqn:Hnl.
      { unfold normalize_single_line_yaml.
        rewrite (strip_fixed out (item_text_trimmed out Hos Hoc)).
        now rewrite Hnl, (item_text_dash_search out Hos). }
      destruct rest as [|x rest].
      2:{ subst out. destruct x as [[k2 s2] e2]. cbn [span_lines] in Hnl.
          now rewrite concat_two_has_newline in Hnl. }
      assert (Hid : identifier key = true).
      { apply (key_spans_identifier (drop 2 s) 0 None 0 key start stop).
        fold (_find_key_spans (drop 2 s)). rewrite Hspans. now left. }
      pose proof (single_span_value_has_no_key _ _ _ _ Hspans) as Hval.
      subst out. cbn [span_lines String.concat] in *.
      set (raw := strip (slice stop (String.length (drop 2 s)) (drop 2 s))) in *.
      assert (Hraw : strip raw = raw) by apply strip_idem.
      unfold item_line in *.
      destruct (String.eqb_spec raw "") as [Hr | Hr].
      * change (normalize_single_line_yaml ("- " ++ key ++ ":" ++ "")
                = "- " ++ key ++ ":").
        rewrite normalize_key_line; auto.
      * change (normalize_single_line_yaml ("- " ++ key ++ ":" ++ (" " ++ raw))
                = "- " ++ key ++ ": " ++ raw).
        rewrite normalize_key_line; auto.
        rewrite strip_leading_space, Hraw. unfold item_line.
        destruct (String.eqb_spec raw ""); [contradiction | reflexivity].
Qed.

End NormalizerTwice.

(** ** The destination path *)

Section DestinationPath.

Local Open Scope string_scope.

Import PyStr.

Lemma endswith_char (s : string) c :
  endswith s (String c "")
  = match last_char None s with
    | Some x => Ascii.eqb x c
    | None => false
    end.
Proof.
  induction s as [|a r IH]; [reflexivity|].
  cbn [endswith]. rewrite IH. destruct r as [|b r].
  - simpl. destruct (Ascii.eqb a c); reflexivity.
  - simpl. destruct (Ascii.eqb a c); reflexivity.
Qed.

Lemma endswith_char_app (x m : string) c :
  m <> "" -> endswith (x ++ m) (String c "") = endswith m (String c "").
Proof.
  intros Hm. rewrite !endswith_char, last_char_app.
  now rewrite (last_char_nonempty (last_char None x) None m Hm).
Qed.

Lemma startswith_app_l (x y p : string) :
  startswith x p = true -> startswith (x ++ y) p = true.
Proof.
  intros H. apply PyStrFacts.startswith_spec in H as [r ->].
  apply PyStrFacts.startswith_spec. exists (r ++ y). apply sapp_assoc.
Qed.

Lemma path_join_absolute (a b : string) :
  startswith a "/" = true -> startswith (path_join a b) "/" = true.
Proof.
  intros Ha. unfold path_join. destruct (startswith b "/") eqn:Hb; [exact Hb|].
  destruct (String.eqb a "" || endswith a "/"); now apply startswith_app_l.
Qed.

Lemma base_dir_cases dest_mode :
  In (resolve_dest_dir dest_mode None None) ["/media"; "/share"; "/config/www"]%list.
Proof.
  unfold resolve_dest_dir. simpl.
  destruct (String.eqb dest_mode "media"); [now left|].
  destruct (String.eqb dest_mode "share"); [right; now left|].
  destruct (String.eqb dest_mode "config_www"); [right; right; now left | now left].
Qed.

Lemma resolve_dest_dir_unfold dest_mode ms asub :
  resolve_dest_dir dest_mode ms asub
  = let base := resolve_dest_dir dest_mode None None in
    let with_media := match is_truthy_name ms with
                      | Some m => path_join base m
                      | None => base
                      end in
    match is_truthy_name asub with
    | Some a => path_join with_media a
    | None => with_media
    end.
Proof.
  unfold resolve_dest_dir. cbn [is_truthy_name].
  destruct (is_truthy_name ms), (is_truthy_name asub); reflexivity.
Qed.

(** X5: the destination path is always absolute, and a sub-folder that
    starts with a slash replaces everything before it: with such an album
    sub-folder the destination is that sub-folder itself, whatever the
    destination mode and the media sub-folder. *)
Theorem resolve_dest_dir_absolute_subfolder dest_mode ms asub :
  startswith (resolve_dest_dir dest_mode ms asub) "/" = true /\
  forall a, asub = Some a -> startswith a "/" = true ->
            resolve_dest_dir dest_mode ms asub = a.
Proof.
  rewrite resolve_dest_dir_unfold. cbv zeta.
  assert (Hbase : startswith (resolve_dest_dir dest_mode None None) "/" = true).
  { destruct (base_dir_cases dest_mode) as [<- | [<- | [<- | []]]]; reflexivity. }
  assert (Hmedia : startswith match is_truthy_name ms with
                              | Some m => path_join (resolve_dest_dir dest_mode None None) m
                              | None => resolve_dest_dir dest_mode None None
                              end "/" = true).
  { destruct (is_truthy_name ms); [now apply path_join_absolute | exact Hbase]. }
  split.
  - destruct (is_truthy_name asub); [now apply path_join_absolute | exact Hmedia].
  - intros a -> Ha. destruct a as [|c a]; [discriminate|].
    cbn [is_truthy_name]. unfold path_join. now rewrite Ha.
Qed.

(** X6: sub-folders that are relative paths are appended in order under
    the base directory of the mode, which is [/media], [/share] or
    [/config/www]: the destination is base, slash, media sub-folder,
    slash, album sub-folder. *)
Theorem resolve_dest_dir_relative dest_mode m a :
  m <> "" -> a <> "" ->
  startswith m "/" = false -> startswith a "/" = false ->
  endswith m "/" = false ->
  let base := resolve_dest_dir dest_mode None None in
  In base ["/media"; "/share"; "/config/www"]%list /\
  resolve_dest_dir dest_mode (Some m) (Some a) = base ++ "/" ++ m ++ "/" ++ a.
Proof.
  intros Hm Ha Hms Has Hme base. split; [apply base_dir_cases|].
  rewrite resolve_dest_dir_unfold. fold base. cbv zeta.
  destruct m as [|cm m]; [contradiction|]. destruct a as [|ca a]; [contradiction|].
  cbn [is_truthy_name].
  assert (Hb : String.eqb base "" || endswith base "/" = false).
  { subst base.
    destruct (base_dir_cases dest_mode) as [<- | [<- | [<- | []]]]; reflexivity. }
  unfold path_join at 2. rewrite Hms, Hb.
  unfold path_join. rewrite Has.
  replace (base ++ "/" ++ String cm m) with ((base ++ "/") ++ String cm m)
    by apply sapp_assoc.
  rewrite endswith_char_app, Hme by discriminate.
  replace (String.eqb ((base ++ "/") ++ String cm m) "") with false.
  - cbn [orb]. now rewrite !sapp_assoc.
  - symmetry. apply String.eqb_neq. intros H.
    apply (f_equal String.length) in H. rewrite !append_length in H. simpl in H. lia.
Qed.

End DestinationPath.

(** ** More on the selection *)

Section SelectorMore.

Variable str_of : pyval -> string.

Local Open Scope string_scope.

Import PyStr.

Lemma lower_app (a b : string) : lower (a ++ b) = lower a ++ lower b.
Proof. induction a as [|x a IH]; simpl; [reflexivity | now rewrite IH]. Qed.

(** X7: hints are looked for anywhere in a name: a text that contains a
    thumbish text, with anything before and after it, is thumbish too.
    So a name such as [flowers.jpg], which contains [low], is taken for a
    thumbnail. *)
Theorem thumbish_inside (a s b : string) :
  thumbish s = true -> thumbish (a ++ s ++ b) = true.
Proof.
  intros H. apply thumbish_spec in H as [h [x [y [Hin Hlow]]]].
  apply thumbish_spec. exists h, (lower a ++ x), (y ++ lower b).
  split; [exact Hin|].
  rewrite !lower_app, Hlow. now rewrite !sapp_assoc.
Qed.

(** X8: a URL that [_full_url] has resolved is left as it is when resolved
    again against the same location, and it is absolute (it starts with
    [http://] or [https://]) as soon as the location is set. *)
Theorem full_url_stable location p u :
  _full_url str_of location (VStr p) = Ok u ->
  _full_url str_of location (VStr u) = Ok u /\
  (truthy location = true ->
   startswith u "http://" || startswith u "https://" = true).
Proof.
  unfold _full_url.
  destruct (startswith p "http://" || startswith p "https://") eqn:Habs.
  - intros [= <-]. rewrite Habs. auto.
  - destruct (truthy location) eqn:Hloc.
    + intros [= Hu].
      assert (Hs : startswith u "https://" = true).
      { apply PyStrFacts.startswith_spec. rewrite <- Hu. eexists. reflexivity. }
      rewrite Hs, orb_true_r. auto.
    + intros [= <-]. rewrite Habs. split; [reflexivity | discriminate].
Qed.

(** X9: among the candidates that meet the floor, when none has a
    preferred key, the one returned is the first of the greatest in
    catalog order: every candidate before it is strictly smaller, none
    after it is greater. *)
Theorem first_of_the_largest_selected a cands :
  asset_candidates str_of a = Ok cands ->
  first_preferred PREFERRED_ORIGINAL_KEYS cands = None ->
  filter _meets_fullsize_floor cands <> []%list ->
  exists best before after,
    pick_best_download_url_from_asset str_of (VDict a) = Ok (Some (c_url best)) /\
    filter _meets_fullsize_floor cands = (before ++ best :: after)%list /\
    (forall c, In c before -> rank_ltb (rank c) (rank best) = true) /\
    (forall c, In c after -> rank_le (rank c) (rank best)).
Proof.
  intros Hc Hnone Hne.
  destruct (filter _meets_fullsize_floor cands) as [|c0 rest] eqn:Hf;
    [contradiction|].
  destruct (max_from_first c0 rest) as [l1 [l2 [Heq [H1 H2]]]].
  exists (max_from c0 rest), l1, l2. repeat split; auto.
  unfold pick_best_download_url_from_asset. rewrite Hc. cbn [rbind].
  now rewrite Hnone, Hf.
Qed.

End SelectorMore.

Section CatalogLoop.

Variable str_of : pyval -> string.

(** X10: the loop over the catalog accounts for every asset and touches
    nothing: when it completes, the directory is as before, the log has
    one new line per asset, and the media list holds exactly the
    non-empty URLs the selector returns for the assets of the catalog. *)
Theorem select_media_accounts_for_every_asset items : forall w urls w',
  select_media str_of items w = (Ok urls, w') ->
  dest w' = dest w /\
  (exists evs, trace w' = trace w ++ evs /\ List.length evs = List.length items) /\
  forall u, In u urls <->
            u <> ""%string /\
            exists guid asset,
              In (guid, asset) items /\
              pick_best_download_url_from_asset str_of asset = Ok (Some u).
Proof.
  induction items as [|[guid asset] items IH]; intros w urls w' Hrun.
  - simpl in Hrun. injection Hrun as <- <-. split; [reflexivity|]. split.
    + exists []. now rewrite app_nil_r.
    + intros u. split; [intros [] | intros [_ [g [a [[] _]]]]].
  - cbn [select_media] in Hrun. unfold bind at 1, lift in Hrun.
    destruct (pick_best_download_url_from_asset str_of asset) as [url|e] eqn:Hpick;
      [|discriminate].
    assert (Hskip : forall w0,
      (logging WARNING "Skipping asset %s: no full-size candidate met the floor."
         [AStr guid] ;;; select_media str_of items)%M w0 = (Ok urls, w') ->
      (url = None \/ url = Some ""%string) ->
      dest w' = dest w0 /\
      (exists evs, trace w' = trace w0 ++ evs /\
                   List.length evs = S (List.length items)) /\
      forall u, In u urls <->
                u <> ""%string /\
                exists g a, In (g, a) ((guid, asset) :: items) /\
                            pick_best_download_url_from_asset str_of a = Ok (Some u)).
    { intros w0 H Hurl. erewrite bind_ok in H by apply run_logging.
      apply IH in H as [Hd [[evs [Ht Hl]] Hu]]. cbn [dest trace] in *.
      split; [exact Hd|]. split.
      - eexists. rewrite Ht, <- app_assoc. split; [reflexivity|]. simpl. now rewrite Hl.
      - intros u. rewrite Hu. split.
        + intros [Hne [g [a [Hin Hp]]]]. split; [exact Hne|].
          exists g, a. split; [now right | exact Hp].
        + intros [Hne [g [a [[Heq | Hin] Hp]]]].
          * injection Heq as <- <-. rewrite Hpick in Hp. injection Hp as Hp.
            destruct Hurl as [-> | ->]; [discriminate|].
            injection Hp as <-. contradiction.
          * split; [exact Hne|]. now exists g, a. }
    destruct url as [[|c u0]|].
    + apply Hskip in Hrun; [exact Hrun | now right].
    + erewrite bind_ok in Hrun by apply run_logging.
      unfold bind at 1 in Hrun.
      destruct (select_media str_of items _) as [[rest|e] w1] eqn:Hrest; [|discriminate].
      unfold ret in Hrun. injection Hrun as <- <-.
      apply IH in Hrest as [Hd [[evs [Ht Hl]] Hu]]. cbn [dest trace] in *.
      split; [exact Hd|]. split.
      * eexists. rewrite Ht, <- app_assoc. split; [reflexivity|]. simpl. now rewrite Hl.
      * intros u. cbn [In]. rewrite Hu. split.
        -- intros [<- | [Hne [g [a [Hin Hp]]]]].
           ++ split; [discriminate|]. exists guid, asset. split; [now left | exact Hpick].
           ++ split; [exact Hne|]. exists g, a. split; [now right | exact Hp].
        -- intros [Hne [g [a [[Heq | Hin] Hp]]]].
           ++ injection Heq as <- <-. rewrite Hpick in Hp. injection Hp as <-. now left.
           ++ right. split; [exact Hne|]. now exists g, a.
    + apply Hskip in Hrun; [exact Hrun | now left].
Qed.

End CatalogLoop.

(** ** More on the download *)

Lemma basename_no_slash (s : string) : PyStr.has_char "/" (PyStr.basename s) = false.
Proof.
  induction s as [|c r IH]; [reflexivity|].
  cbn [PyStr.basename]. destruct (PyStr.has_char "/" (String c r)) eqn:H; [exact IH | exact H].
Qed.

Lemma basename_fixed (s : string) :
  PyStr.has_char "/" s = false -> PyStr.basename s = s.
Proof. destruct s as [|c r]; [reflexivity|]. intros H. cbn [PyStr.basename]. now rewrite H. Qed.

(** X11: the name a download is saved under is a single path component:
    it holds no slash, whatever the Content-Disposition header and the
    URL are. *)
Theorem saved_name_single_component resp url :
  PyStr.has_char "/" (saved_name resp url) = false.
Proof.
  unfold saved_name, target_filename, url_basename.
  destruct (cd_search _); apply basename_no_slash.
Qed.

Lemma update_index_stays E n i filename url :
  n <> i -> respects (stays n) (update_index E i filename url).
Proof.
  intros Hne. unfold update_index, json_load. stays_auto.
Qed.

Lemma record_download_stays E n index filename url :
  is_truthy_name index <> Some n ->
  respects (stays n) (record_download E index filename url).
Proof.
  intros Hne. unfold record_download.
  destruct (is_truthy_name index) as [i|]; [|stays_auto].
  assert (n <> i) by congruence.
  pose proof (update_index_stays E n i filename url H). stays_auto.
Qed.

Lemma transfer_stays E url index n :
  (forall resp, get_of E url = Some resp ->
                n <> saved_name resp url /\ n <> (saved_name resp url ++ ".part")%string) ->
  is_truthy_name index <> Some n ->
  respects (stays n) (transfer E url index).
Proof.
  intros Hnames Hindex. unfold transfer.
  destruct (get_of E url) as [resp|]; [|stays_auto].
  destruct (Hnames resp eq_refl) as [Hfinal Htmp].
  pose proof (record_download_stays E n index (saved_name resp url) url Hindex).
  stays_auto.
Qed.

(** X12: a download touches three names at most: the name it saves
    under, that name with [.part] appended, and the index file.  Every
    other entry of the directory is, after [download_file], what it was
    before. *)
Theorem download_file_leaves_other_names E url index w n :
  (forall resp, get_of E url = Some resp ->
                n <> saved_name resp url /\ n <> (saved_name resp url ++ ".part")%string) ->
  is_truthy_name index <> Some n ->
  entry_at (snd (download_file E url index w)) n = entry_at w n.
Proof.
  intros Hnames Hindex.
  assert (H : respects (stays n) (download_file E url index)).
  { pose proof (transfer_stays E url index n Hnames Hindex).
    unfold download_file, download_attempt. stays_auto. }
  apply H.
Qed.

(** X13: when the body stream breaks, [download_file] logs the failure and
    returns [False], and what had arrived stays behind in the directory
    under the temporary name; no other entry is touched. *)
Theorem interrupted_download_leaves_part_file E url index w resp :
  get_of E url = Some resp ->
  r_ok resp = true -> r_intact resp = false ->
  probe_rejects E url = false ->
  let tmp := (saved_name resp url ++ ".part")%string in
  usable_slot w tmp ->
  let out := download_file E url index w in
  fst out = Ok false /\
  holds_bytes (snd out) tmp (body_bytes resp) /\
  (forall n, n <> tmp -> entry_at (snd out) n = entry_at w n) /\
  In (Log ERROR "Failed to download %s: %s" [AStr url; AExn RequestException])
     (trace (snd out)).
Proof.
  intros Hget Hok Hbroken Hp tmp Hu out. subst out.
  rewrite (download_file_proceeds E url index w Hp).
  set (w2 := mkWorld (dest (snd (os_makedirs w))) (trace w ++ [Head url])).
  destruct (makedirs_dest w) as [d Hd].
  assert (Hu2 : usable_slot (mkWorld (Some d) (trace w2 ++ [Get url])) tmp).
  { apply (usable_same w); [|exact Hu].
    pose proof (makedirs_stays tmp w) as Hs. unfold stays, entry_at in Hs.
    rewrite Hd in Hs. exact Hs. }
  destruct (fetch_body_run E tmp resp (mkWorld (Some d) (trace w2 ++ [Get url])) d
              eq_refl (part_name_proper _) Hu2) as [w3 [Hrun [Hh Htr]]].
  rewrite Hbroken in Hrun.
  assert (Ht : transfer E url index w2 = (Raise RequestException, w3)).
  { unfold transfer. unfold bind at 1, emit at 1. cbn [dest trace w2].
    rewrite Hget, Hok. cbn [negb]. fold tmp.
    erewrite bind_raise; [reflexivity|]. rewrite <- Hd in Hrun. exact Hrun. }
  erewrite try_caught; [| exact Ht | reflexivity].
  erewrite bind_ok by apply run_logging. unfold ret. cbn [fst snd].
  split; [reflexivity|]. split; [exact Hh|]. split.
  - intros n Hn. unfold entry_at. cbn [dest].
    pose proof (fetch_body_stays E n tmp resp Hn
                  (mkWorld (Some d) (trace w2 ++ [Get url]))) as Hs.
    rewrite Hrun in Hs.
    unfold stays in Hs. cbn [snd] in Hs. unfold entry_at in Hs at 1.
    rewrite Hs. unfold entry_at. cbn [dest].
    pose proof (makedirs_stays n w) as Hm. unfold stays, entry_at in Hm.
    rewrite Hd in Hm. exact Hm.
  - cbn [trace]. apply in_or_app. right. now left.
Qed.

(** ** What a computation can raise *)

Section Raises.

Variable P : exn -> Prop.

Lemma raises_ret {A} (a : A) : raises_only P (ret a).
Proof. intros w e w' H. discriminate. Qed.

Lemma raises_raise {A} (e : exn) : P e -> raises_only P (@raise A e).
Proof. intros He w e' w' [= <- _]. exact He. Qed.

Lemma raises_lift {A} (r : res A) :
  (forall e, r = Raise e -> P e) -> raises_only P (lift r).
Proof. intros Hr w e w' [= H _]. now apply Hr. Qed.

Lemma raises_bind {A B} (m : M A) (f : A -> M B) :
  raises_only P m -> (forall a, raises_only P (f a)) -> raises_only P (bind m f).
Proof.
  intros Hm Hf w e w' H. unfold bind in H.
  destruct (m w) as [[a | e0] w0] eqn:Hmw.
  - now apply (Hf a w0 e w').
  - injection H as <- _. now apply (Hm w e0 w0).
Qed.

(** [try m except c: h]: what [m] raises and [c] does not catch, and
    what the handler raises. *)
Lemma raises_try {A} (Q : exn -> Prop) (m : M A) c (h : exn -> M A) :
  raises_only Q m ->
  (forall e, Q e -> c e = false -> P e) ->
  (forall e, raises_only P (h e)) ->
  raises_only P (try_except m c h).
Proof.
  intros Hm Hc Hh w e w' H. unfold try_except in H.
  destruct (m w) as [[a | e0] w0] eqn:Hmw; [discriminate|].
  destruct (c e0) eqn:Hce.
  - now apply (Hh e0 w0 e w').
  - injection H as <- _. apply Hc; [|exact Hce]. now apply (Hm w e0 w0).
Qed.

Lemma raises_with_dest {A} (f : listing -> M A) :
  P FileNotFoundError -> (forall d, raises_only P (f d)) ->
  raises_only P (with_dest f).
Proof.
  intros Hp Hf w e w' H. unfold with_dest in H.
  destruct (dest w) as [d|]; [now apply (Hf d w e w')|].
  injection H as <- _. exact Hp.
Qed.

Lemma raises_forM {A} (l : list A) (f : A -> M unit) :
  (forall a, raises_only P (f a)) -> raises_only P (forM_ l f).
Proof.
  intros Hf. induction l as [|a l IH]; simpl.
  - apply raises_ret.
  - apply raises_bind; auto.
Qed.

Lemma raises_mapM {A B} (l : list A) (f : A -> M B) :
  (forall a, raises_only P (f a)) -> raises_only P (mapM f l).
Proof.
  intros Hf. induction l as [|a l IH]; simpl.
  - apply raises_ret.
  - apply raises_bind; [apply Hf|]. intros b.
    apply raises_bind; [exact IH|]. intros bs. apply raises_ret.
Qed.

Lemma raises_emit ev : raises_only P (emit ev).
Proof. intros w e w' H. discriminate. Qed.

Lemma raises_set_dest d : raises_only P (set_dest d).
Proof. intros w e w' H. discriminate. Qed.

Lemma raises_makedirs : raises_only P os_makedirs.
Proof. intros w e w' H. unfold os_makedirs in H. destruct (dest w); discriminate. Qed.

Lemma raises_exists n : raises_only P (os_path_exists n).
Proof. intros w e w' H. unfold os_path_exists in H. destruct (dest w); discriminate. Qed.

Lemma raises_isfile n : raises_only P (os_path_isfile n).
Proof. intros w e w' H. unfold os_path_isfile in H. destruct (dest w); discriminate. Qed.

End Raises.

Lemma raises_weaken {A} (P Q : exn -> Prop) (m : M A) :
  (forall e, P e -> Q e) -> raises_only P m -> raises_only Q m.
Proof. intros H Hm w e w' Hr. apply H. now apply (Hm w e w'). Qed.

(** One step of a proof that a computation raises within a class. *)
Ltac raises_step :=
  lazymatch goal with
  | |- raises_only _ (bind _ _) => apply raises_bind; [| intros ?]
  | |- raises_only _ (ret _) => apply raises_ret
  | |- raises_only _ (raise _) => apply raises_raise
  | |- raises_only _ (with_dest _) => apply raises_with_dest; [| intros ?]
  | |- raises_only _ (forM_ _ _) => apply raises_forM; intros ?
  | |- raises_only _ (mapM _ _) => apply raises_mapM; intros ?
  | |- raises_only _ (logging _ _ _) => apply raises_emit
  | |- raises_only _ (emit _) => apply raises_emit
  | |- raises_only _ (set_dest _) => apply raises_set_dest
  | |- raises_only _ os_makedirs => apply raises_makedirs
  | |- raises_only _ (os_path_exists _) => apply raises_exists
  | |- raises_only _ (os_path_isfile _) => apply raises_isfile
  | |- raises_only _ (if ?b then _ else _) => destruct b
  | |- raises_only _ (match ?x with _ => _ end) => destruct x
  end.

Ltac raises_auto :=
  repeat (first [ raises_step | reflexivity | assumption
                | solve [auto] ]).

Lemma raises_listdir : raises_only (fun e => e = FileNotFoundError) os_listdir.
Proof. unfold os_listdir. raises_auto. Qed.

Lemma raises_getmtime n : raises_only (fun e => e = FileNotFoundError) (os_path_getmtime n).
Proof. unfold os_path_getmtime. raises_auto. Qed.

Lemma raises_remove n : raises_only os_error (os_remove n).
Proof. unfold os_remove. raises_auto. Qed.

Lemma raises_write_file n c t : raises_only os_error (write_file n c t).
Proof. unfold write_file. raises_auto. Qed.

Lemma raises_read_file n : raises_only os_error (read_file n).
Proof. unfold read_file. raises_auto. Qed.

Lemma raises_replace src dst : raises_only os_error (os_replace src dst).
Proof. unfold os_replace. raises_auto. Qed.

Lemma raises_append_bytes n k : raises_only os_error (append_bytes n k).
Proof. unfold append_bytes. raises_auto. Qed.

Lemma raises_stream_chunks tmp chunks : forall total,
  raises_only os_error (stream_chunks tmp chunks total).
Proof.
  induction chunks as [|c chunks IH]; intros total; simpl.
  - apply raises_ret.
  - destruct (0 <? c)%N; [|apply IH].
    apply raises_bind; [apply raises_append_bytes | intros _; apply IH].
Qed.

(** The probe never raises. *)
Lemma raises_preflight (P : exn -> Prop) E url : raises_only P (preflight E url).
Proof.
  unfold preflight.
  apply (raises_try P (fun e => e = RequestException)).
  - raises_auto.
  - intros e -> H. discriminate.
  - intros e. apply raises_ret.
Qed.

(** Nor does the index update, behind its [except Exception]. *)
Lemma raises_record_download (P : exn -> Prop) E index filename url :
  raises_only P (record_download E index filename url).
Proof.
  unfold record_download. destruct (is_truthy_name index) as [i|]; [|apply raises_ret].
  apply (raises_try P (fun _ => True)).
  - intros w e w' _. exact I.
  - intros e _ H. discriminate.
  - intros e. apply raises_emit.
Qed.

Lemma raises_fetch_body E tmp resp :
  raises_only (fun e => os_error e \/ e = RequestException) (fetch_body E tmp resp).
Proof.
  unfold fetch_body.
  apply raises_bind; [|intros _].
  { apply (raises_weaken os_error); [auto | apply raises_write_file]. }
  apply raises_bind; [|intros total].
  { apply (raises_weaken os_error); [auto | apply raises_stream_chunks]. }
  raises_auto.
Qed.

Lemma raises_transfer E url index :
  raises_only (fun e => os_error e \/ e = RequestException) (transfer E url index).
Proof.
  unfold transfer. apply raises_bind; [apply raises_emit | intros _].
  destruct (get_of E url) as [resp|]; [|raises_auto].
  destruct (negb (r_ok resp)); [raises_auto|].
  apply raises_bind; [apply raises_fetch_body | intros total].
  destruct (total <? MIN_FILESIZE_BYTES).
  - apply raises_bind; [|intros _; raises_auto].
    apply (raises_try _ os_error).
    + apply raises_remove.
    + auto.
    + intros e. apply raises_ret.
  - apply raises_bind; [|intros _].
    { apply (raises_weaken os_error); [auto | apply raises_replace]. }
    apply raises_bind; [apply raises_emit | intros _].
    apply raises_bind; [apply raises_record_download | intros _; apply raises_ret].
Qed.

Lemma raises_download_file E url index :
  raises_only os_error (download_file E url index).
Proof.
  unfold download_file.
  apply (raises_try _ (fun e => os_error e \/ e = RequestException)).
  - unfold download_attempt.
    apply raises_bind; [apply raises_makedirs | intros _].
    apply raises_bind; [apply raises_preflight | intros go].
    destruct (negb go); [apply raises_ret | apply raises_transfer].
  - intros e [H | ->] Hc; [exact H | discriminate].
  - intros e. raises_auto.
Qed.

Lemma raises_download_all E index urls :
  raises_only os_error (download_all E index urls).
Proof.
  induction urls as [|u urls IH]; simpl; [apply raises_ret|].
  apply raises_bind; [apply raises_download_file | intros ok].
  apply raises_bind; [exact IH | intros rest; apply raises_ret].
Qed.

Lemma raises_stat_all : raises_only (fun e => e = FileNotFoundError) stat_all.
Proof.
  unfold stat_all. apply raises_bind; [apply raises_listdir | intros names].
  apply raises_mapM. intros f.
  apply raises_bind; [apply raises_getmtime | intros t; apply raises_ret].
Qed.

Lemma raises_relist (P : exn -> Prop) :
  raises_only P (try_except (fs <- stat_all ;; ret (Some fs))%M
                            is_FileNotFoundError (fun _ => ret None)).
Proof.
  apply (raises_try P (fun e => e = FileNotFoundError)).
  - apply raises_bind; [apply raises_stat_all | intros fs; apply raises_ret].
  - intros e -> H. discriminate.
  - intros e. apply raises_ret.
Qed.

Lemma raises_prune_files E keep_days max_files :
  raises_only os_error (prune_files E keep_days max_files).
Proof.
  unfold prune_files.
  apply raises_bind; [apply raises_relist | intros [files|]]; [|apply raises_ret].
  apply raises_bind; [|intros _].
  { destruct (0 <? keep_days); [|apply raises_ret].
    apply raises_forM. intros fm. destruct (snd fm <? _); [|apply raises_ret].
    apply raises_bind; [apply raises_remove | intros _; apply raises_emit]. }
  apply raises_bind; [apply raises_relist | intros [files'|]]; [|apply raises_ret].
  destruct ((0 <? max_files) && _); [|apply raises_ret].
  apply raises_forM. intros fm.
  apply raises_bind; [apply raises_remove | intros _; apply raises_emit].
Qed.

Lemma raises_mirror (P : exn -> Prop) names :
  raises_only P (mirror_missing_files names).
Proof.
  unfold mirror_missing_files.
  apply raises_bind; [|intros [existing|]]; [| |apply raises_ret].
  - apply (raises_try P (fun e => e = FileNotFoundError)).
    + apply raises_bind; [apply raises_listdir | intros ns; apply raises_ret].
    + intros e -> H. discriminate.
    + intros e. apply raises_ret.
  - apply raises_forM. intros f.
    apply (raises_try P (fun _ => True)).
    + intros w e w' _. exact I.
    + intros e _ H. discriminate.
    + intros e. apply raises_emit.
Qed.

Lemma raises_keep_files (P : exn -> Prop) names : raises_only P (keep_files names).
Proof.
  induction names as [|f names IH]; simpl; [apply raises_ret|].
  apply raises_bind; [apply raises_isfile | intros b].
  apply raises_bind; [exact IH | intros rest; apply raises_ret].
Qed.

Lemma raises_current_on_disk (P : exn -> Prop) : raises_only P current_on_disk.
Proof.
  unfold current_on_disk.
  apply (raises_try P (fun e => e = FileNotFoundError)).
  - apply raises_bind; [apply raises_listdir | intros ns].
    apply raises_keep_files.
  - intros e -> H. discriminate.
  - intros e. apply raises_ret.
Qed.

Lemma raises_sync_media E cfg urls : raises_only os_error (sync_media E cfg urls).
Proof.
  unfold sync_media.
  apply raises_bind; [apply raises_download_all | intros names].
  apply raises_bind; [apply raises_prune_files | intros _].
  destruct (mirror_missing cfg); [|apply raises_ret].
  apply raises_bind; [apply raises_current_on_disk | intros on_disk].
  apply raises_mirror.
Qed.


(** X15: the reconciliation always completes: whatever the directory
    holds, [mirror_missing_files] returns normally; a deletion that fails
    is logged and the loop goes on. *)
Theorem mirror_missing_files_completes names w :
  fst (mirror_missing_files names w) = Ok tt.
Proof.
  destruct (mirror_missing_files names w) as [[[]|e] w'] eqn:Hrun; [reflexivity|].
  exfalso. exact (raises_mirror (fun _ => False) names w e w' Hrun).
Qed.

Section SelectorRaises.

Variable str_of : pyval -> string.

Lemma rbind_raises {A B} (P : exn -> Prop) (r : res A) (f : A -> res B) :
  (forall e, r = Raise e -> P e) ->
  (forall a e, f a = Raise e -> P e) ->
  forall e, rbind r f = Raise e -> P e.
Proof.
  intros Hr Hf e. destruct r as [a|e0]; simpl; [apply Hf|].
  intros [= <-]. now apply Hr.
Qed.

Lemma is_thumbish_name_raises x e :
  _is_thumbish_name x = Raise e -> e = AttributeError.
Proof. unfold _is_thumbish_name. destruct (py_or x (VStr "")); congruence. Qed.

Lemma full_url_raises location path e :
  _full_url str_of location path = Raise e -> e = AttributeError.
Proof.
  unfold _full_url. destruct path; try congruence.
  destruct (_ || _); [congruence|]. destruct (truthy location); congruence.
Qed.

Lemma thumb_signals_raises k fname dtype u e :
  thumb_signals k fname dtype u = Raise e -> e = AttributeError.
Proof.
  unfold thumb_signals.
  apply (rbind_raises (fun x => x = AttributeError)); [apply is_thumbish_name_raises | intros [] e1; [congruence|]].
  apply (rbind_raises (fun x => x = AttributeError)); [apply is_thumbish_name_raises | intros [] e2; [congruence|]].
  apply (rbind_raises (fun x => x = AttributeError)); [apply is_thumbish_name_raises | intros [] e3; [congruence|]].
  apply is_thumbish_name_raises.
Qed.

Lemma candidate_from_derivative_raises k v location e :
  _candidate_from_derivative str_of k v location = Raise e -> e = AttributeError.
Proof.
  unfold _candidate_from_derivative.
  destruct (negb (truthy (derivative_url v))); [congruence|].
  apply (rbind_raises (fun x => x = AttributeError)); [apply full_url_raises | intros u e1].
  apply (rbind_raises (fun x => x = AttributeError)); [apply thumb_signals_raises | intros [] e2; [congruence|]].
  destruct (if negb _ then _ else _). congruence.
Qed.

Lemma collect_candidates_raises location d : forall e,
  collect_candidates str_of location d = Raise e -> e = AttributeError.
Proof.
  induction d as [|[k v] d IH]; simpl; [congruence|].
  destruct v; try exact IH.
  apply (rbind_raises (fun x => x = AttributeError)); [apply candidate_from_derivative_raises | intros c e1].
  apply (rbind_raises (fun x => x = AttributeError)); [exact IH | intros rest e2; congruence].
Qed.

Lemma fallback_url_raises a e :
  fallback_url str_of a = Raise e -> e = AttributeError.
Proof.
  unfold fallback_url. destruct (truthy (dict_get a "url_path")); [|congruence].
  apply (rbind_raises (fun x => x = AttributeError)); [apply is_thumbish_name_raises | intros t e1].
  destruct (negb t); [|congruence].
  apply (rbind_raises (fun x => x = AttributeError)); [apply full_url_raises | intros u e2; congruence].
Qed.

Lemma pick_best_raises asset e :
  pick_best_download_url_from_asset str_of asset = Raise e -> e = AttributeError.
Proof.
  unfold pick_best_download_url_from_asset. destruct asset; try congruence.
  apply (rbind_raises (fun x => x = AttributeError)); [apply collect_candidates_raises | intros cands e1].
  destruct (first_preferred _ _); [congruence|].
  destruct (filter _ _); [apply fallback_url_raises | congruence].
Qed.

Lemma raises_select_media items :
  raises_only (fun e => e = AttributeError) (select_media str_of items).
Proof.
  induction items as [|[guid asset] items IH]; simpl; [apply raises_ret|].
  apply raises_bind; [apply raises_lift, pick_best_raises | intros url].
  destruct url as [[|c u]|].
  - apply raises_bind; [apply raises_emit | intros _; exact IH].
  - apply raises_bind; [apply raises_emit | intros _].
    apply raises_bind; [exact IH | intros rest; apply raises_ret].
  - apply raises_bind; [apply raises_emit | intros _; exact IH].
Qed.

Lemma raises_fetch_album_media url C :
  raises_only (fun e => e = AttributeError) (fetch_album_media str_of url C).
Proof.
  unfold fetch_album_media.
  apply (raises_try _ (fun e => e = AttributeError \/ e = RequestException)).
  - destruct (negb (PyStr.has_char "#" url)); [raises_auto|].
    destruct C as [| |items]; [raises_auto | raises_auto |].
    apply raises_bind; [|intros urls].
    { apply (raises_weaken (fun e => e = AttributeError)); [auto|].
      apply raises_select_media. }
    raises_auto.
  - intros e [-> | ->] H; [reflexivity | discriminate].
  - intros e. raises_auto.
Qed.


End SelectorRaises.

(** ** The requests of a round *)

Lemma asks_only_refl urls w : asks_only urls w w.
Proof. exists []. split; [now rewrite app_nil_r | constructor]. Qed.

Lemma asks_only_trans urls w1 w2 w3 :
  asks_only urls w1 w2 -> asks_only urls w2 w3 -> asks_only urls w1 w3.
Proof.
  intros [e1 [H1 F1]] [e2 [H2 F2]]. exists (e1 ++ e2). split.
  - now rewrite H2, H1, app_assoc.
  - apply Forall_app. auto.
Qed.

Lemma asks_only_more urls urls' w w' :
  (forall u, In u urls -> In u urls') -> asks_only urls w w' -> asks_only urls' w w'.
Proof.
  intros Hsub [evs [Ht Hf]]. exists evs. split; [exact Ht|].
  eapply Forall_impl; [|exact Hf]. intros [u|u|l f a]; simpl; auto.
Qed.

(** A computation that leaves the trace alone asks for nothing. *)
Lemma silent_asks_only {A} urls (m : M A) :
  (forall w, trace (snd (m w)) = trace w) -> respects (asks_only urls) m.
Proof.
  intros H w. exists []. split; [now rewrite H, app_nil_r | constructor].
Qed.

Lemma emit_asks_only urls ev : allowed urls ev -> respects (asks_only urls) (emit ev).
Proof. intros H w. exists [ev]. split; [reflexivity | now constructor]. Qed.

Lemma log_asks_only urls lvl fmt args : respects (asks_only urls) (emit (Log lvl fmt args)).
Proof. now apply emit_asks_only. Qed.

Lemma set_dest_asks_only urls d : respects (asks_only urls) (set_dest d).
Proof. now apply silent_asks_only. Qed.

Lemma makedirs_asks_only urls : respects (asks_only urls) os_makedirs.
Proof. apply silent_asks_only. intros w. apply makedirs_trace. Qed.

Lemma exists_asks_only urls n : respects (asks_only urls) (os_path_exists n).
Proof. apply silent_asks_only. intros w. unfold os_path_exists. now destruct (dest w). Qed.

Lemma isfile_asks_only urls n : respects (asks_only urls) (os_path_isfile n).
Proof. apply silent_asks_only. intros w. unfold os_path_isfile. now destruct (dest w). Qed.

Create HintDb asks_db.
#[local] Hint Resolve log_asks_only set_dest_asks_only makedirs_asks_only
  exists_asks_only isfile_asks_only : asks_db.

Ltac asks_auto :=
  repeat (first [ progress eauto 2 with asks_db nocore
                | respects_step asks_only_refl asks_only_trans ]).

Lemma listdir_asks_only urls : respects (asks_only urls) os_listdir.
Proof. unfold os_listdir. asks_auto. Qed.

Lemma getmtime_asks_only urls n : respects (asks_only urls) (os_path_getmtime n).
Proof. unfold os_path_getmtime. asks_auto. Qed.

Lemma remove_asks_only urls n : respects (asks_only urls) (os_remove n).
Proof. unfold os_remove. asks_auto. Qed.

Lemma write_file_asks_only urls n c t : respects (asks_only urls) (write_file n c t).
Proof. unfold write_file. asks_auto. Qed.

Lemma read_file_asks_only urls n : respects (asks_only urls) (read_file n).
Proof. unfold read_file. asks_auto. Qed.

Lemma replace_asks_only urls src dst : respects (asks_only urls) (os_replace src dst).
Proof. unfold os_replace. asks_auto. Qed.

Lemma append_bytes_asks_only urls n k : respects (asks_only urls) (append_bytes n k).
Proof. unfold append_bytes. asks_auto. Qed.

#[local] Hint Resolve listdir_asks_only getmtime_asks_only remove_asks_only
  write_file_asks_only read_file_asks_only replace_asks_only
  append_bytes_asks_only : asks_db.

Lemma stream_chunks_asks_only urls tmp chunks : forall total,
  respects (asks_only urls) (stream_chunks tmp chunks total).
Proof. induction chunks as [|c chunks IH]; intros total; simpl; asks_auto. Qed.

#[local] Hint Resolve stream_chunks_asks_only : asks_db.

Lemma download_file_asks_only urls E url index :
  In url urls -> respects (asks_only urls) (download_file E url index).
Proof.
  intros Hin.
  assert (Hh : respects (asks_only urls) (emit (Head url)))
    by now apply emit_asks_only.
  assert (Hg : respects (asks_only urls) (emit (Get url)))
    by now apply emit_asks_only.
  unfold download_file, download_attempt, preflight, transfer, fetch_body,
    record_download, update_index, json_load.
  asks_auto.
Qed.

Lemma download_all_asks_only urls E index l :
  (forall u, In u l -> In u urls) ->
  respects (asks_only urls) (download_all E index l).
Proof.
  induction l as [|u l IH]; intros Hsub; simpl.
  - asks_auto.
  - pose proof (download_file_asks_only urls E u index (Hsub u (or_introl eq_refl))).
    pose proof (IH (fun x Hx => Hsub x (or_intror Hx))).
    asks_auto.
Qed.

Lemma prune_files_asks_only urls E keep_days max_files :
  respects (asks_only urls) (prune_files E keep_days max_files).
Proof. unfold prune_files, stat_all. asks_auto. Qed.

Lemma keep_files_asks_only urls names : respects (asks_only urls) (keep_files names).
Proof. induction names as [|f names IH]; simpl; asks_auto. Qed.

Lemma mirror_asks_only urls names :
  respects (asks_only urls) (mirror_missing_files names).
Proof. unfold mirror_missing_files. asks_auto. Qed.

Lemma sync_media_asks_only E cfg urls :
  respects (asks_only urls) (sync_media E cfg urls).
Proof.
  unfold sync_media, current_on_disk.
  pose proof (download_all_asks_only urls E (index_filename cfg) urls (fun u H => H)).
  pose proof (prune_files_asks_only urls E (keep_days cfg) (max_files cfg)).
  pose proof (keep_files_asks_only urls).
  pose proof (mirror_asks_only urls).
  asks_auto.
Qed.

Section AlbumRequests.

Variable str_of : pyval -> string.

Lemma select_media_asks_only urls items :
  respects (asks_only urls) (select_media str_of items).
Proof. induction items as [|[guid asset] items IH]; simpl; asks_auto. Qed.

Lemma fetch_album_media_asks_only urls url C :
  respects (asks_only urls) (fetch_album_media str_of url C).
Proof.
  unfold fetch_album_media. pose proof (select_media_asks_only urls). asks_auto.
Qed.


End AlbumRequests.

(** ** Sub-directories of the destination *)

Lemma dirs_stay_refl w : dirs_stay w w.
Proof. intros n e H _. exact H. Qed.

Lemma dirs_stay_trans w1 w2 w3 : dirs_stay w1 w2 -> dirs_stay w2 w3 -> dirs_stay w1 w3.
Proof. intros H1 H2 n e He Hd. apply H2; [|exact Hd]. now apply H1. Qed.

(** A computation that leaves the directory alone. *)
Lemma still_dirs_stay {A} (m : M A) :
  (forall w, dest (snd (m w)) = dest w) -> respects dirs_stay m.
Proof. intros H w n e He _. unfold entry_at in *. now rewrite H. Qed.

(** A computation that changes the entry under one name at most, and
    nothing when a directory sits there. *)
Lemma dirs_stay_by_name {A} name (m : M A) :
  (forall n, n <> name -> respects (stays n) m) ->
  (forall w e, entry_at w name = Some e -> is_directory e = true ->
               entry_at (snd (m w)) name = Some e) ->
  respects dirs_stay m.
Proof.
  intros Hother Hname w n e He Hd.
  destruct (String.eqb_spec n name) as [-> | Hne]; [now apply Hname|].
  rewrite <- He. apply (Hother n Hne w).
Qed.

Lemma emit_dirs_stay ev : respects dirs_stay (emit ev).
Proof. now apply still_dirs_stay. Qed.

Lemma makedirs_dirs_stay : respects dirs_stay os_makedirs.
Proof.
  intros w n e He _. pose proof (makedirs_stays n w) as H. unfold stays in H.
  now rewrite H.
Qed.

Lemma exists_dirs_stay n : respects dirs_stay (os_path_exists n).
Proof.
  apply still_dirs_stay. intros w. unfold os_path_exists.
  now destruct (dest w) eqn:H.
Qed.

Lemma isfile_dirs_stay n : respects dirs_stay (os_path_isfile n).
Proof.
  apply still_dirs_stay. intros w. unfold os_path_isfile.
  now destruct (dest w) eqn:H.
Qed.

Lemma listdir_dirs_stay : respects dirs_stay os_listdir.
Proof.
  apply still_dirs_stay. intros w. unfold os_listdir, with_dest.
  now destruct (dest w) eqn:H.
Qed.

Lemma getmtime_dirs_stay n : respects dirs_stay (os_path_getmtime n).
Proof.
  apply still_dirs_stay. intros w. unfold os_path_getmtime, with_dest.
  destruct (dest w) as [d|] eqn:H; [|exact H].
  destruct (names_directory n); [exact H|]. now destruct (lookup n d).
Qed.

Lemma read_file_dirs_stay n : respects dirs_stay (read_file n).
Proof.
  apply still_dirs_stay. intros w. unfold read_file, with_dest.
  destruct (dest w) as [d|] eqn:H; [|exact H].
  destruct (names_directory n); [exact H|].
  destruct (lookup n d) as [e|]; [|exact H].
  destruct (e_kind e); try exact H. now destruct (e_readable e).
Qed.

Lemma remove_dirs_stay name : respects dirs_stay (os_remove name).
Proof.
  apply (dirs_stay_by_name name); [intros n Hn; now apply remove_stays|].
  intros w e He Hd. unfold os_remove, with_dest, entry_at in *.
  destruct (dest w) as [d|] eqn:Hdw; [|discriminate].
  destruct (names_directory name); simpl; rewrite ?Hdw; [exact He|].
  rewrite He, Hd. simpl. now rewrite Hdw.
Qed.

Lemma write_file_dirs_stay name c t : respects dirs_stay (write_file name c t).
Proof.
  apply (dirs_stay_by_name name); [intros n Hn; now apply write_file_stays|].
  intros w e He Hd. unfold write_file, with_dest, entry_at in *.
  destruct (dest w) as [d|] eqn:Hdw; [|discriminate].
  destruct (names_directory name); simpl; rewrite ?Hdw; [exact He|].
  rewrite He. unfold is_directory in Hd.
  destruct (e_kind e); try discriminate. simpl. now rewrite Hdw.
Qed.

(** Streaming a body: a directory under the temporary name makes the
    [open] fail before anything is written. *)
Lemma fetch_body_dirs_stay E tmp resp : respects dirs_stay (fetch_body E tmp resp).
Proof.
  apply (dirs_stay_by_name tmp); [intros n Hn; now apply fetch_body_stays|].
  intros w e He Hd.
  assert (Hw : write_file tmp (Binary 0) (now E) w = (Raise IsADirectoryError, w)).
  { unfold write_file, with_dest, entry_at in *.
    destruct (dest w) as [d|] eqn:Hdw; [|discriminate].
    destruct (names_directory tmp); [reflexivity|].
    rewrite He. unfold is_directory in Hd. now destruct (e_kind e). }
  unfold fetch_body. erewrite bind_raise by exact Hw. exact He.
Qed.

(** Promoting a temporary file: it is a regular file, and a directory
    under the final name makes [os.replace] fail. *)
Lemma replace_dirs_stay src dst w k :
  holds_bytes w src k -> dirs_stay w (snd (os_replace src dst w)).
Proof.
  intros [e0 [He0 [Hk0 _]]] n e He Hd.
  unfold os_replace, with_dest, entry_at in *.
  destruct (dest w) as [d|] eqn:Hdw; [|discriminate].
  rewrite He0.
  destruct (names_directory dst); [simpl; now rewrite Hdw|].
  assert (Hns : n <> src).
  { intros ->. rewrite He0 in He. injection He as <-.
    unfold is_directory in Hd. now rewrite Hk0 in Hd. }
  assert (Hgo : forall w',
            w' = set_dest (delete src (delete dst d) ++ [(dst, e0)]) w ->
            lookup dst d <> Some e ->
            match dest (snd w') with
            | Some d' => lookup n d'
            | None => None
            end = Some e).
  { intros w' -> Hdst. simpl.
    assert (Hnd : n <> dst) by (intros ->; contradiction).
    rewrite lookup_app, !lookup_delete_ne by congruence. now rewrite He. }
  destruct (lookup dst d) as [[[] ? ? ? ?]|] eqn:Hl.
  - apply Hgo; [reflexivity|]. intros [= <-]. discriminate.
  - simpl. now rewrite Hdw.
  - apply Hgo; [reflexivity|]. intros [= <-]. discriminate.
  - apply Hgo; [reflexivity | discriminate].
Qed.

Create HintDb dirs_db.
#[local] Hint Resolve emit_dirs_stay makedirs_dirs_stay exists_dirs_stay
  isfile_dirs_stay listdir_dirs_stay getmtime_dirs_stay read_file_dirs_stay
  remove_dirs_stay write_file_dirs_stay fetch_body_dirs_stay : dirs_db.

Ltac dirs_auto :=
  repeat (first [ progress eauto 2 with dirs_db nocore
                | respects_step dirs_stay_refl dirs_stay_trans ]).

Lemma record_download_dirs_stay E index filename url :
  respects dirs_stay (record_download E index filename url).
Proof. unfold record_download, update_index, json_load. dirs_auto. Qed.

Lemma transfer_dirs_stay E url index : respects dirs_stay (transfer E url index).
Proof.
  unfold transfer.
  apply respects_bind; [intros; eapply dirs_stay_trans; eassumption
                       | apply emit_dirs_stay | intros _].
  destruct (get_of E url) as [resp|]; [|dirs_auto].
  destruct (negb (r_ok resp)); [dirs_auto|].
  set (final := saved_name resp url).
  set (tmp := (final ++ ".part")%string).
  intros w. unfold bind at 1.
  pose proof (fetch_body_dirs_stay E tmp resp w) as Hfb.
  destruct (fetch_body E tmp resp w) as [[total|e] w1] eqn:Hrun; [|exact Hfb].
  apply fetch_body_ok_holds in Hrun. cbn [snd] in Hfb.
  apply (dirs_stay_trans w w1); [exact Hfb|].
  destruct (total <? MIN_FILESIZE_BYTES).
  - assert (H : respects dirs_stay
                  (try_except (os_remove tmp) is_FileNotFoundError (fun _ => ret tt) ;;;
                   logging WARNING
                     "Rejecting likely thumbnail after download (size=%d): %s"
                     [AInt total; AStr url] ;;;
                   ret false)%M) by dirs_auto.
    apply H.
  - unfold bind at 1.
    pose proof (replace_dirs_stay tmp final w1 _ Hrun) as Hrep.
    destruct (os_replace tmp final w1) as [[[]|e] w2]; [|exact Hrep].
    cbn [snd] in Hrep. apply (dirs_stay_trans w1 w2); [exact Hrep|].
    pose proof (record_download_dirs_stay E index final url) as Hrec.
    assert (H : respects dirs_stay
                  (logging INFO "Downloaded: %s (%d bytes)" [AStr final; AInt total] ;;;
                   record_download E index final url ;;;
                   ret true)%M) by dirs_auto.
    apply H.
Qed.

Lemma download_file_dirs_stay E url index :
  respects dirs_stay (download_file E url index).
Proof.
  pose proof (transfer_dirs_stay E url index).
  unfold download_file, download_attempt, preflight. dirs_auto.
Qed.

Lemma download_all_dirs_stay E index urls :
  respects dirs_stay (download_all E index urls).
Proof.
  pose proof (download_file_dirs_stay E).
  induction urls as [|u urls IH]; simpl; dirs_auto.
Qed.

Lemma prune_files_dirs_stay E keep_days max_files :
  respects dirs_stay (prune_files E keep_days max_files).
Proof. unfold prune_files, stat_all. dirs_auto. Qed.

Lemma keep_files_dirs_stay names : respects dirs_stay (keep_files names).
Proof. induction names as [|f names IH]; simpl; dirs_auto. Qed.

Lemma mirror_dirs_stay names : respects dirs_stay (mirror_missing_files names).
Proof. unfold mirror_missing_files. dirs_auto. Qed.

(** X18: pruning never removes a sub-directory: whatever the retention
    settings, and whether [prune_files] completes or stops on an error,
    every sub-directory of the destination is afterwards as it was. *)
Theorem prune_files_keeps_directories E keep_days max_files w n e :
  entry_at w n = Some e -> is_directory e = true ->
  entry_at (snd (prune_files E keep_days max_files w)) n = Some e.
Proof. intros He Hd. now apply (prune_files_dirs_stay E keep_days max_files w). Qed.

Section AlbumDirectories.

Variable str_of : pyval -> string.

Lemma select_media_dirs_stay items : respects dirs_stay (select_media str_of items).
Proof. induction items as [|[guid asset] items IH]; simpl; dirs_auto. Qed.

(** X19: a round never removes, replaces or rewrites a sub-directory of
    the destination: every sub-directory found there before [sync_album]
    is there afterwards, as it was, whatever the album, the catalog and
    the network answer and however the round ends. *)
Theorem sync_album_keeps_directories E cfg C w n e :
  entry_at w n = Some e -> is_directory e = true ->
  entry_at (snd (sync_album str_of E cfg C w)) n = Some e.
Proof.
  assert (H : respects dirs_stay (sync_album str_of E cfg C)).
  { pose proof select_media_dirs_stay.
    pose proof (download_all_dirs_stay E).
    pose proof (prune_files_dirs_stay E).
    pose proof keep_files_dirs_stay.
    pose proof mirror_dirs_stay.
    unfold sync_album, fetch_album_media, sync_media, current_on_disk.
    dirs_auto. }
  intros He Hd. now apply (H w).
Qed.

End AlbumDirectories.

(** ** More on retention *)

Lemma forM_filter {A} (p : A -> bool) (f : A -> M unit) (l : list A) : forall w,
  forM_ l (fun x => if p x then f x else ret tt) w = forM_ (filter p l) f w.
Proof.
  induction l as [|x l IH]; intros w; [reflexivity|].
  cbn [forM_ filter]. destruct (p x).
  - cbn [forM_]. unfold bind. destruct (f x w) as [[[]|e] w1]; [apply IH | reflexivity].
  - unfold bind, ret. apply IH.
Qed.

Lemma nodup_fst_filter {B} (p : string * B -> bool) (l : list (string * B)) :
  NoDup (map fst l) -> NoDup (map fst (filter p l)).
Proof.
  induction l as [|[n b] l IH]; simpl; [auto|].
  intros Hnd. inversion Hnd as [|? ? Hnot Hnd']; subst.
  destruct (p (n, b)); simpl; [|now apply IH].
  constructor; [|now apply IH]. intros Hin. apply Hnot.
  apply in_map_iff in Hin as [x [Hx Hin]]. apply filter_In in Hin as [Hin _].
  rewrite <- Hx. now apply in_map.
Qed.

(** The loop of the age pass: the entries older than the cut-off go. *)
Lemma age_pass_run E K d tr :
  wf_listing d ->
  let cutoff := now E - K * SECONDS_PER_DAY in
  (forall n e, In (n, e) d -> e_mtime e < cutoff -> is_directory e = false) ->
  forM_ (sort_desc (stamps d))
    (fun fm => if snd fm <? now E - K * SECONDS_PER_DAY
               then (os_remove (fst fm) ;;;
                     logging INFO "Pruned by age: %s" [AStr (fst fm)])%M
               else ret tt) (mkWorld (Some d) tr)
  = (Ok tt,
     mkWorld (Some (filter (fun ne => negb (e_mtime (snd ne) <? cutoff)) d))
       (tr ++ map (fun fm => Log INFO "Pruned by age: %s" [AStr (fst fm)])
                  (filter (fun fm => snd fm <? cutoff) (sort_desc (stamps d))))).
Proof.
  intros Hwf cutoff Hfiles.
  set (old := filter (fun fm => snd fm <? cutoff) (sort_desc (stamps d))).
  assert (Hold : forall x, In x old -> In x (stamps d) /\ snd x < cutoff).
  { intros x Hx. apply filter_In in Hx as [Hx Hlt]. split.
    - now apply (Permutation_in _ (sort_desc_perm _)).
    - now apply Z.ltb_lt. }
  rewrite (forM_filter (fun fm => snd fm <? now E - K * SECONDS_PER_DAY)
             (fun fm => (os_remove (fst fm) ;;;
                         logging INFO "Pruned by age: %s" [AStr (fst fm)])%M)).
  fold cutoff. fold old. rewrite remove_each.
  - f_equal. f_equal. f_equal.
    apply filter_ext_in. intros [n e] Hin. cbn [fst snd]. f_equal.
    destruct (e_mtime e <? cutoff) eqn:Hlt.
    + apply mem_spec. change n with (fst (n, e_mtime e)). apply in_map.
      apply filter_In. split; [|exact Hlt].
      apply (Permutation_in _ (Permutation_sym (sort_desc_perm _))).
      apply stamps_in. now exists e.
    + apply mem_false. intros Hm. apply in_map_iff in Hm as [[n' t] [Hn Hx]].
      simpl in Hn. subst n'. destruct (Hold _ Hx) as [Hs Ht]. simpl in Ht.
      apply stamps_in in Hs as [e' [He' Hte]]. simpl in He', Hte.
      destruct Hwf as [Hnd _].
      pose proof (lookup_in _ _ _ Hnd Hin) as L1.
      pose proof (lookup_in _ _ _ Hnd He') as L2.
      rewrite L1 in L2. injection L2 as <-.
      apply Z.ltb_ge in Hlt. lia.
  - apply nodup_fst_filter.
    apply (Permutation_NoDup (l := map fst (stamps d))).
    + symmetry. apply Permutation_map, sort_desc_perm.
    + rewrite stamps_names. apply Hwf.
  - intros x Hx. destruct (Hold x Hx) as [Hs Hlt].
    apply stamps_in in Hs as [e [He Ht]]. destruct Hwf as [Hnd Hnames].
    split; [now apply Hnames with e|].
    exists e. split; [now apply lookup_in|].
    apply (Hfiles (fst x) e He). now rewrite <- Ht.
Qed.

(** With [keep_days > 0], pruning is the age pass followed by the count
    pass alone. *)
Lemma prune_age_then_count E K N d tr :
  wf_listing d -> 0 < K ->
  let cutoff := now E - K * SECONDS_PER_DAY in
  (forall n e, In (n, e) d -> e_mtime e < cutoff -> is_directory e = false) ->
  prune_files E K N (mkWorld (Some d) tr)
  = prune_files E 0 N
      (mkWorld (Some (filter (fun ne => negb (e_mtime (snd ne) <? cutoff)) d))
         (tr ++ map (fun fm => Log INFO "Pruned by age: %s" [AStr (fst fm)])
                    (filter (fun fm => snd fm <? cutoff) (sort_desc (stamps d))))).
Proof.
  intros Hwf HK cutoff Hfiles. unfold prune_files.
  erewrite bind_ok; [|now apply run_relist].
  destruct (Z.ltb_spec 0 K) as [_ | ?]; [|lia]. cbv zeta iota beta.
  erewrite bind_ok; [|now apply age_pass_run].
  symmetry.
  erewrite bind_ok; [|apply run_relist; now apply wf_filter].
  change (0 <? 0) with false. cbv iota.
  erewrite bind_ok; [|reflexivity].
  reflexivity.
Qed.

(** Nothing is due: no entry is older than the cut-off, and the directory
    holds no more than [max_files] entries. *)
Lemma prune_nothing_due E K N d tr :
  wf_listing d ->
  (0 < K -> forall n e, In (n, e) d -> now E - K * SECONDS_PER_DAY <= e_mtime e) ->
  (0 < N -> Z.of_nat (List.length d) <= N) ->
  prune_files E K N (mkWorld (Some d) tr) = (Ok tt, mkWorld (Some d) tr).
Proof.
  intros Hwf Hfresh Hfew. unfold prune_files.
  erewrite bind_ok; [|now apply run_relist]. cbv zeta iota beta.
  assert (Hage :
    (if 0 <? K
     then forM_ (sort_desc (stamps d))
            (fun fm => if snd fm <? now E - K * SECONDS_PER_DAY
                       then (os_remove (fst fm) ;;;
                             logging INFO "Pruned by age: %s" [AStr (fst fm)])%M
                       else ret tt)
     else ret tt) (mkWorld (Some d) tr) = (Ok tt, mkWorld (Some d) tr)).
  { destruct (Z.ltb_spec 0 K) as [HK | _]; [|reflexivity].
    rewrite (forM_filter (fun fm => snd fm <? now E - K * SECONDS_PER_DAY)
               (fun fm => (os_remove (fst fm) ;;;
                           logging INFO "Pruned by age: %s" [AStr (fst fm)])%M)).
    rewrite filter_none; [reflexivity|].
    intros x Hx. apply (Permutation_in _ (sort_desc_perm _)) in Hx.
    apply stamps_in in Hx as [e [He Ht]]. apply Z.ltb_ge. rewrite Ht.
    now apply (Hfresh HK (fst x) e). }
  erewrite bind_ok; [|exact Hage].
  erewrite bind_ok; [|now apply run_relist]. cbv zeta iota beta.
  rewrite (Permutation_length (sort_desc_perm _)). unfold stamps. rewrite length_map.
  destruct (Z.ltb_spec 0 N) as [HN | _]; [|reflexivity].
  destruct (Z.ltb_spec N (Z.of_nat (List.length d))) as [Hlt | _]; [|reflexivity].
  specialize (Hfew HN). lia.
Qed.

(** The age pass run alone. *)
Lemma prune_removes_age E K d tr :
  wf_listing d -> 0 < K ->
  (forall n e, In (n, e) d -> e_mtime e < now E - K * SECONDS_PER_DAY ->
               is_directory e = false) ->
  snd (prune_files E K 0 (mkWorld (Some d) tr))
  = mkWorld (Some (filter (fun ne => negb (e_mtime (snd ne) <? now E - K * SECONDS_PER_DAY)) d))
      (tr ++ map (fun fm => Log INFO "Pruned by age: %s" [AStr (fst fm)])
                 (filter (fun fm => snd fm <? now E - K * SECONDS_PER_DAY)
                         (sort_desc (stamps d)))).
Proof.
  intros Hwf HK Hfiles.
  rewrite (prune_age_then_count E K 0 d tr Hwf HK Hfiles).
  rewrite prune_nothing_due; [reflexivity | now apply wf_filter | lia | lia].
Qed.


(** The count pass alone completes, keeps a part of the listing, and
    leaves no more than [max_files] entries when the limit is set. *)
Lemma count_pass_total E N d tr :
  wf_listing d ->
  (forall n e, In (n, e) d -> is_directory e = false) ->
  exists d1 tr1,
    prune_files E 0 N (mkWorld (Some d) tr) = (Ok tt, mkWorld (Some d1) tr1) /\
    wf_listing d1 /\ (forall ne, In ne d1 -> In ne d) /\
    (0 < N -> Z.of_nat (List.length d1) <= N).
Proof.
  intros Hwf Hfiles. destruct (Z.ltb_spec 0 N) as [HN | HN].
  - eexists. eexists. split; [now apply prune_by_count_run|].
    split; [now apply wf_filter|]. split; [intros ne Hin; now apply filter_In in Hin|].
    intros _. destruct (survivors_spec d (Z.to_nat N) (proj1 Hwf)) as [Hperm _].
    cbv zeta in Hperm. apply Permutation_length in Hperm.
    unfold stamps in Hperm at 1. rewrite length_map in Hperm. rewrite Hperm.
    rewrite length_firstn. lia.
  - exists d, tr. split; [|split; [exact Hwf | split; [auto | lia]]].
    apply prune_nothing_due; [exact Hwf | lia | lia].
Qed.

(** Without an age limit only the count pass runs. *)
Lemma prune_no_age_limit E K N w :
  K <= 0 -> prune_files E K N w = prune_files E 0 N w.
Proof.
  intros HK. unfold prune_files.
  destruct (Z.ltb_spec 0 K) as [? | _]; [lia | reflexivity].
Qed.



Lemma getmtime_total d tr (l : list string) :
  (forall n, In n l -> In n (map fst d)) ->
  exists fs,
    mapM (fun f => t <- os_path_getmtime f ;; ret (f, t))%M l (mkWorld (Some d) tr)
    = (Ok fs, mkWorld (Some d) tr).
Proof.
  induction l as [|n l IH]; intros Hsub; [now exists []|].
  destruct IH as [fs Hfs]; [intros x Hx; apply Hsub; now right|].
  assert (Hn : exists t, os_path_getmtime n (mkWorld (Some d) tr)
                         = (Ok t, mkWorld (Some d) tr)).
  { unfold os_path_getmtime, with_dest. cbn [dest].
    destruct (names_directory n); [now exists 0|].
    destruct (lookup n d) as [e|] eqn:Hl; [now exists (e_mtime e)|].
    exfalso. apply (lookup_none_names d n Hl). apply Hsub. now left. }
  destruct Hn as [t Ht]. exists ((n, t) :: fs). cbn [mapM].
  erewrite bind_ok; [|erewrite bind_ok; [reflexivity | exact Ht]].
  erewrite bind_ok; [reflexivity | exact Hfs].
Qed.

Lemma relist_total d tr :
  exists fs,
    try_except (fs <- stat_all ;; ret (Some fs))%M is_FileNotFoundError
               (fun _ => ret None) (mkWorld (Some d) tr)
    = (Ok (Some fs), mkWorld (Some d) tr).
Proof.
  destruct (getmtime_total d tr (map fst d) (fun n H => H)) as [fs Hfs].
  exists fs. erewrite try_ok; [reflexivity|].
  erewrite bind_ok; [reflexivity|].
  unfold stat_all. erewrite bind_ok; [exact Hfs | apply run_listdir].
Qed.

(** X21: with [keep_days] and [max_files] both zero or negative, pruning
    is switched off: [prune_files] returns normally and leaves the
    directory and the log exactly as they were, whatever the directory
    holds. *)
Theorem prune_disabled_changes_nothing E keep_days max_files w :
  keep_days <= 0 -> max_files <= 0 ->
  prune_files E keep_days max_files w = (Ok tt, w).
Proof.
  intros HK HN. destruct w as [[d|] tr]; [|apply prune_missing_directory].
  destruct (relist_total d tr) as [fs Hfs]. unfold prune_files.
  erewrite bind_ok; [|exact Hfs].
  destruct (Z.ltb_spec 0 keep_days) as [? | _]; [lia|]. cbv zeta iota beta.
  erewrite bind_ok; [|reflexivity].
  erewrite bind_ok; [|exact Hfs].
  destruct (Z.ltb_spec 0 max_files) as [? | _]; [lia | reflexivity].
Qed.

(** ** Ties in the count pass *)

Lemma insert_desc_keeps_order x s a b :
  listed_before a b s -> listed_before a b (insert_desc x s).
Proof.
  induction s as [|y r IH]; intros [l1 [l2 [l3 H]]].
  - now destruct l1.
  - cbn [insert_desc]. destruct (snd x <? snd y).
    + destruct l1 as [|z l1]; injection H as -> Hr.
      * assert (Hb : In b (insert_desc x r)).
        { apply (Permutation_in _ (Permutation_sym (insert_desc_perm x r))).
          right. rewrite Hr. apply in_or_app. right. now left. }
        apply in_split in Hb as [m1 [m2 Hb]]. exists [], m1, m2. now rewrite Hb.
      * destruct IH as [k1 [k2 [k3 Hk]]]; [now exists l1, l2, l3|].
        exists (z :: k1), k2, k3. now rewrite Hk.
    + exists (x :: l1), l2, l3. now rewrite H.
Qed.

Lemma insert_desc_front a s b :
  In b s -> snd b <= snd a -> listed_before a b (insert_desc a s).
Proof.
  induction s as [|y r IH]; intros Hin Hle; [destruct Hin|].
  cbn [insert_desc]. destruct (Z.ltb_spec (snd a) (snd y)) as [Hlt | _].
  - destruct Hin as [-> | Hin]; [lia|].
    destruct (IH Hin Hle) as [k1 [k2 [k3 Hk]]].
    exists (y :: k1), k2, k3. now rewrite Hk.
  - apply in_split in Hin as [m1 [m2 Hm]]. exists [], m1, m2. now rewrite Hm.
Qed.

(** The sort is stable: of two entries with the same time, the one that
    comes first in the listing comes first in the sorted list. *)
Lemma sort_desc_keeps_ties l : forall a b,
  listed_before a b l -> snd a = snd b -> listed_before a b (sort_desc l).
Proof.
  induction l as [|x r IH]; intros a b [l1 [l2 [l3 H]]] Heq.
  - now destruct l1.
  - cbn [sort_desc]. destruct l1 as [|z l1]; injection H as -> Hr.
    + apply insert_desc_front; [|lia].
      apply (Permutation_in _ (Permutation_sym (sort_desc_perm r))).
      rewrite Hr. apply in_or_app. right. now left.
    + apply insert_desc_keeps_order. apply IH; [now exists l1, l2, l3 | exact Heq].
Qed.

Lemma in_firstn {A} (x : A) n l : In x (firstn n l) -> In x l.
Proof.
  intros H. rewrite <- (firstn_skipn n l). apply in_or_app. now left.
Qed.

Lemma firstn_listed_before {A} (a b : A) l n :
  NoDup l -> listed_before a b l -> In b (firstn n l) -> In a (firstn n l).
Proof.
  intros Hnd [l1 [l2 [l3 ->]]] Hb.
  rewrite firstn_app in *. apply in_or_app.
  apply in_app_or in Hb as [Hb | Hb].
  - exfalso. change (l1 ++ a :: l2 ++ b :: l3) with (l1 ++ (a :: l2) ++ b :: l3) in Hnd.
    rewrite app_assoc in Hnd. apply NoDup_remove_2 in Hnd. apply Hnd.
    apply in_or_app. left. apply in_or_app. left. now apply in_firstn in Hb.
  - right. destruct (n - List.length l1)%nat; [destruct Hb | now left].
Qed.

Lemma listed_before_map {A B} (f : A -> B) a b l :
  listed_before a b l -> listed_before (f a) (f b) (map f l).
Proof.
  intros [l1 [l2 [l3 ->]]]. exists (map f l1), (map f l2), (map f l3).
  rewrite map_app. cbn [map]. rewrite map_app. reflexivity.
Qed.

Lemma listed_before_in {A} (a b : A) l :
  listed_before a b l -> In a l /\ In b l.
Proof.
  intros [l1 [l2 [l3 ->]]]. split; apply in_or_app; right; [now left|].
  right. apply in_or_app. right. now left.
Qed.

Lemma listed_before_filter {A} (p : A -> bool) a b l :
  listed_before a b l -> p a = true -> p b = true ->
  listed_before a b (filter p l).
Proof.
  intros [l1 [l2 [l3 ->]]] Ha Hb.
  exists (filter p l1), (filter p l2), (filter p l3).
  rewrite filter_app. cbn [filter]. rewrite Ha, filter_app. cbn [filter].
  now rewrite Hb.
Qed.

Lemma nodup_stamps (d : listing) : NoDup (map fst d) -> NoDup (sort_desc (stamps d)).
Proof.
  intros Hnd. apply (NoDup_map_inv fst).
  apply (Permutation_NoDup (l := map fst (stamps d))).
  - symmetry. apply Permutation_map, sort_desc_perm.
  - now rewrite stamps_names.
Qed.

(** The count pass on two entries with the same time. *)
Lemma count_pass_ties E N d tr a b :
  wf_listing d ->
  (forall n e, In (n, e) d -> is_directory e = false) ->
  listed_before a b d -> e_mtime (snd a) = e_mtime (snd b) ->
  exists d1 tr1,
    prune_files E 0 N (mkWorld (Some d) tr) = (Ok tt, mkWorld (Some d1) tr1) /\
    (In b d1 -> In a d1).
Proof.
  intros Hwf Hfiles Hord Heq. destruct (listed_before_in _ _ _ Hord) as [Ha Hb].
  destruct (Z.ltb_spec 0 N) as [HN | HN].
  - eexists. eexists. split; [now apply prune_by_count_run|].
    destruct (survivors_spec d (Z.to_nat N) (proj1 Hwf)) as [Hperm _].
    cbv zeta in Hperm. intros Hb1.
    assert (Hsb : In (fst b, e_mtime (snd b))
                     (firstn (Z.to_nat N) (sort_desc (stamps d)))).
    { apply (Permutation_in _ Hperm). apply stamps_in. exists (snd b).
      split; [|reflexivity]. now destruct b. }
    assert (Hsa : In (fst a, e_mtime (snd a))
                     (firstn (Z.to_nat N) (sort_desc (stamps d)))).
    { apply (firstn_listed_before _ (fst b, e_mtime (snd b))); [| |exact Hsb].
      - apply nodup_stamps, Hwf.
      - apply sort_desc_keeps_ties; [|exact Heq].
        apply (listed_before_map (fun ne => (fst ne, e_mtime (snd ne)))) in Hord.
        exact Hord. }
    apply (Permutation_in _ (Permutation_sym Hperm)) in Hsa.
    apply stamps_in in Hsa as [e [He _]]. cbn [fst] in He.
    assert (Hd : In (fst a, e) d) by now apply filter_In in He.
    pose proof (lookup_in _ _ _ (proj1 Hwf) Hd) as L1.
    assert (Ha' : In (fst a, snd a) d) by now destruct a.
    pose proof (lookup_in _ _ _ (proj1 Hwf) Ha') as L2.
    rewrite L1 in L2. injection L2 as ->. now destruct a.
  - exists d, tr. split; [|auto].
    apply prune_nothing_due; [exact Hwf | lia | lia].
Qed.


(** ** Reconciling twice *)

Lemma filter_twice {A} (p : A -> bool) (l : list A) :
  filter p (filter p l) = filter p l.
Proof.
  induction l as [|x l IH]; [reflexivity|]. cbn [filter].
  destruct (p x) eqn:Hp; [|exact IH]. cbn [filter]. now rewrite Hp, IH.
Qed.

(** X29: reconciling twice is reconciling once.  On any destination,
    [mirror_missing_files] run again with the same names on what the
    first run left removes nothing more; and where the directory held no
    sub-directory, the second run logs nothing either. *)
Theorem mirror_missing_files_idempotent names w :
  world_wf w ->
  exists w1 w2,
    mirror_missing_files names w = (Ok tt, w1) /\
    mirror_missing_files names w1 = (Ok tt, w2) /\
    dest w2 = dest w1 /\
    ((forall n e, entry_at w n = Some e -> is_directory e = false) -> w2 = w1).
Proof.
  destruct w as [[d|] tr]; unfold world_wf; cbn [dest]; intros Hwf.
  - destruct (mirror_missing_files_run names d tr Hwf) as [tr1 H1].
    set (keep := fun ne : string * entry => mem (fst ne) names || is_directory (snd ne)) in *.
    destruct (mirror_missing_files_run names (filter keep d) tr1 (wf_filter keep d Hwf))
      as [tr2 H2].
    fold keep in H2. rewrite filter_twice in H2.
    exists (mkWorld (Some (filter keep d)) tr1), (mkWorld (Some (filter keep d)) tr2).
    split; [exact H1|]. split; [exact H2|]. split; [reflexivity|].
    intros Hfiles.
    assert (Hnone : filter (fun f => negb (mem f names)) (map fst (filter keep d)) = []).
    { apply filter_none. intros n Hn. apply in_map_iff in Hn as [[n' e] [<- Hin]].
      apply filter_In in Hin as [Hin Hk]. unfold keep in Hk. cbn [fst snd] in *.
      rewrite (Hfiles n' e) in Hk.
      - rewrite orb_false_r in Hk. now rewrite Hk.
      - unfold entry_at. cbn [dest]. now apply lookup_in; [apply Hwf|]. }
    assert (H2' : mirror_missing_files names (mkWorld (Some (filter keep d)) tr1)
                  = (Ok tt, mkWorld (Some (filter keep d)) tr1)).
    { unfold mirror_missing_files.
      erewrite bind_ok.
      2:{ erewrite try_ok; [reflexivity|].
          erewrite bind_ok; [reflexivity | apply run_listdir]. }
      cbv beta iota zeta. rewrite Hnone. reflexivity. }
    pose proof (eq_trans (eq_sym H2) H2') as Hsame. now injection Hsame as ->.
  - exists (mkWorld None tr), (mkWorld None tr). repeat split; reflexivity.
Qed.

(** ** Names from headers, dimensions from keys *)

Section Parsing.

Local Open Scope string_scope.

Import PyStr.

Lemma lstrip_by_none p (s : string) :
  match s with String a _ => p a = false | EmptyString => True end ->
  lstrip_by p s = s.
Proof. destruct s as [|a r]; [reflexivity|]. simpl. now intros ->. Qed.

Lemma rstrip_by_none p (s : string) :
  all_chars (fun c => negb (p c)) s = true -> rstrip_by p s = s.
Proof.
  induction s as [|a r IH]; [reflexivity|]. simpl. intros H.
  apply andb_true_iff in H as [Ha Hr]. rewrite (IH Hr).
  destruct r; [|reflexivity]. apply negb_true_iff in Ha. now rewrite Ha.
Qed.

Lemma strip_by_none p (s : string) :
  all_chars (fun c => negb (p c)) s = true -> strip_by p s = s.
Proof.
  intros H. unfold strip_by. rewrite lstrip_by_none.
  - now apply rstrip_by_none.
  - destruct s as [|a r]; [exact I|]. simpl in H.
    apply andb_true_iff in H as [Ha _]. now apply negb_true_iff.
Qed.

Lemma rstrip_by_last p (s : string) c :
  all_chars (fun x => negb (p x)) s = true -> s <> "" -> p c = true ->
  rstrip_by p (s ++ String c "") = s.
Proof.
  induction s as [|a r IH]; intros H Hne Hc; [contradiction|].
  simpl in H. apply andb_true_iff in H as [Ha Hr]. apply negb_true_iff in Ha.
  cbn [append rstrip_by]. destruct r as [|b r].
  - simpl. now rewrite Hc, Ha.
  - rewrite (IH Hr ltac:(discriminate) Hc). reflexivity.
Qed.

Lemma before_char_none c (s : string) :
  has_char c s = false -> before_char c s = s.
Proof.
  induction s as [|a r IH]; [reflexivity|]. simpl. intros H.
  apply orb_false_iff in H as [Ha Hr]. now rewrite Ha, IH.
Qed.

Lemma no_char_all c (s : string) :
  has_char c s = false -> all_chars (fun x => negb (Ascii.eqb x c)) s = true.
Proof.
  induction s as [|a r IH]; [reflexivity|]. simpl. intros H.
  apply orb_false_iff in H as [Ha Hr]. now rewrite Ha, IH.
Qed.

Lemma cd_search_skip c (r : string) :
  Ascii.eqb "f" c = false -> cd_search (String c r) = cd_search r.
Proof.
  intros H. cbn [cd_search]. unfold cd_match_here. cbn [startswith].
  now rewrite H.
Qed.

Lemma cd_search_value (v : string) :
  v <> "" -> has_char ";" v = false ->
  cd_search ("attachment; filename=" ++ v) = Some v.
Proof.
  intros Hne Hsemi. cbn [append].
  rewrite !cd_search_skip by reflexivity.
  cbn [cd_search]. unfold cd_match_here.
  change (startswith (String "f" (String "i" (String "l" (String "e" (String "n"
            (String "a" (String "m" (String "e" (String "=" v))))))))) "filename")
    with true.
  cbv iota. cbn [drop startswith]. cbn [Ascii.eqb Bool.eqb andb].
  replace (startswith v "") with true by (now destruct v).
  rewrite (before_char_none _ _ Hsemi). now destruct v.
Qed.

(** X22: a Content-Disposition header of the usual form names the file:
    for [attachment; filename=] followed by a name, in double quotes or
    bare, the download is saved under exactly that name, not under the
    URL's, provided the name has no semicolon, double quote or slash
    (and, when bare, no white space at either end). *)
Theorem content_disposition_names_the_file name url :
  name <> "" ->
  has_char ";" name = false -> has_char "034" name = false ->
  has_char "/" name = false ->
  target_filename ("attachment; filename=" ++ dquote ++ name ++ dquote) url = name /\
  (strip name = name ->
   target_filename ("attachment; filename=" ++ name) url = name).
Proof.
  intros Hne Hsemi Hq Hslash.
  pose proof (no_char_all _ _ Hq) as Hnq.
  split.
  - unfold target_filename. rewrite cd_search_value.
    + assert (Hstrip : strip (dquote ++ name ++ dquote) = dquote ++ name ++ dquote).
      { apply strip_fixed. right. split; [reflexivity|].
        do 2 apply clean_end_app. intros prev. exists "034"%char. split; reflexivity. }
      rewrite Hstrip. unfold strip_by.
      change (lstrip_by is_dquote (dquote ++ name ++ dquote))
        with (lstrip_by is_dquote (name ++ dquote)).
      rewrite (lstrip_by_none is_dquote (name ++ dquote)).
      * unfold dquote. rewrite (rstrip_by_last is_dquote name "034" Hnq Hne eq_refl).
        now apply basename_fixed.
      * destruct name as [|a r]; [contradiction|]. simpl in Hnq |- *.
        apply andb_true_iff in Hnq as [Ha _]. now apply negb_true_iff.
    + discriminate.
    + unfold dquote. rewrite !has_char_app, Hsemi. reflexivity.
  - intros Hstrip. unfold target_filename.
    rewrite (cd_search_value name Hne Hsemi), Hstrip.
    rewrite (strip_by_none is_dquote name Hnq). now apply basename_fixed.
Qed.

Lemma span_digits_app (d t : string) :
  all_chars is_digit d = true ->
  match t with String c _ => is_digit c = false | EmptyString => True end ->
  span_digits (d ++ t) = (d, t).
Proof.
  induction d as [|a d IH]; simpl; intros Hd Ht.
  - destruct t as [|c t]; simpl; [reflexivity | now rewrite Ht].
  - apply andb_true_iff in Hd as [Ha Hd]. now rewrite Ha, IH.
Qed.

Lemma dim_search_skip (pre t : string) :
  all_chars (fun c => negb (is_digit c)) pre = true ->
  dim_search (pre ++ t) = dim_search t.
Proof.
  induction pre as [|c pre IH]; [reflexivity|]. simpl all_chars. intros H.
  apply andb_true_iff in H as [Hc Hpre]. apply negb_true_iff in Hc.
  cbn [append dim_search]. unfold dim_match_here at 1. cbn [span_digits].
  rewrite Hc. now apply IH.
Qed.

Lemma dim_search_here (d1 d2 post : string) x :
  all_chars is_digit d1 = true -> d1 <> "" ->
  all_chars is_digit d2 = true -> d2 <> "" ->
  Ascii.eqb x "x" || Ascii.eqb x "X" = true ->
  match post with String c _ => is_digit c = false | EmptyString => True end ->
  dim_search (d1 ++ String x (d2 ++ post)) = Some (d1, d2).
Proof.
  intros H1 Hn1 H2 Hn2 Hx Hpost.
  assert (Hxd : is_digit x = false).
  { apply orb_true_iff in Hx as [Hx | Hx]; apply Ascii.eqb_eq in Hx; now subst x. }
  assert (Hm : dim_match_here (d1 ++ String x (d2 ++ post)) = Some (d1, d2)).
  { unfold dim_match_here. rewrite (span_digits_app d1 (String x (d2 ++ post)) H1 Hxd).
    destruct d1 as [|a d1]; [contradiction|]. rewrite Hx.
    rewrite (span_digits_app d2 post H2 Hpost).
    destruct d2 as [|b d2]; [contradiction | reflexivity]. }
  destruct d1 as [|a d1]; [contradiction|].
  cbn [append] in *. cbn [dim_search]. now rewrite Hm.
Qed.

Lemma parse_digits_all (s : string) : forall acc seen,
  all_chars is_digit s = true -> s <> "" \/ seen = true ->
  parse_digits s acc seen = Some (digits_from acc s).
Proof.
  induction s as [|c r IH]; intros acc seen Hall Hne.
  - destruct Hne as [Hne | ->]; [contradiction | reflexivity].
  - simpl in Hall. apply andb_true_iff in Hall as [Hc Hr].
    cbn [parse_digits digits_from]. rewrite Hc. apply IH; auto.
Qed.

Lemma digit_not_space_all (s : string) :
  all_chars is_digit s = true -> all_chars (fun c => negb (is_space c)) s = true.
Proof.
  induction s as [|c r IH]; [reflexivity|]. simpl. intros H.
  apply andb_true_iff in H as [Hc Hr]. rewrite (IH Hr), andb_true_r.
  revert Hc. destruct c as [[] [] [] [] [] [] [] []]; vm_compute; congruence.
Qed.

Lemma int_of_digits (s : string) :
  all_chars is_digit s = true -> s <> "" ->
  int_of_string s = Some (digits_value s).
Proof.
  intros Hall Hne. unfold int_of_string, strip.
  rewrite (strip_by_none is_space s (digit_not_space_all s Hall)).
  pose proof (parse_digits_all s 0 false Hall (or_introl Hne)) as Hp.
  destruct s as [|c r]; [contradiction|].
  simpl in Hall. apply andb_true_iff in Hall as [Hc _].
  unfold digits_value. rewrite <- Hp. clear Hp.
  revert Hc. destruct c as [[] [] [] [] [] [] [] []];
    intros Hc; try reflexivity; vm_compute in Hc; discriminate.
Qed.


End Parsing.

(** ** The catalog requests *)

Section CatalogFacts.

Local Open Scope string_scope.

Variable str_of : pyval -> string.
Variable json_failure : exn.
Variable service : nat -> post -> reply.

(** X24: the album id is the text behind the last [#] of the shared URL:
    the URL is some text, a [#], and the id, and the id holds no [#]. *)
Theorem album_id_follows_last_hash url :
  PyStr.has_char "#" url = true ->
  exists pre, url = pre ++ "#" ++ after_last "#" url /\
              PyStr.has_char "#" (after_last "#" url) = false.
Proof.
  induction url as [|a r IH]; [discriminate|].
  cbn [PyStr.has_char after_last]. intros H.
  destruct (PyStr.has_char "#" r) eqn:Hr.
  - destruct (IH eq_refl) as [pre [Heq Hno]]. exists (String a pre).
    split; [|exact Hno]. cbn [append]. f_equal. exact Heq.
  - rewrite orb_false_r in H. rewrite H. apply Ascii.eqb_eq in H. subst a.
    exists "". split; [reflexivity | exact Hr].
Qed.

Lemma endpoint_url host album_id endpoint :
  sharedstreams host album_id ++ "/" ++ endpoint
  = "https://" ++ host ++ "/" ++ album_id ++ "/sharedstreams/" ++ endpoint.
Proof.
  unfold sharedstreams. rewrite !sapp_assoc. reflexivity.
Qed.

Lemma net_bind_lift {A B} (r : A + failure) (k : A -> Net B) sent :
  net_bind (net_lift r) k sent
  = match r with
    | inl a => k a sent
    | inr f => (inr f, sent)
    end.
Proof. unfold net_bind, net_lift. now destruct r. Qed.

Lemma net_bind_post {B} url payload (k : pyval -> Net B) sent :
  net_bind (requests_post json_failure service url payload) k sent
  = match service (List.length sent) (mkPost url payload) with
    | NoReply | ErrorStatus =>
        (inr (Builtin RequestException), (sent ++ [mkPost url payload])%list)
    | NotJson => (inr (Builtin json_failure), (sent ++ [mkPost url payload])%list)
    | Document doc => k doc (sent ++ [mkPost url payload])%list
    end.
Proof. unfold net_bind, requests_post. now destruct (service _ _). Qed.

Lemma asset_listing_requests host album_id stream_data sent :
  let out := asset_listing json_failure service (sharedstreams host album_id)
               stream_data sent in
  snd out = sent \/
  exists q, snd out = (sent ++ [q])%list /\ to_endpoint album_id q /\
            (failed (service (List.length sent) q) = true ->
             request_failure json_failure (fst out)).
Proof.
  cbv zeta. unfold asset_listing, py_get.
  destruct stream_data; try (now left).
  rewrite net_bind_lift. destruct (iterate _) as [ps|f]; [|now left].
  rewrite net_bind_lift. destruct (photo_guids ps) as [[|g guids]|f]; try (now left).
  right. rewrite net_bind_post.
  exists (mkPost (sharedstreams host album_id ++ "/webasseturls")
                 (VDict [("photoGuids", VList (g :: guids))])).
  split; [|split].
  - destruct (service _ _); try reflexivity.
    destruct doc; try reflexivity.
    destruct (py_or _ _); reflexivity.
  - exists host, "webasseturls". split; [|now right].
    cbn [p_url]. change "/webasseturls" with ("/" ++ "webasseturls").
    apply endpoint_url.
  - unfold request_failure.
    destruct (service _ _); cbn [failed fst]; auto; discriminate.
Qed.

(** The requests of [album_catalog]. *)
Lemma album_catalog_sends url :
  let out := album_catalog str_of json_failure service url [] in
  let album_id := after_last "#" url in
  (1 <= List.length (snd out) <= 3)%nat /\
  hd_error (snd out)
  = Some (mkPost ("https://p23-sharedstreams.icloud.com/" ++ album_id
                  ++ "/sharedstreams/webstream") stream_payload) /\
  Forall (to_endpoint album_id) (snd out) /\
  forall n q, nth_error (snd out) n = Some q ->
              failed (service n q) = true ->
              S n = List.length (snd out) /\ request_failure json_failure (fst out).
Proof.
  cbv zeta. unfold album_catalog. cbv zeta.
  set (album_id := after_last "#" url).
  set (base := sharedstreams "p23-sharedstreams.icloud.com" album_id).
  set (q0 := mkPost (base ++ "/webstream") stream_payload).
  assert (Hq0 : q0 = mkPost ("https://p23-sharedstreams.icloud.com/" ++ album_id
                             ++ "/sharedstreams/webstream") stream_payload).
  { unfold q0, base. f_equal. change "/webstream" with ("/" ++ "webstream").
    apply endpoint_url. }
  assert (He0 : to_endpoint album_id q0).
  { exists "p23-sharedstreams.icloud.com", "webstream". split; [|now left].
    unfold q0, base. cbn [p_url]. change "/webstream" with ("/" ++ "webstream").
    apply endpoint_url. }
  (* the run ends with the first request *)
  assert (Hone : forall r : catalog + failure,
            (failed (service 0 q0) = true -> request_failure json_failure r) ->
            (1 <= List.length [q0] <= 3)%nat /\
            hd_error [q0]
            = Some (mkPost ("https://p23-sharedstreams.icloud.com/" ++ album_id
                            ++ "/sharedstreams/webstream") stream_payload) /\
            Forall (to_endpoint album_id) [q0] /\
            forall n q, nth_error [q0] n = Some q -> failed (service n q) = true ->
                        S n = List.length [q0] /\ request_failure json_failure r).
  { intros r Hr. split; [simpl; lia|]. split; [simpl; now rewrite Hq0|].
    split; [now constructor|].
    intros [|[|n]] q Hn Hf; simpl in Hn; try discriminate.
    injection Hn as <-. split; [reflexivity | now apply Hr]. }
  (* the run goes on from the requests [sent], none of which failed *)
  assert (Hmore : forall host sd (sent : list post),
            (1 <= List.length sent <= 2)%nat ->
            hd_error sent = Some q0 ->
            Forall (to_endpoint album_id) sent ->
            (forall n q, nth_error sent n = Some q -> failed (service n q) = false) ->
            let out := asset_listing json_failure service
                         (sharedstreams host album_id) sd sent in
            (1 <= List.length (snd out) <= 3)%nat /\
            hd_error (snd out)
            = Some (mkPost ("https://p23-sharedstreams.icloud.com/" ++ album_id
                            ++ "/sharedstreams/webstream") stream_payload) /\
            Forall (to_endpoint album_id) (snd out) /\
            forall n q, nth_error (snd out) n = Some q ->
                        failed (service n q) = true ->
                        S n = List.length (snd out) /\
                        request_failure json_failure (fst out)).
  { intros host sd sent Hlen Hhd Hall Hgood out.
    destruct (asset_listing_requests host album_id sd sent)
      as [Hsame | [q [Hsnd [Hq Hfail]]]]; fold out in Hsame || fold out in Hsnd, Hfail.
    - rewrite Hsame. split; [lia|]. split; [now rewrite Hhd, Hq0|].
      split; [exact Hall|].
      intros n q Hn Hf. rewrite (Hgood n q Hn) in Hf. discriminate.
    - rewrite Hsnd, length_app. simpl List.length. split; [lia|].
      split.
      { destruct sent as [|s0 sent]; [simpl in Hlen; lia|].
        simpl in Hhd |- *. now rewrite Hhd, Hq0. }
      split; [apply Forall_app; split; [exact Hall | now constructor]|].
      intros n q' Hn Hf.
      destruct (Nat.lt_ge_cases n (List.length sent)) as [Hlt | Hge].
      + rewrite nth_error_app1 in Hn by exact Hlt.
        rewrite (Hgood n q' Hn) in Hf. discriminate.
      + rewrite nth_error_app2 in Hn by exact Hge.
        destruct (n - List.length sent)%nat as [|k] eqn:Hk; simpl in Hn;
          [|destruct k; discriminate].
        injection Hn as <-. assert (n = List.length sent) as -> by lia.
        split; [lia | now apply Hfail]. }
  rewrite net_bind_post. cbn [List.length app].
  fold q0. unfold request_failure in *.
  destruct (service 0 q0) as [| | |doc] eqn:Hs0;
    try (apply Hone; intros _; auto).
  unfold py_get. destruct doc as [| | | | | |d]; try (apply Hone; discriminate).
  assert (Hgood0 : forall n q, nth_error [q0] n = Some q -> failed (service n q) = false).
  { intros [|[|n]] q Hn; simpl in Hn; try discriminate.
    injection Hn as <-. now rewrite Hs0. }
  destruct (truthy _).
  - rewrite net_bind_post. cbn [List.length app].
    set (q1 := mkPost (sharedstreams (format_value str_of _) album_id ++ "/webstream")
                      stream_payload).
    assert (He1 : to_endpoint album_id q1).
    { eexists _, "webstream". split; [|now left].
      unfold q1. cbn [p_url]. change "/webstream" with ("/" ++ "webstream").
      apply endpoint_url. }
    assert (Htwo : forall r : catalog + failure,
              (failed (service 1 q1) = true -> r = inr (Builtin RequestException) \/
                                               r = inr (Builtin json_failure)) ->
              (1 <= List.length [q0; q1] <= 3)%nat /\
              hd_error [q0; q1]
              = Some (mkPost ("https://p23-sharedstreams.icloud.com/" ++ album_id
                              ++ "/sharedstreams/webstream") stream_payload) /\
              Forall (to_endpoint album_id) [q0; q1] /\
              forall n q, nth_error [q0; q1] n = Some q -> failed (service n q) = true ->
                          S n = List.length [q0; q1] /\
                          (r = inr (Builtin RequestException) \/
                           r = inr (Builtin json_failure))).
    { intros r Hr. split; [simpl; lia|]. split; [simpl; now rewrite Hq0|].
      split; [repeat constructor; assumption|].
      intros [|[|[|n]]] q Hn Hf; simpl in Hn; try discriminate; injection Hn as <-.
      - rewrite Hs0 in Hf. discriminate.
      - split; [reflexivity | now apply Hr]. }
    destruct (service 1 q1) as [| | |doc1] eqn:Hs1;
      try (apply Htwo; intros _; auto).
    apply (Hmore _ doc1 [q0; q1]); [simpl; lia | reflexivity
                                   | repeat constructor; assumption |].
    intros [|[|[|n]]] q Hn; simpl in Hn; try discriminate; injection Hn as <-.
    + now rewrite Hs0.
    + now rewrite Hs1.
  - apply (Hmore _ (VDict d) [q0]); [simpl; lia | reflexivity | now constructor | exact Hgood0].
Qed.

(** X25: without a [#] in the shared URL nothing is requested.  With
    one, the catalog is fetched with at least one and at most three
    requests, all to endpoints of the album under its id, the first one
    to [webstream] on the default host; and a request whose reply fails
    is the last one: the run ends there with the exception of the request
    (or of [r.json()]). *)
Theorem fetch_catalog_requests url :
  let out := fetch_catalog str_of json_failure service url [] in
  let album_id := after_last "#" url in
  (PyStr.has_char "#" url = false -> out = (inl None, [])) /\
  (PyStr.has_char "#" url = true ->
   (1 <= List.length (snd out) <= 3)%nat /\
   hd_error (snd out)
   = Some (mkPost ("https://p23-sharedstreams.icloud.com/" ++ album_id
                   ++ "/sharedstreams/webstream") stream_payload) /\
   Forall (to_endpoint album_id) (snd out) /\
   forall n q, nth_error (snd out) n = Some q ->
               failed (service n q) = true ->
               S n = List.length (snd out) /\ request_failure json_failure (fst out)).
Proof.
  cbv zeta. unfold fetch_catalog. split; intros Hhash; rewrite Hhash; [reflexivity|].
  cbn [negb]. pose proof (album_catalog_sends url) as H. cbv zeta in H.
  unfold net_bind, net_ret.
  destruct (album_catalog str_of json_failure service url []) as [[C|f] sent];
    cbn [fst snd] in *.
  - destruct H as [H1 [H2 [H3 H4]]]. repeat split; auto; try lia;
      destruct (H4 n q H H0) as [Hn [Hr | Hr]]; try lia; discriminate.
  - destruct H as [H1 [H2 [H3 H4]]]. repeat split; auto; try lia;
      destruct (H4 n q H H0) as [Hn [Hr | Hr]]; try lia;
      injection Hr as ->; [now left | now right].
Qed.

End CatalogFacts.

(** ** The added theorems on sample inputs *)

Lemma single_line_albums_become_block_witness :
  let albums :=
    "name: Family shared_url: https://www.icloud.com/sharedalbum/#B0abcdef album_subfolder: family"%string in
  PyStr.has_char newline (PyStr.strip albums) = false /\
  exists t,
    main_albums_str albums sample_world
    = (Ok t,
       mkWorld (dest sample_world)
         (trace sample_world ++
          [Log INFO "Detected single-line albums input; normalizing to multiline YAML" []]))
    /\ PyStr.startswith t "- " = true
    /\ count_char newline t = 3%nat.
Proof.
  intros albums. split; [reflexivity|].
  destruct (single_line_albums_become_block albums sample_world eq_refl)
    as [t [Hrun [Hstart Hlines]]].
  exists t. split; [exact Hrun|]. split; [exact Hstart | exact Hlines].
Defined.

(** The scheme of a URL is taken for a key, and the URL is split. *)
Example url_scheme_is_taken_for_a_key :
  normalize_single_line_yaml
    "shared_url: https://www.icloud.com/sharedalbum/#B0abcdef album_subfolder: family"
  = ("- shared_url:" ++ String newline
     ("  https: //www.icloud.com/sharedalbum/#B0abcdef" ++ String newline
      "  album_subfolder: family"))%string.
Proof. reflexivity. Qed.

(** On a blank album list normalizing twice is not normalizing once. *)
Example blank_album_list_is_not_stable :
  normalize_single_line_yaml "" = "- "%string /\
  normalize_single_line_yaml (normalize_single_line_yaml "") = "- -"%string.
Proof. split; reflexivity. Qed.

Lemma normalize_single_line_yaml_idempotent_witness :
  let albums := "  name : Family   album_subfolder:family "%string in
  PyStr.strip albums <> ""%string /\
  normalize_single_line_yaml albums
  = ("- name: Family" ++ String newline "  album_subfolder: family")%string /\
  normalize_single_line_yaml (normalize_single_line_yaml albums)
  = normalize_single_line_yaml albums.
Proof.
  intros albums.
  assert (H : PyStr.strip albums <> ""%string) by (vm_compute; discriminate).
  split; [exact H|]. split; [reflexivity|].
  exact (normalize_single_line_yaml_idempotent albums H).
Defined.

Lemma resolve_dest_dir_relative_witness :
  "iCloud"%string <> ""%string /\ "family"%string <> ""%string /\
  PyStr.startswith "iCloud" "/" = false /\ PyStr.startswith "family" "/" = false /\
  PyStr.endswith "iCloud" "/" = false /\
  resolve_dest_dir "share" (Some "iCloud"%string) (Some "family"%string)
  = "/share/iCloud/family"%string.
Proof.
  assert (H1 : "iCloud"%string <> ""%string) by discriminate.
  assert (H2 : "family"%string <> ""%string) by discriminate.
  repeat (split; [first [assumption | reflexivity]|]).
  exact (proj2 (resolve_dest_dir_relative "share" "iCloud" "family"
                  H1 H2 eq_refl eq_refl eq_refl)).
Defined.

(** [flowers.jpg] holds [low]. *)
Lemma thumbish_inside_witness :
  thumbish "low" = true /\ thumbish "flowers.jpg" = true.
Proof.
  split; [reflexivity|].
  exact (thumbish_inside "f" "low" "ers.jpg" eq_refl).
Defined.

Lemma full_url_stable_witness :
  let u := "https://media.example.com/B/abc123.jpg"%string in
  _full_url no_str (VStr "media.example.com") (VStr "B/abc123.jpg") = Ok u /\
  _full_url no_str (VStr "media.example.com") (VStr u) = Ok u /\
  (truthy (VStr "media.example.com") = true ->
   PyStr.startswith u "http://" || PyStr.startswith u "https://" = true).
Proof.
  intros u. split; [reflexivity|].
  exact (full_url_stable no_str (VStr "media.example.com") "B/abc123.jpg" u eq_refl).
Defined.

(** Of two renditions of equal area and size the first is returned. *)
Lemma first_of_the_largest_selected_witness :
  asset_candidates no_str asset_two_equal = Ok candidates_two_equal /\
  first_preferred PREFERRED_ORIGINAL_KEYS candidates_two_equal = None /\
  filter _meets_fullsize_floor candidates_two_equal <> [] /\
  pick_best_download_url_from_asset no_str (VDict asset_two_equal)
  = Ok (Some "https://media.example.com/B/wide.jpg"%string) /\
  exists best before after,
    pick_best_download_url_from_asset no_str (VDict asset_two_equal)
    = Ok (Some (c_url best)) /\
    filter _meets_fullsize_floor candidates_two_equal = before ++ best :: after /\
    (forall c, In c before -> rank_ltb (rank c) (rank best) = true) /\
    (forall c, In c after -> rank_le (rank c) (rank best)).
Proof.
  assert (H1 : asset_candidates no_str asset_two_equal = Ok candidates_two_equal)
    by reflexivity.
  assert (H2 : first_preferred PREFERRED_ORIGINAL_KEYS candidates_two_equal = None)
    by reflexivity.
  assert (H3 : filter _meets_fullsize_floor candidates_two_equal <> [])
    by (vm_compute; discriminate).
  split; [exact H1|]. split; [exact H2|]. split; [exact H3|].
  split; [reflexivity|].
  exact (first_of_the_largest_selected no_str asset_two_equal candidates_two_equal
           H1 H2 H3).
Defined.

Lemma select_media_accounts_for_every_asset_witness :
  let out := select_media no_str items_photo_and_thumb sample_world in
  out = (Ok [photo_url], snd out) /\
  dest (snd out) = dest sample_world /\
  (exists evs, trace (snd out) = trace sample_world ++ evs /\
               List.length evs = 2%nat) /\
  forall u, In u [photo_url] <->
            u <> ""%string /\
            exists guid asset,
              In (guid, asset) items_photo_and_thumb /\
              pick_best_download_url_from_asset no_str asset = Ok (Some u).
Proof.
  intros out.
  assert (H : out = (Ok [photo_url], snd out)) by reflexivity.
  split; [exact H|].
  exact (select_media_accounts_for_every_asset no_str items_photo_and_thumb
           sample_world [photo_url] (snd out) H).
Defined.

Lemma download_file_leaves_other_names_witness :
  (forall resp, get_of sample_env photo_url = Some resp ->
                "old.jpg"%string <> saved_name resp photo_url /\
                "old.jpg"%string <> (saved_name resp photo_url ++ ".part")%string) /\
  is_truthy_name (Some "index.json"%string) <> Some "old.jpg"%string /\
  entry_at (snd (download_file sample_env photo_url (Some "index.json"%string)
                   sample_world)) "old.jpg"
  = Some (media_file 100 500000).
Proof.
  assert (H1 : forall resp, get_of sample_env photo_url = Some resp ->
                "old.jpg"%string <> saved_name resp photo_url /\
                "old.jpg"%string <> (saved_name resp photo_url ++ ".part")%string).
  { intros resp H. vm_compute in H. injection H as <-.
    split; vm_compute; discriminate. }
  assert (H2 : is_truthy_name (Some "index.json"%string) <> Some "old.jpg"%string)
    by (vm_compute; discriminate).
  split; [exact H1|]. split; [exact H2|].
  exact (download_file_leaves_other_names sample_env photo_url
           (Some "index.json"%string) sample_world "old.jpg" H1 H2).
Defined.

Lemma interrupted_download_leaves_part_file_witness :
  let resp := mkResponse true None None [8192%N; 4096%N] false in
  let out := download_file broken_env photo_url None sample_world in
  get_of broken_env photo_url = Some resp /\
  r_ok resp = true /\ r_intact resp = false /\
  probe_rejects broken_env photo_url = false /\
  usable_slot sample_world "abc123.jpg.part" /\
  fst out = Ok false /\
  holds_bytes (snd out) "abc123.jpg.part" 12288 /\
  (forall n, n <> "abc123.jpg.part"%string ->
             entry_at (snd out) n = entry_at sample_world n) /\
  In (Log ERROR "Failed to download %s: %s" [AStr photo_url; AExn RequestException])
     (trace (snd out)).
Proof.
  intros resp out.
  assert (Hu : usable_slot sample_world "abc123.jpg.part") by exact I.
  split; [reflexivity|]. split; [reflexivity|]. split; [reflexivity|].
  split; [reflexivity|]. split; [exact Hu|].
  exact (interrupted_download_leaves_part_file broken_env photo_url None sample_world
           resp eq_refl eq_refl eq_refl eq_refl Hu).
Defined.




(** With room for one file the count pass stops at the sub-directory, which
    stays. *)
Lemma prune_files_keeps_directories_witness :
  let sub := mkEntry Directory 50 true true (Binary 0) in
  entry_at sample_world "sub" = Some sub /\
  is_directory sub = true /\
  fst (prune_files sample_env 0 1 sample_world) = Raise IsADirectoryError /\
  entry_at (snd (prune_files sample_env 0 1 sample_world)) "sub" = Some sub.
Proof.
  intros sub. split; [reflexivity|]. split; [reflexivity|]. split; [reflexivity|].
  exact (prune_files_keeps_directories sample_env 0 1 sample_world "sub" sub
           eq_refl eq_refl).
Defined.

Lemma sync_album_keeps_directories_witness :
  let sub := mkEntry Directory 50 true true (Binary 0) in
  entry_at sample_world "sub" = Some sub /\
  is_directory sub = true /\
  entry_at (snd (sync_album no_str sample_env sample_cfg catalog_photo sample_world))
           "sub" = Some sub.
Proof.
  intros sub. split; [reflexivity|]. split; [reflexivity|].
  exact (sync_album_keeps_directories no_str sample_env sample_cfg catalog_photo
           sample_world "sub" sub eq_refl eq_refl).
Defined.


Lemma prune_disabled_changes_nothing_witness :
  0 <= 0 /\ prune_files sample_env 0 0 sample_world = (Ok tt, sample_world).
Proof.
  assert (H : 0 <= 0) by lia. split; [exact H|].
  exact (prune_disabled_changes_nothing sample_env 0 0 sample_world H H).
Defined.

Lemma content_disposition_names_the_file_witness :
  let name := "IMG_0001.JPG"%string in
  name <> ""%string /\
  PyStr.has_char ";" name = false /\ PyStr.has_char "034" name = false /\
  PyStr.has_char "/" name = false /\
  target_filename ("attachment; filename=" ++ dquote ++ name ++ dquote)%string photo_url
  = name /\
  (PyStr.strip name = name ->
   target_filename ("attachment; filename=" ++ name)%string photo_url = name).
Proof.
  intros name.
  assert (H : name <> ""%string) by discriminate.
  split; [exact H|]. split; [reflexivity|]. split; [reflexivity|].
  split; [reflexivity|].
  exact (content_disposition_names_the_file name photo_url H eq_refl eq_refl eq_refl).
Defined.


Lemma album_id_follows_last_hash_witness :
  let url := "https://www.icloud.com/sharedalbum/#B0abcdef"%string in
  PyStr.has_char "#" url = true /\
  after_last "#" url = "B0abcdef"%string /\
  exists pre, url = (pre ++ "#" ++ after_last "#" url)%string /\
              PyStr.has_char "#" (after_last "#" url) = false.
Proof.
  intros url. split; [reflexivity|]. split; [reflexivity|].
  exact (album_id_follows_last_hash url eq_refl).
Defined.



Lemma burst_files_wf : wf_listing burst_files.
Proof.
  split.
  - simpl. repeat (constructor; [simpl; intuition discriminate|]). constructor.
  - intros n e Hin. simpl in Hin.
    repeat (destruct Hin as [[= <- <-] | Hin]; [reflexivity|]). destruct Hin.
Defined.

Lemma burst_files_no_directory n e : In (n, e) burst_files -> is_directory e = false.
Proof.
  intros Hin. simpl in Hin.
  repeat (destruct Hin as [[= <- <-] | Hin]; [reflexivity|]). destruct Hin.
Defined.


(** The sample destination reconciled with its index alone: the photo
    and the link go, the sub-directory stays, and the second run removes
    nothing. *)
Lemma mirror_missing_files_idempotent_witness :
  world_wf sample_world /\
  option_map (map fst)
    (dest (snd (mirror_missing_files ["index.json"%string] sample_world)))
  = Some ["index.json"; "sub"]%string /\
  exists w1 w2,
    mirror_missing_files ["index.json"%string] sample_world = (Ok tt, w1) /\
    mirror_missing_files ["index.json"%string] w1 = (Ok tt, w2) /\
    dest w2 = dest w1 /\
    ((forall n e, entry_at sample_world n = Some e -> is_directory e = false) ->
     w2 = w1).
Proof.
  split; [exact sample_world_wf|]. split; [reflexivity|].
  exact (mirror_missing_files_idempotent ["index.json"%string] sample_world
           sample_world_wf).
Defined.

Example fetch_catalog_on_sample_service :
  fetch_catalog no_str RequestException sample_service
    "https://www.icloud.com/sharedalbum/#B0abcdef" []
  = (inl (Some (CatalogItems [("guid-1", VDict [])])),
     [mkPost "https://p23-sharedstreams.icloud.com/B0abcdef/sharedstreams/webstream"
             stream_payload;
      mkPost "https://p42-sharedstreams.icloud.com/B0abcdef/sharedstreams/webstream"
             stream_payload;
      mkPost "https://p42-sharedstreams.icloud.com/B0abcdef/sharedstreams/webasseturls"
             (VDict [("photoGuids", VList [VStr "guid-1"; VStr "guid-2"])])]).
Proof. reflexivity. Qed.
